(** * Shade Perfection: the curve engine and the palette distributor

    A shallow embedding of [SuperellipseMath] (findExponent,
    generateCurvePoints, generateDesaturatedCurve, findClosestPoint,
    findPointAtArcLength), of [ColorGenerator] (generatePalette,
    _calculateArcLength) and of the part of [AppState] / [UIController]
    that couples the smart-spacing toggle with the contrast input.

    Numbers.  JavaScript numbers are modelled by the real numbers of the
    Standard Library: [+ - * /] are exact, [Math.cos], [Math.sin],
    [Math.sqrt] and [Math.PI] are their mathematical counterparts, and
    [Math.pow] is [Rpower] extended to a zero base.  Rounding error, NaN and
    the infinities of IEEE 754 are outside the model; the one place where
    the source needs [Infinity] (the initial minimum distance of
    findClosestPoint) uses [option R].  Swatch counts and loop indices are
    integers.

    Exceptions.  A property access on [undefined] throws a TypeError in
    JavaScript.  Functions that can reach such an access return [option];
    the [try { ... } catch (e) { continue }] of the two curve generators is
    modelled by a step that returns [None] when the body throws and a
    wrapper that then keeps the loop state unchanged. *)

From Stdlib Require Import String Ascii.
From Stdlib Require DecimalString HexadecimalString.
From Stdlib Require Import Reals Lra Lia ZArith List Bool Sorted.
Import ListNotations.

Open Scope R_scope.

(* ------------------------------------------------------------------ *)
(** * JavaScript primitives *)

Module JS.

(** Comparison operators yield booleans, as in the source. *)
Definition leb (a b : R) : bool := if Rle_dec a b then true else false.
Definition ltb (a b : R) : bool := if Rlt_dec a b then true else false.
Definition geb (a b : R) : bool := leb b a.
Definition gtb (a b : R) : bool := ltb b a.
Definition eqb (a b : R) : bool := if Req_dec_T a b then true else false.
Definition neqb (a b : R) : bool := negb (eqb a b).

(** [Math.pow(b, e)] for a base [b >= 0]: [1] when [e] is [0],
    [exp (e * ln b)] when [b > 0], and [0] for a zero base with a
    positive exponent.  The remaining arguments (zero base with a
    negative exponent, negative base) give an infinity, a NaN or a
    signed power in JavaScript; the source never reaches them with the
    inputs considered below and the model returns [0] there. *)
Definition Math_pow (b e : R) : R :=
  if Req_dec_T e 0 then 1
  else if Rlt_dec 0 b then Rpower b e
  else 0.

Definition Math_abs : R -> R := Rabs.
Definition Math_max : R -> R -> R := Rmax.
Definition Math_min : R -> R -> R := Rmin.
Definition Math_sqrt : R -> R := sqrt.
Definition Math_cos : R -> R := cos.
Definition Math_sin : R -> R := sin.
Definition Math_PI : R := PI.

(** [Math.round] rounds to the nearest integer, halves upwards. *)
Definition Math_round (a : R) : Z := Zfloor (a + / 2).
Definition Math_floor (a : R) : Z := Zfloor a.
Definition Math_ceil (a : R) : Z := Zceil a.

(** A minimum distance that starts at [Infinity]: [None] is [Infinity]. *)
Definition lt_inf (a : R) (m : option R) : bool :=
  match m with
  | None => true
  | Some b => ltb a b
  end.

End JS.

Notation "a <=? b" := (JS.leb a b) (at level 70, no associativity) : R_scope.
Notation "a <? b" := (JS.ltb a b) (at level 70, no associativity) : R_scope.
Notation "a >=? b" := (JS.geb a b) (at level 70, no associativity) : R_scope.
Notation "a >? b" := (JS.gtb a b) (at level 70, no associativity) : R_scope.

(** Binding for computations that may throw. *)
Notation "'let?' p ':=' e 'in' k" :=
  (match e with Some p => k | None => None end)
  (at level 10, p pattern, e at level 200, k at level 200).

(* ------------------------------------------------------------------ *)
(** * config.js *)

Module CONFIG.
Definition PALETTE_SIZE : R := 180.
Definition CURVE_RESOLUTION : nat := 400.
Definition SUPERELLIPSE_N_MIN : R := 1 / 10.
Definition SUPERELLIPSE_N_MAX : R := 25.
Definition SUPERELLIPSE_TOLERANCE : R := 1 / 1000.
Definition SUPERELLIPSE_MAX_ITERATIONS : nat := 100.
Definition CONTRAST_MIN : R := 1 / 10.
Definition CONTRAST_MAX : R := 5.
Definition COLOR_COUNT_MIN : Z := 1.
Definition COLOR_COUNT_MAX : Z := 50.
Definition SATURATION_DEFAULT : R := 100.
Definition SATURATION_MAX : R := 100.
End CONFIG.

(* ------------------------------------------------------------------ *)
(** * JavaScript strings *)

Module JSString.

(** The decimal text of an integer, as a template literal prints it. *)
Definition ofInteger (k : Z) : string :=
  DecimalString.NilZero.string_of_int (Z.to_int k).

(** [k.toString(16)] for an integer [k]. *)
Definition toString16 (k : Z) : string :=
  HexadecimalString.NilZero.string_of_int (Z.to_hex_int k).

Fixpoint repeatChar (n : nat) (c : ascii) : string :=
  match n with
  | O => EmptyString
  | S m => String c (repeatChar m c)
  end.

(** [str.padStart(targetLength, c)] with a pad string of one character. *)
Definition padStart (targetLength : nat) (c : ascii) (str : string)
    : string :=
  append (repeatChar (targetLength - String.length str) c) str.

Definition upperChar (c : ascii) : ascii :=
  let n := nat_of_ascii c in
  if (97 <=? n)%nat && (n <=? 122)%nat then ascii_of_nat (n - 32) else c.

(** [str.toUpperCase()] on ASCII text. *)
Fixpoint toUpperCase (str : string) : string :=
  match str with
  | EmptyString => EmptyString
  | String c rest => String (upperChar c) (toUpperCase rest)
  end.

End JSString.

(* ------------------------------------------------------------------ *)
(** * SuperellipseMath.js *)

Module SuperellipseMath.
Import JS.

(** ** findExponent *)

(** The [for] loop of findExponent, [iterations] being the number of
    iterations left; the last line of the function is the base case. *)
Fixpoint bisect (iterations : nat) (x y nMin nMax : R) : R :=
  match iterations with
  | O => Math_min ((nMin + nMax) / 2) CONFIG.SUPERELLIPSE_N_MAX
  | S k =>
      let nMid := (nMin + nMax) / 2 in
      let f := Math_pow x nMid + Math_pow y nMid - 1 in
      if Math_abs f <? CONFIG.SUPERELLIPSE_TOLERANCE then
        Math_min nMid CONFIG.SUPERELLIPSE_N_MAX
      else
        let fMin := Math_pow x nMin + Math_pow y nMin - 1 in
        if f * fMin <? 0 then bisect k x y nMin nMid
        else bisect k x y nMid nMax
  end.

Definition minThreshold : R := 1 / 1000.
Definition maxThreshold : R := 99 / 100.

Definition findExponent (x y : R) : R :=
  if (x <=? minThreshold) && (y <=? minThreshold) then
    CONFIG.SUPERELLIPSE_N_MIN
  else if (x <=? minThreshold) || (y <=? minThreshold) then
    CONFIG.SUPERELLIPSE_N_MIN
  else if (x >=? maxThreshold) && (y >=? maxThreshold) then
    CONFIG.SUPERELLIPSE_N_MAX
  else
    bisect CONFIG.SUPERELLIPSE_MAX_ITERATIONS x y
      CONFIG.SUPERELLIPSE_N_MIN CONFIG.SUPERELLIPSE_N_MAX.

(** ** Curve generation *)

(** A point as the sampling loop pushes it. *)
Record RawPoint := mkRawPoint {
  raw_t : R;
  raw_x : R;
  raw_y : R;
  raw_pixelX : R;
  raw_pixelY : R;
  raw_arcLength : R
}.

(** A point after the normalisation pass has added
    [normalizedArcLength]. *)
Record CurvePoint := mkCurvePoint {
  t : R;
  x : R;
  y : R;
  pixelX : R;
  pixelY : R;
  arcLength : R;
  normalizedArcLength : R
}.

(** [const minSegmentLength = 1e-10], declared with this value in both
    generators and in findClosestPoint. *)
Definition minSegmentLength : R := / 10 ^ 10.

(** The state of the sampling loop: [points] and [totalArcLength]. *)
Definition SamplerState : Type := list RawPoint * R.

(** [const t = ((i / resolution) * Math.PI) / 2]. *)
Definition sampleParameter (i : nat) : R :=
  INR i / INR CONFIG.CURVE_RESOLUTION * Math_PI / 2.

(** The body of the [try] block for index [i]; [curveX] and [curveY] give
    [px] and [py] from the parameter [t].  [None] is the TypeError of
    [prevPoint.x] when [points[i - 1]] is [undefined]. *)
Definition sampleBody (curveX curveY : R -> R) (st : SamplerState)
    (i : nat) : option SamplerState :=
  let '(points, totalArcLength) := st in
  let t := sampleParameter i in
  let px := curveX t in
  let py := curveY t in
  let clampedX := Math_max 0 (Math_min 1 px) in
  let clampedY := Math_max 0 (Math_min 1 py) in
  let point arc :=
    mkRawPoint t clampedX clampedY
      (clampedX * CONFIG.PALETTE_SIZE)
      ((1 - clampedY) * CONFIG.PALETTE_SIZE) arc in
  if (0 <? i)%nat then
    let? prevPoint := nth_error points (i - 1) in
    let dx := clampedX - raw_x prevPoint in
    let dy := clampedY - raw_y prevPoint in
    let segmentLength := Math_sqrt (dx * dx + dy * dy) in
    let totalArcLength' :=
      if segmentLength >? minSegmentLength
      then totalArcLength + segmentLength
      else totalArcLength in
    Some (points ++ [point totalArcLength'], totalArcLength')
  else
    Some (points ++ [point totalArcLength], totalArcLength).

(** One loop iteration: [catch (e) { continue }] drops the sample. *)
Definition sampleStep (curveX curveY : R -> R) (st : SamplerState)
    (i : nat) : SamplerState :=
  match sampleBody curveX curveY st i with
  | Some st' => st'
  | None => st
  end.

(** [for (let i = 0; i <= resolution; i++)]. *)
Definition sampleLoop (curveX curveY : R -> R) : SamplerState :=
  fold_left (sampleStep curveX curveY)
    (seq 0 (CONFIG.CURVE_RESOLUTION + 1)) ([], 0).

Definition withNormalized (p : RawPoint) (nal : R) : CurvePoint :=
  mkCurvePoint (raw_t p) (raw_x p) (raw_y p) (raw_pixelX p) (raw_pixelY p)
    (raw_arcLength p) nal.

(** [points.forEach((point, index) => ...)] of the fallback branch,
    [index] counting from [start]. *)
Fixpoint normalizeByIndex (len : nat) (start : nat) (points : list RawPoint)
    : list CurvePoint :=
  match points with
  | [] => []
  | p :: rest =>
      withNormalized p (INR start / (INR len - 1))
        :: normalizeByIndex len (S start) rest
  end.

(** The two normalisation branches that end both generators. *)
Definition normalize (st : SamplerState) : list CurvePoint :=
  let '(points, totalArcLength) := st in
  if totalArcLength >? 0 then
    map (fun p => withNormalized p (raw_arcLength p / totalArcLength)) points
  else
    normalizeByIndex (length points) 0 points.

Definition generateCurvePoints (n : R) : list CurvePoint :=
  normalize
    (sampleLoop (fun t => Math_pow (Math_cos t) (2 / n))
                (fun t => Math_pow (Math_sin t) (2 / n))).

Definition minCompressionFactor : R := 5 / 1000.

Definition generateDesaturatedCurve (nMain saturationPercent : R)
    : list CurvePoint :=
  let a := Math_max minCompressionFactor (saturationPercent / 100) in
  let nSecondary := 1 + (nMain - 1) * (saturationPercent / 100) in
  normalize
    (sampleLoop (fun t => a * Math_pow (Math_cos t) (2 / nSecondary))
                (fun t => Math_pow (Math_sin t) (2 / nSecondary))).

(** ** Lookups *)

(** What the two lookups return: one of the samples of the curve, or a
    fresh object with [x], [y] and [normalizedArcLength] only. *)
Inductive Located :=
| Sample (p : CurvePoint)
| Fresh (fx fy fnormalizedArcLength : R).

Definition loc_x (l : Located) : R :=
  match l with Sample p => x p | Fresh fx _ _ => fx end.
Definition loc_y (l : Located) : R :=
  match l with Sample p => y p | Fresh _ fy _ => fy end.
Definition loc_normalizedArcLength (l : Located) : R :=
  match l with Sample p => normalizedArcLength p | Fresh _ _ a => a end.

Definition searchRadius : Z := 3.

(** State of the coarse pass: [closestPoint], [minDistance],
    [closestIndex]. *)
Definition CoarseState : Type := option CurvePoint * option R * nat.

Definition coarseStep (targetX targetY : R) (st : CoarseState)
    (entry : nat * CurvePoint) : CoarseState :=
  let '(closestPoint, minDistance, closestIndex) := st in
  let '(index, point) := entry in
  let dx := x point - targetX in
  let dy := y point - targetY in
  let distance := dx * dx + dy * dy in
  if lt_inf distance minDistance then (Some point, Some distance, index)
  else st.

Definition coarsePass (targetX targetY : R) (curvePoints : list CurvePoint)
    : CoarseState :=
  fold_left (coarseStep targetX targetY)
    (combine (seq 0 (length curvePoints)) curvePoints)
    (nth_error curvePoints 0, None, 0%nat).

(** State of the refinement: [bestPoint], [bestDistance]. *)
Definition RefineState : Type := option Located * option R.

(** The body of the refinement loop for segment [i]; [None] is the
    TypeError of reading [p1.x] or [p2.x] from [undefined]. *)
Definition refineBody (targetX targetY : R) (curvePoints : list CurvePoint)
    (st : RefineState) (i : nat) : option RefineState :=
  let '(bestPoint, bestDistance) := st in
  let? p1 := nth_error curvePoints i in
  let? p2 := nth_error curvePoints (i + 1) in
  let segmentVecX := x p2 - x p1 in
  let segmentVecY := y p2 - y p1 in
  let toTargetX := targetX - x p1 in
  let toTargetY := targetY - y p1 in
  let segmentLengthSq :=
    segmentVecX * segmentVecX + segmentVecY * segmentVecY in
  if segmentLengthSq >? minSegmentLength then
    let t :=
      Math_max 0
        (Math_min 1
           ((toTargetX * segmentVecX + toTargetY * segmentVecY)
            / segmentLengthSq)) in
    let projectedX := x p1 + t * segmentVecX in
    let projectedY := y p1 + t * segmentVecY in
    let projectedArcLength :=
      normalizedArcLength p1
      + t * (normalizedArcLength p2 - normalizedArcLength p1) in
    let dx := projectedX - targetX in
    let dy := projectedY - targetY in
    let distance := dx * dx + dy * dy in
    if lt_inf distance bestDistance then
      Some (Some (Fresh projectedX projectedY projectedArcLength),
            Some distance)
    else Some st
  else Some st.

Fixpoint refineLoop (targetX targetY : R) (curvePoints : list CurvePoint)
    (indices : list nat) (st : RefineState) : option RefineState :=
  match indices with
  | [] => Some st
  | i :: rest =>
      let? st' := refineBody targetX targetY curvePoints st i in
      refineLoop targetX targetY curvePoints rest st'
  end.

(** The indices [startIdx, ..., endIdx - 1] of
    [for (let i = startIdx; i < endIdx; i++)]. *)
Definition indexRange (startIdx endIdx : Z) : list nat :=
  map (fun k => Z.to_nat (startIdx + Z.of_nat k))
    (seq 0 (Z.to_nat (endIdx - startIdx))).

(** [None] results are [undefined] (empty curve) or a thrown TypeError. *)
Definition findClosestPoint (targetX targetY : R)
    (curvePoints : list CurvePoint) : option Located :=
  let '(closestPoint, minDistance, closestIndex) :=
    coarsePass targetX targetY curvePoints in
  let startIdx := Z.max 0 (Z.of_nat closestIndex - searchRadius) in
  let endIdx :=
    Z.min (Z.of_nat (length curvePoints) - 1)
          (Z.of_nat closestIndex + searchRadius) in
  let? st :=
    refineLoop targetX targetY curvePoints (indexRange startIdx endIdx)
      (option_map Sample closestPoint, minDistance) in
  fst st.

(** The scan of findPointAtArcLength over consecutive pairs
    [(curvePoints[i - 1], curvePoints[i])]; [None] when no pair brackets
    the query. *)
Fixpoint bracketScan (normalizedArcLength0 : R)
    (curvePoints : list CurvePoint) : option Located :=
  match curvePoints with
  | prevPoint :: ((currPoint :: _) as rest) =>
      if (normalizedArcLength0 >=? normalizedArcLength prevPoint)
         && (normalizedArcLength0 <=? normalizedArcLength currPoint)
      then
        let t :=
          (normalizedArcLength0 - normalizedArcLength prevPoint)
          / (normalizedArcLength currPoint - normalizedArcLength prevPoint)
        in
        Some (Fresh (x prevPoint + t * (x currPoint - x prevPoint))
                    (y prevPoint + t * (y currPoint - y prevPoint))
                    normalizedArcLength0)
      else bracketScan normalizedArcLength0 rest
  | _ => None
  end.

(** [curvePoints[curvePoints.length - 1]]; [undefined] on an empty
    array. *)
Definition lastSample (curvePoints : list CurvePoint) : option CurvePoint :=
  match curvePoints with
  | [] => None
  | _ => nth_error curvePoints (length curvePoints - 1)
  end.

(** [None] is [undefined], returned for an empty curve. *)
Definition findPointAtArcLength (normalizedArcLength0 : R)
    (curvePoints : list CurvePoint) : option Located :=
  if normalizedArcLength0 <=? 0 then
    option_map Sample (nth_error curvePoints 0)
  else if normalizedArcLength0 >=? 1 then
    option_map Sample (lastSample curvePoints)
  else
    match bracketScan normalizedArcLength0 curvePoints with
    | Some found => Some found
    | None => option_map Sample (lastSample curvePoints)
    end.

End SuperellipseMath.

(* ------------------------------------------------------------------ *)
(** * ColorGenerator.js *)

Module ColorGenerator.
Import JS.

(** The [params] object.  [colorCount] is an integer, on which
    [parseInt] is the identity; [saturationControl] may be
    [undefined]. *)
Record Params := mkParams {
  hue : R;
  saturation : R;
  value : R;
  colorCount : Z;
  contrast : R;
  smartSpacing : bool;
  includeBlackWhite : bool;
  saturationControl : option R
}.

(** An entry of [colors]; the flags that the source leaves [undefined]
    are [false]. *)
Record Color := mkColor {
  hex : string;
  s : R;
  v : R;
  arcLength : R;
  isSelected : bool;
  isBlack : bool;
  isWhite : bool;
  mainS : R;
  mainV : R;
  mainHex : string
}.

Record Palette := mkPalette {
  colors : list Color;
  curvePoints : list SuperellipseMath.CurvePoint;
  desaturatedCurvePoints : list SuperellipseMath.CurvePoint
}.

Definition contrastHighThreshold : R := 1.
Definition contrastLowThreshold : R := 1.
Definition contrastHighExponent : R := 15 / 10.
Definition contrastLowExponent : R := 15 / 10.
Definition maxContrastRange : R := 4.
Definition minContrastRange : R := 9 / 10.

Definition _calculateArcLength (index total : Z) (selectedArc contrast : R)
    (useContrast isBefore : bool) : R :=
  if negb useContrast then
    if isBefore then
      selectedArc / (IZR total + 1) * (IZR index + 1)
    else
      selectedArc + (1 - selectedArc) / (IZR total + 1) * (IZR index + 1)
  else
    let normalizedDistance :=
      (if isBefore then IZR total - IZR index else IZR index + 1)
      / (IZR total + 1) in
    let poweredDistance :=
      if contrast >? contrastHighThreshold then
        let t :=
          Math_min ((contrast - contrastHighThreshold) / maxContrastRange)
            1 in
        let linear := normalizedDistance in
        let curved :=
          Math_pow normalizedDistance (1 / contrastHighExponent) in
        linear * (1 - t) + curved * t
      else if contrast <? contrastLowThreshold then
        let t :=
          Math_min ((contrastLowThreshold - contrast) / minContrastRange)
            1 in
        let linear := normalizedDistance in
        let curved := Math_pow normalizedDistance contrastLowExponent in
        linear * (1 - t) + curved * t
      else normalizedDistance in
    if isBefore then selectedArc - selectedArc * poweredDistance
    else selectedArc + (1 - selectedArc) * poweredDistance.

(** [const useContrastMode = contrast !== 1.0]. *)
Definition useContrastMode (contrast : R) : bool := neqb contrast 1.

(** Lines 56-88 of generatePalette: [(pointsBefore, pointsAfter)].  In
    the last branch [count] is odd, so [pointsToDistribute / 2] is an
    integer. *)
Definition splitPoints (smartSpacing useContrastMode : bool) (count : Z)
    (selectedArcLength : R) : Z * Z :=
  let pointsToDistribute := (count - 1)%Z in
  if smartSpacing && negb useContrastMode then
    let pointsBefore :=
      Math_round (selectedArcLength * IZR pointsToDistribute) in
    let pointsAfter := (pointsToDistribute - pointsBefore)%Z in
    if (pointsBefore =? 0)%Z && (1 <? pointsAfter)%Z then
      (1%Z, (pointsAfter - 1)%Z)
    else if (pointsAfter =? 0)%Z && (1 <? pointsBefore)%Z then
      ((pointsBefore - 1)%Z, 1%Z)
    else (pointsBefore, pointsAfter)
  else
    if (Z.rem count 2 =? 0)%Z then
      let smallerSegment := Math_floor (IZR pointsToDistribute / 2) in
      let largerSegment := Math_ceil (IZR pointsToDistribute / 2) in
      let beforeLength := selectedArcLength in
      let afterLength := 1 - selectedArcLength in
      if beforeLength >=? afterLength then (largerSegment, smallerSegment)
      else (smallerSegment, largerSegment)
    else
      ((pointsToDistribute / 2)%Z, (pointsToDistribute / 2)%Z).

(** The values of [i] in [for (let i = 0; i < bound; i++)]. *)
Definition upTo (bound : Z) : list Z :=
  map Z.of_nat (seq 0 (Z.to_nat bound)).

(** Runs [f] over [l] from left to right, stopping at the first throw. *)
Fixpoint forEach {A B : Type} (f : A -> option B) (l : list A)
    : option (list B) :=
  match l with
  | [] => Some []
  | a :: rest =>
      let? b := f a in
      let? bs := forEach f rest in
      Some (b :: bs)
  end.

Definition blackSwatch : Color :=
  mkColor "#000000"%string 0 0 0 false true false 0 0 "#000000"%string.

Definition whiteSwatch : Color :=
  mkColor "#FFFFFF"%string 0 100 1 false false true 0 100 "#FFFFFF"%string.

Section WithColorMath.

(** [ColorMath.hsvToHex], the colour-space collaborator. *)
Variable hsvToHex : R -> R -> R -> string.

(** The body shared by the two distribution loops: the swatch at
    [arcLength]. *)
Definition swatchAt (hue : R)
    (curvePoints desaturatedCurvePoints : list SuperellipseMath.CurvePoint)
    (arcLength : R) : option Color :=
  let? mainPoint :=
    SuperellipseMath.findPointAtArcLength arcLength curvePoints in
  let mainS := SuperellipseMath.loc_x mainPoint * 100 in
  let mainV := SuperellipseMath.loc_y mainPoint * 100 in
  let mainHex := hsvToHex hue mainS mainV in
  let? desaturatedPoint :=
    SuperellipseMath.findPointAtArcLength arcLength
      desaturatedCurvePoints in
  let s := SuperellipseMath.loc_x desaturatedPoint * 100 in
  let v := SuperellipseMath.loc_y desaturatedPoint * 100 in
  let hex := hsvToHex hue s v in
  Some (mkColor hex s v arcLength false false false mainS mainV mainHex).

(** [None] is a TypeError escaping generatePalette. *)
Definition generatePalette (params : Params) : option Palette :=
  let normalizedX := saturation params / 100 in
  let normalizedY := value params / 100 in
  let n := SuperellipseMath.findExponent normalizedX normalizedY in
  let curvePoints := SuperellipseMath.generateCurvePoints n in
  let? selectedPoint :=
    SuperellipseMath.findClosestPoint normalizedX normalizedY
      curvePoints in
  let selectedArcLength :=
    SuperellipseMath.loc_normalizedArcLength selectedPoint in
  let count := colorCount params in
  let useContrastMode := useContrastMode (contrast params) in
  let '(pointsBefore, pointsAfter) :=
    splitPoints (smartSpacing params) useContrastMode count
      selectedArcLength in
  let saturationPercent :=
    match saturationControl params with
    | Some sc => sc
    | None => CONFIG.SATURATION_DEFAULT
    end in
  let desaturatedCurvePoints :=
    SuperellipseMath.generateDesaturatedCurve n saturationPercent in
  let? before :=
    forEach
      (fun i =>
         swatchAt (hue params) curvePoints desaturatedCurvePoints
           (_calculateArcLength i pointsBefore selectedArcLength
              (contrast params) useContrastMode true))
      (upTo pointsBefore) in
  let? selectedDesaturatedPoint :=
    SuperellipseMath.findPointAtArcLength selectedArcLength
      desaturatedCurvePoints in
  let selectedS := SuperellipseMath.loc_x selectedDesaturatedPoint * 100 in
  let selectedV := SuperellipseMath.loc_y selectedDesaturatedPoint * 100 in
  let selectedMainHex :=
    hsvToHex (hue params) (saturation params) (value params) in
  let selected :=
    mkColor (hsvToHex (hue params) selectedS selectedV) selectedS
      selectedV selectedArcLength true false false (saturation params)
      (value params) selectedMainHex in
  let? after :=
    forEach
      (fun i =>
         swatchAt (hue params) curvePoints desaturatedCurvePoints
           (_calculateArcLength i pointsAfter selectedArcLength
              (contrast params) useContrastMode false))
      (upTo pointsAfter) in
  let colors := before ++ [selected] ++ after in
  let colors :=
    if includeBlackWhite params
    then [blackSwatch] ++ colors ++ [whiteSwatch]
    else colors in
  Some (mkPalette colors curvePoints desaturatedCurvePoints).

End WithColorMath.

(** An element of the array generateColorNames returns: the colour and
    its [displayName]. *)
Record NamedColor := mkNamedColor {
  color : Color;
  displayName : string
}.

Definition nameMultiplier : Z := 10.

(** The callback of [colors.map] in generateColorNames, with
    [colorCounter] passed from one call to the next. *)
Fixpoint nameColors (baseName : string) (totalMainColors colorCounter : Z)
    (colors : list Color) : list NamedColor :=
  match colors with
  | [] => []
  | color :: rest =>
      if isBlack color then
        mkNamedColor color "Black"
          :: nameColors baseName totalMainColors colorCounter rest
      else if isWhite color then
        mkNamedColor color "White"
          :: nameColors baseName totalMainColors colorCounter rest
      else
        let index := ((totalMainColors - colorCounter) * nameMultiplier)%Z in
        mkNamedColor color
          (baseName ++ " " ++ JSString.ofInteger index)%string
          :: nameColors baseName totalMainColors (colorCounter + 1)%Z rest
  end.

Definition generateColorNames (colors : list Color) (baseName : string)
    : list NamedColor :=
  let mainColors :=
    filter (fun c => negb (isBlack c) && negb (isWhite c)) colors in
  let totalMainColors := Z.of_nat (length mainColors) in
  nameColors baseName totalMainColors 0 colors.

End ColorGenerator.

(* ------------------------------------------------------------------ *)
(** * AppState.js *)

Module AppState.

Record Features := mkFeatures {
  importWithVariables : bool;
  reverseOrder : bool;
  includeBlackWhite : bool;
  smartSpacing : bool;
  rgbFormat : bool
}.

(** The fields of [AppState] that reach a generation request. *)
Record State := mkState {
  hue : R;
  saturation : R;
  value : R;
  saturationControl : R;
  colorCount : Z;
  contrast : R;
  features : Features
}.

(** The constructor. *)
Definition initial : State :=
  mkState 220 81 78 CONFIG.SATURATION_DEFAULT 10 1
    (mkFeatures true false false false false).

Definition set_contrast (c : R) (st : State) : State :=
  mkState (hue st) (saturation st) (value st) (saturationControl st)
    (colorCount st) c (features st).

Definition set_color (h s v : R) (st : State) : State :=
  mkState h s v (saturationControl st) (colorCount st) (contrast st)
    (features st).

Definition set_saturationControl (sc : R) (st : State) : State :=
  mkState (hue st) (saturation st) (value st) sc (colorCount st)
    (contrast st) (features st).

Definition set_smartSpacing (b : bool) (st : State) : State :=
  let f := features st in
  mkState (hue st) (saturation st) (value st) (saturationControl st)
    (colorCount st) (contrast st)
    (mkFeatures (importWithVariables f) (reverseOrder f)
       (includeBlackWhite f) b (rgbFormat f)).

(** The argument of [_notify]. *)
Inductive ChangeType :=
| color | settings | feature | colors | saturation_control | preset.

End AppState.

(* ------------------------------------------------------------------ *)
(** * UIController.js: smart spacing and contrast *)

Module UIController.
Import JS.

(** The application state, the two DOM facts the handlers below read or
    write (the [active] class of the smart-spacing button and the
    [disabled] attribute of the contrast input), whether a drag of the
    contrast icon is in progress, and the requests passed to
    [ColorGenerator.generatePalette] so far, oldest first. *)
Record World := mkWorld {
  state : AppState.State;
  smartSpacingButtonActive : bool;
  contrastInputDisabled : bool;
  dragActive : bool;
  requests : list ColorGenerator.Params
}.

Definition initial : World :=
  mkWorld AppState.initial false false false [].

Definition with_state (f : AppState.State -> AppState.State) (w : World)
    : World :=
  mkWorld (f (state w)) (smartSpacingButtonActive w)
    (contrastInputDisabled w) (dragActive w) (requests w).

Definition with_button (b : bool) (w : World) : World :=
  mkWorld (state w) b (contrastInputDisabled w) (dragActive w) (requests w).

Definition with_disabled (b : bool) (w : World) : World :=
  mkWorld (state w) (smartSpacingButtonActive w) b (dragActive w)
    (requests w).

Definition with_drag (b : bool) (w : World) : World :=
  mkWorld (state w) (smartSpacingButtonActive w) (contrastInputDisabled w)
    b (requests w).

(** The object literal that _regenerateColors passes on. *)
Definition requestOf (st : AppState.State) : ColorGenerator.Params :=
  ColorGenerator.mkParams (AppState.hue st) (AppState.saturation st)
    (AppState.value st) (AppState.colorCount st) (AppState.contrast st)
    (AppState.smartSpacing (AppState.features st))
    (AppState.includeBlackWhite (AppState.features st))
    (Some (AppState.saturationControl st)).

(** The call of generatePalette is recorded; the [colors] notification
    that follows it redraws and does not generate again. *)
Definition _regenerateColors (w : World) : World :=
  mkWorld (state w) (smartSpacingButtonActive w) (contrastInputDisabled w)
    (dragActive w) (requests w ++ [requestOf (state w)]).

(** The subscriber that the constructor registers; [_notify] calls it
    synchronously. *)
Definition _handleStateChange (changeType : AppState.ChangeType)
    (w : World) : World :=
  match changeType with
  | AppState.color => _regenerateColors w
  | AppState.settings => _regenerateColors w
  | AppState.feature => _regenerateColors w
  | AppState.colors => w
  | AppState.saturation_control => _regenerateColors w
  | AppState.preset => _regenerateColors (with_disabled false w)
  end.

Definition _notify := _handleStateChange.

(** [state.setFeature("smartSpacing", value)]. *)
Definition setFeature_smartSpacing (b : bool) (w : World) : World :=
  _notify AppState.feature (with_state (AppState.set_smartSpacing b) w).

(** [_toggleFeatureButton("smartSpacing", active)]. *)
Definition _toggleFeatureButton_smartSpacing (active : bool) (w : World)
    : World :=
  setFeature_smartSpacing active (with_button active w).

(** [_handleFeatureToggle("smartSpacing", toggleElement)]. *)
Definition _handleFeatureToggle_smartSpacing (w : World) : World :=
  let w := with_button (negb (smartSpacingButtonActive w)) w in
  let isActive := smartSpacingButtonActive w in
  let w := setFeature_smartSpacing isActive w in
  let w :=
    if isActive then
      with_disabled true (with_state (AppState.set_contrast 1) w)
    else with_disabled false w in
  _regenerateColors w.

(** The clamp applied to the contrast input; [parsed] is the result of
    [parseFloat], [None] standing for NaN. *)
Definition clampContrast (parsed : option R) : R :=
  let fallback :=
    match parsed with
    | Some p => if eqb p 0 then 1 else p
    | None => 1
    end in
  Math_max CONFIG.CONTRAST_MIN (Math_min CONFIG.CONTRAST_MAX fallback).

(** The [input] listener of the contrast field. *)
Definition contrastInput_input (parsed : option R) (w : World) : World :=
  let value := clampContrast parsed in
  let w :=
    _notify AppState.settings (with_state (AppState.set_contrast value) w) in
  let w :=
    if neqb value 1 && AppState.smartSpacing (AppState.features (state w))
    then _toggleFeatureButton_smartSpacing false w
    else w in
  _regenerateColors w.

(** [onUpdate] of the contrast drag control. *)
Definition contrastDrag_onUpdate (value : R) (w : World) : World :=
  let w := with_state (AppState.set_contrast value) w in
  let w :=
    if neqb value 1 && AppState.smartSpacing (AppState.features (state w))
    then _toggleFeatureButton_smartSpacing false w
    else w in
  _regenerateColors w.

(** [AppState.applyPreset]; [h], [s], [v] are the result of
    [ColorMath.hexToHsv(presetConfig.color)]. *)
Definition applyPreset (h s v presetContrast : R)
    (presetSaturation : option R) (w : World) : World :=
  let w := _notify AppState.color (with_state (AppState.set_color h s v) w) in
  let w := with_state (AppState.set_contrast presetContrast) w in
  let w :=
    with_state
      (AppState.set_saturationControl
         match presetSaturation with
         | Some sat => sat
         | None => CONFIG.SATURATION_DEFAULT
         end) w in
  let w :=
    if AppState.smartSpacing (AppState.features (state w))
    then setFeature_smartSpacing false w
    else w in
  _notify AppState.preset w.

(** The user actions that touch the contrast or the smart-spacing
    flag. *)
Inductive Event :=
| ClickSmartSpacing
| ContrastInput (parsed : option R)
| ContrastIconMouseDown
| MouseMove (finalValue : R)
| MouseUp
| PresetClick (h s v presetContrast : R) (presetSaturation : option R).

Definition handle (e : Event) (w : World) : World :=
  match e with
  | ClickSmartSpacing => _handleFeatureToggle_smartSpacing w
  | ContrastInput parsed => contrastInput_input parsed w
  | ContrastIconMouseDown =>
      if AppState.smartSpacing (AppState.features (state w)) then w
      else with_drag true w
  | MouseMove finalValue =>
      if dragActive w then contrastDrag_onUpdate finalValue w else w
  | MouseUp => with_drag false w
  | PresetClick h s v c sat => applyPreset h s v c sat w
  end.

Definition run (events : list Event) (w : World) : World :=
  fold_left (fun w e => handle e w) events w.

End UIController.

(* ------------------------------------------------------------------ *)
(** * ColorMath.js *)

Module ColorMath.
Import JS.

(** [Math.trunc]: towards zero. *)
Definition Math_trunc (a : R) : Z :=
  if Rle_dec 0 a then Zfloor a else Zceil a.

(** The remainder operator [a % b] on numbers: the result has the sign of
    the dividend. *)
Definition rem (a b : R) : R := a - b * IZR (Math_trunc (a / b)).

(** One channel of hsvToHex: the callback of [[r, g, b].map]. *)
Definition channel (m val : R) : string :=
  JSString.padStart 2 "0" (JSString.toString16 (Math_round ((val + m) * 255))).

(** The [r, g, b] triple chosen by the sector of the hue. *)
Definition sector (h c x : R) : R * R * R :=
  if h <? 60 then (c, x, 0)
  else if h <? 120 then (x, c, 0)
  else if h <? 180 then (0, c, x)
  else if h <? 240 then (0, x, c)
  else if h <? 300 then (x, 0, c)
  else (c, 0, x).

Definition hsvToHex (h s v : R) : string :=
  let s := s / 100 in
  let v := v / 100 in
  let c := v * s in
  let x := c * (1 - Math_abs (rem (h / 60) 2 - 1)) in
  let m := v - c in
  let '(r, g, b) := sector h c x in
  ("#" ++ JSString.toUpperCase
            (String.concat EmptyString (map (channel m) [r; g; b])))%string.

(** [None] is a TypeError escaping getDesaturatedColor. *)
Definition getDesaturatedColor (h s v saturationPercent : R)
    : option string :=
  if saturationPercent >=? CONFIG.SATURATION_MAX then Some (hsvToHex h s v)
  else
    let x := s / 100 in
    let y := v / 100 in
    let n := SuperellipseMath.findExponent x y in
    let mainCurve := SuperellipseMath.generateCurvePoints n in
    let? selectedPoint := SuperellipseMath.findClosestPoint x y mainCurve in
    let arcLength := SuperellipseMath.loc_normalizedArcLength selectedPoint in
    let desaturatedCurve :=
      SuperellipseMath.generateDesaturatedCurve n saturationPercent in
    let? desaturatedPoint :=
      SuperellipseMath.findPointAtArcLength arcLength desaturatedCurve in
    let newS := SuperellipseMath.loc_x desaturatedPoint * 100 in
    let newV := SuperellipseMath.loc_y desaturatedPoint * 100 in
    Some (hsvToHex h newS newV).

(** The object rgbToHsv returns; the three fields are rounded. *)
Record HSV := mkHSV { h : Z; s : Z; v : Z }.

Definition rgbToHsv (r g b : R) : HSV :=
  let r := r / 255 in
  let g := g / 255 in
  let b := b / 255 in
  let max := Math_max (Math_max r g) b in
  let min := Math_min (Math_min r g) b in
  let diff := max - min in
  let h := 0 in
  let h :=
    if neqb diff 0 then
      if eqb max r then rem ((g - b) / diff) 6
      else if eqb max g then (b - r) / diff + 2
      else (r - g) / diff + 4
    else h in
  let h := Math_round (h * 60) in
  let h := if (h <? 0)%Z then (h + 360)%Z else h in
  mkHSV h (Math_round (if eqb max 0 then 0 else diff / max * 100))
    (Math_round (max * 100)).

End ColorMath.

(* ------------------------------------------------------------------ *)
(** * The distribution rules as the specification words them *)

Module Spec.

(** Smart spacing: [pointsBefore = round(anchorArcLength * (count-1))],
    [pointsAfter = (count-1) - pointsBefore], and one point is moved from
    the larger side when the other side is empty and the larger side has
    more than one point. *)
Definition smartSplit (count : Z) (anchorArcLength : R) : Z * Z :=
  let pointsBefore := JS.Math_round (anchorArcLength * IZR (count - 1)) in
  let pointsAfter := ((count - 1) - pointsBefore)%Z in
  if Z.eq_dec pointsBefore 0 then
    if Z_lt_dec 1 pointsAfter then ((pointsBefore + 1)%Z, (pointsAfter - 1)%Z)
    else (pointsBefore, pointsAfter)
  else if Z.eq_dec pointsAfter 0 then
    if Z_lt_dec 1 pointsBefore then ((pointsBefore - 1)%Z, (pointsAfter + 1)%Z)
    else (pointsBefore, pointsAfter)
  else (pointsBefore, pointsAfter).

(** The floor and ceiling halves of [count - 1]. *)
Definition floorHalf (count : Z) : Z := ((count - 1) / 2)%Z.
Definition ceilHalf (count : Z) : Z := (count / 2)%Z.

(** The reference formula of contrast mode. *)
Definition contrastArcLength (i side : Z) (anchorArcLength contrast : R)
    (isBefore : bool) : R :=
  let normalizedDistance :=
    (if isBefore then IZR side - IZR i else IZR i + 1) / (IZR side + 1) in
  let poweredDistance :=
    if Rlt_dec 1 contrast then
      let t := Rmin ((contrast - 1) / 4) 1 in
      (1 - t) * normalizedDistance
      + t * JS.Math_pow normalizedDistance (1 / (15 / 10))
    else
      let t := Rmin ((1 - contrast) / (9 / 10)) 1 in
      (1 - t) * normalizedDistance
      + t * JS.Math_pow normalizedDistance (15 / 10) in
  if isBefore then anchorArcLength - anchorArcLength * poweredDistance
  else anchorArcLength + (1 - anchorArcLength) * poweredDistance.

(** [a] occurs at exactly one position of [l]. *)
Definition occursOnce (a : R) (l : list R) : Prop :=
  exists l1 l2, l = l1 ++ a :: l2 /\ ~ In a l1 /\ ~ In a l2.

End Spec.

(* ------------------------------------------------------------------ *)
(** * Invariants used in the proofs *)

Module Invariants.

(** The state of the sampling loop after [k] iterations: no sample has
    been dropped, the stored arc lengths start at 0, never decrease and
    end at [totalArcLength]. *)
Record SamplerInv (k : nat) (st : SuperellipseMath.SamplerState) : Prop :=
  mkSamplerInv {
    inv_length : length (fst st) = k;
    inv_total : 0 <= snd st;
    inv_empty : k = 0%nat -> snd st = 0;
    inv_sorted :
      StronglySorted Rle (map SuperellipseMath.raw_arcLength (fst st));
    inv_bounded :
      Forall (fun p => 0 <= SuperellipseMath.raw_arcLength p <= snd st)
        (fst st);
    inv_first :
      forall p, hd_error (fst st) = Some p ->
                SuperellipseMath.raw_arcLength p = 0;
    inv_last :
      forall d, (0 < k)%nat ->
                SuperellipseMath.raw_arcLength (last (fst st) d) = snd st
  }.

(** A curve as the lookups expect it. *)
Record CurveOk (len : nat) (curve : list SuperellipseMath.CurvePoint)
  : Prop :=
  mkCurveOk {
    ok_length : length curve = len;
    ok_sorted :
      StronglySorted Rle (map SuperellipseMath.normalizedArcLength curve);
    ok_range :
      Forall (fun p => 0 <= SuperellipseMath.normalizedArcLength p <= 1)
        curve;
    ok_first :
      forall p, hd_error curve = Some p ->
                SuperellipseMath.normalizedArcLength p = 0;
    ok_last :
      forall d, SuperellipseMath.normalizedArcLength (last curve d) = 1
  }.

(** A lookup result whose arc length lies in [0, 1]. *)
Definition inUnit (l : SuperellipseMath.Located) : Prop :=
  0 <= SuperellipseMath.loc_normalizedArcLength l <= 1.

(** The coarse pass of findClosestPoint keeps a sample of the curve and a
    valid index. *)
Definition CoarseOk (curve : list SuperellipseMath.CurvePoint)
    (st : SuperellipseMath.CoarseState) : Prop :=
  exists p, fst (fst st) = Some p /\ In p curve
            /\ (snd st < length curve)%nat.

(** The refinement keeps a result whose arc length is in [0, 1]. *)
Definition RefineOk (st : SuperellipseMath.RefineState) : Prop :=
  exists found, fst st = Some found /\ inUnit found.

(** The first point stored by the sampling loop is the sample at
    [t = 0]. *)
Definition FirstSample (curveX curveY : R -> R)
    (st : SuperellipseMath.SamplerState) : Prop :=
  forall p, hd_error (fst st) = Some p ->
    SuperellipseMath.raw_x p = JS.Math_max 0 (JS.Math_min 1 (curveX 0))
    /\ SuperellipseMath.raw_y p = JS.Math_max 0 (JS.Math_min 1 (curveY 0)).

(** The arc length of the anchor: the [selectedArcLength] that
    generatePalette derives from the saturation and value of a request. *)
Definition anchorArcLength (params : ColorGenerator.Params) : option R :=
  let normalizedX := ColorGenerator.saturation params / 100 in
  let normalizedY := ColorGenerator.value params / 100 in
  option_map SuperellipseMath.loc_normalizedArcLength
    (SuperellipseMath.findClosestPoint normalizedX normalizedY
       (SuperellipseMath.generateCurvePoints
          (SuperellipseMath.findExponent normalizedX normalizedY))).

(** The arc lengths of the swatches of a palette, in output order. *)
Definition arcLengths (palette : ColorGenerator.Palette) : list R :=
  map ColorGenerator.arcLength (ColorGenerator.colors palette).

(** The same request with another contrast. *)
Definition withContrast (c : R) (params : ColorGenerator.Params)
    : ColorGenerator.Params :=
  ColorGenerator.mkParams (ColorGenerator.hue params)
    (ColorGenerator.saturation params) (ColorGenerator.value params)
    (ColorGenerator.colorCount params) c
    (ColorGenerator.smartSpacing params)
    (ColorGenerator.includeBlackWhite params)
    (ColorGenerator.saturationControl params).

(** The same request with another smart-spacing flag. *)
Definition withSmartSpacing (b : bool) (params : ColorGenerator.Params)
    : ColorGenerator.Params :=
  ColorGenerator.mkParams (ColorGenerator.hue params)
    (ColorGenerator.saturation params) (ColorGenerator.value params)
    (ColorGenerator.colorCount params) (ColorGenerator.contrast params) b
    (ColorGenerator.includeBlackWhite params)
    (ColorGenerator.saturationControl params).

(** A colour-space collaborator for statements in which the hex strings
    play no part. *)
Definition plainHex (h s v : R) : string := EmptyString.

(** Between two user actions: smart spacing on implies contrast 1.0. *)
Definition AtRest (w : UIController.World) : Prop :=
  AppState.smartSpacing (AppState.features (UIController.state w)) = true ->
  AppState.contrast (UIController.state w) = 1.

(** The linear per-point formula. *)
Definition linearArcLength (i total : Z) (arc : R) (isBefore : bool) : R :=
  if isBefore then arc / (IZR total + 1) * (IZR i + 1)
  else arc + (1 - arc) / (IZR total + 1) * (IZR i + 1).

(** The coordinates the sampling loop stores for index [i]: [t], the
    clamped [x] and [y], and the two pixel coordinates. *)
Definition sampleCoordinates (curveX curveY : R -> R) (i : nat)
    : R * R * R * R * R :=
  let t := SuperellipseMath.sampleParameter i in
  let clampedX := JS.Math_max 0 (JS.Math_min 1 (curveX t)) in
  let clampedY := JS.Math_max 0 (JS.Math_min 1 (curveY t)) in
  (t, clampedX, clampedY, clampedX * CONFIG.PALETTE_SIZE,
   (1 - clampedY) * CONFIG.PALETTE_SIZE).

Definition rawCoordinates (p : SuperellipseMath.RawPoint)
    : R * R * R * R * R :=
  (SuperellipseMath.raw_t p, SuperellipseMath.raw_x p,
   SuperellipseMath.raw_y p, SuperellipseMath.raw_pixelX p,
   SuperellipseMath.raw_pixelY p).

Definition coordinates (p : SuperellipseMath.CurvePoint)
    : R * R * R * R * R :=
  (SuperellipseMath.t p, SuperellipseMath.x p, SuperellipseMath.y p,
   SuperellipseMath.pixelX p, SuperellipseMath.pixelY p).

(** The squared distance from a lookup result to a target, as
    findClosestPoint computes it. *)
Definition distSq (targetX targetY : R) (l : SuperellipseMath.Located) : R :=
  (SuperellipseMath.loc_x l - targetX) * (SuperellipseMath.loc_x l - targetX)
  + (SuperellipseMath.loc_y l - targetY)
    * (SuperellipseMath.loc_y l - targetY).

(** The warp that _calculateArcLength applies to the normalized distance
    of a point: the blend of contrast mode when [useContrast] holds, the
    identity otherwise. *)
Definition warp (useContrast : bool) (contrast normalizedDistance : R) : R :=
  if useContrast then
    if contrast >? ColorGenerator.contrastHighThreshold then
      normalizedDistance
      * (1 - JS.Math_min
               ((contrast - ColorGenerator.contrastHighThreshold)
                / ColorGenerator.maxContrastRange) 1)
      + JS.Math_pow normalizedDistance
          (1 / ColorGenerator.contrastHighExponent)
        * JS.Math_min
            ((contrast - ColorGenerator.contrastHighThreshold)
             / ColorGenerator.maxContrastRange) 1
    else if contrast <? ColorGenerator.contrastLowThreshold then
      normalizedDistance
      * (1 - JS.Math_min
               ((ColorGenerator.contrastLowThreshold - contrast)
                / ColorGenerator.minContrastRange) 1)
      + JS.Math_pow normalizedDistance ColorGenerator.contrastLowExponent
        * JS.Math_min
            ((ColorGenerator.contrastLowThreshold - contrast)
             / ColorGenerator.minContrastRange) 1
    else normalizedDistance
  else normalizedDistance.

End Invariants.

(* ================================================================== *)
(** * Properties *)

(** ** Comparisons *)

Lemma leb_true_iff (a b : R) : (a <=? b) = true <-> a <= b.
Proof. unfold JS.leb; destruct (Rle_dec a b); split; intros; auto; easy. Qed.

Lemma leb_false_iff (a b : R) : (a <=? b) = false <-> b < a.
Proof.
  unfold JS.leb; destruct (Rle_dec a b); split; intros; try easy; lra.
Qed.

Lemma ltb_true_iff (a b : R) : (a <? b) = true <-> a < b.
Proof. unfold JS.ltb; destruct (Rlt_dec a b); split; intros; auto; easy. Qed.

Lemma ltb_false_iff (a b : R) : (a <? b) = false <-> b <= a.
Proof.
  unfold JS.ltb; destruct (Rlt_dec a b); split; intros; try easy; lra.
Qed.

Lemma geb_true_iff (a b : R) : (a >=? b) = true <-> b <= a.
Proof. apply leb_true_iff. Qed.

Lemma geb_false_iff (a b : R) : (a >=? b) = false <-> a < b.
Proof. apply leb_false_iff. Qed.

Lemma gtb_true_iff (a b : R) : (a >? b) = true <-> b < a.
Proof. apply ltb_true_iff. Qed.

Lemma gtb_false_iff (a b : R) : (a >? b) = false <-> a <= b.
Proof. apply ltb_false_iff. Qed.

Lemma eqb_true_iff (a b : R) : JS.eqb a b = true <-> a = b.
Proof. unfold JS.eqb; destruct (Req_dec_T a b); split; intros; auto; easy. Qed.

Lemma eqb_false_iff (a b : R) : JS.eqb a b = false <-> a <> b.
Proof. unfold JS.eqb; destruct (Req_dec_T a b); split; intros; auto; easy. Qed.

Lemma useContrastMode_unit : ColorGenerator.useContrastMode 1 = false.
Proof.
  unfold ColorGenerator.useContrastMode, JS.neqb.
  now rewrite (proj2 (eqb_true_iff 1 1) eq_refl).
Qed.

Lemma useContrastMode_nonunit (c : R) :
  c <> 1 -> ColorGenerator.useContrastMode c = true.
Proof.
  intro H. unfold ColorGenerator.useContrastMode, JS.neqb.
  now rewrite (proj2 (eqb_false_iff c 1) H).
Qed.

(** Decides the comparisons in the goal from the hypotheses, by [lra]. *)
Ltac decide_cmp :=
  repeat match goal with
  | |- context [JS.leb ?a ?b] =>
      first [ rewrite (proj2 (leb_true_iff a b)) by lra
            | rewrite (proj2 (leb_false_iff a b)) by lra ]
  | |- context [JS.ltb ?a ?b] =>
      first [ rewrite (proj2 (ltb_true_iff a b)) by lra
            | rewrite (proj2 (ltb_false_iff a b)) by lra ]
  | |- context [JS.geb ?a ?b] =>
      first [ rewrite (proj2 (geb_true_iff a b)) by lra
            | rewrite (proj2 (geb_false_iff a b)) by lra ]
  | |- context [JS.gtb ?a ?b] =>
      first [ rewrite (proj2 (gtb_true_iff a b)) by lra
            | rewrite (proj2 (gtb_false_iff a b)) by lra ]
  | |- context [JS.eqb ?a ?b] =>
      first [ rewrite (proj2 (eqb_true_iff a b)) by lra
            | rewrite (proj2 (eqb_false_iff a b)) by lra ]
  end.

(** ** findPointAtArcLength at the boundaries *)

Lemma lastSample_last (first : SuperellipseMath.CurvePoint)
    (rest : list SuperellipseMath.CurvePoint) :
  SuperellipseMath.lastSample (first :: rest)
  = Some (last (first :: rest) first).
Proof.
  unfold SuperellipseMath.lastSample.
  replace (length (first :: rest) - 1)%nat with (length rest) by (simpl; lia).
  revert first. induction rest as [|b rest IH]; intro first.
  - reflexivity.
  - change (nth_error (first :: b :: rest) (length (b :: rest)))
      with (nth_error (b :: rest) (length rest)).
    rewrite IH. f_equal. simpl. destruct rest; [reflexivity|].
    clear IH. revert c. generalize first, b.
    induction rest as [|d rest IH]; intros; [reflexivity|].
    simpl in *. apply IH.
Qed.

(** C9.  On a non-empty curve, findPointAtArcLength returns the first
    sample for every query [<= 0] and the last sample for every query
    [>= 1]; in particular at the queries 0 and 1. *)
Theorem findPointAtArcLength_boundaries (q : R)
    (first : SuperellipseMath.CurvePoint)
    (rest : list SuperellipseMath.CurvePoint) :
  (q <= 0 ->
   SuperellipseMath.findPointAtArcLength q (first :: rest)
   = Some (SuperellipseMath.Sample first))
  /\ (1 <= q ->
      SuperellipseMath.findPointAtArcLength q (first :: rest)
      = Some (SuperellipseMath.Sample (last (first :: rest) first)))
  /\ SuperellipseMath.findPointAtArcLength 0 (first :: rest)
     = Some (SuperellipseMath.Sample first)
  /\ SuperellipseMath.findPointAtArcLength 1 (first :: rest)
     = Some (SuperellipseMath.Sample (last (first :: rest) first)).
Proof.
  assert (Hlo : forall q', q' <= 0 ->
            SuperellipseMath.findPointAtArcLength q' (first :: rest)
            = Some (SuperellipseMath.Sample first)).
  { intros q' Hq. unfold SuperellipseMath.findPointAtArcLength.
    decide_cmp. reflexivity. }
  assert (Hhi : forall q', 1 <= q' ->
            SuperellipseMath.findPointAtArcLength q' (first :: rest)
            = Some (SuperellipseMath.Sample (last (first :: rest) first))).
  { intros q' Hq. unfold SuperellipseMath.findPointAtArcLength.
    decide_cmp. now rewrite lastSample_last. }
  repeat split; auto; [apply Hlo | apply Hhi]; lra.
Qed.

(** ** The split of the points around the anchor *)

Lemma Zfloor_half (m : Z) : Zfloor (IZR m / 2) = (m / 2)%Z.
Proof.
  apply Zfloor_eq.
  pose proof (Z.div_mod m 2 ltac:(lia)) as Hdm.
  pose proof (Z.mod_pos_bound m 2 ltac:(lia)) as Hb.
  assert (Hm : IZR m = 2 * IZR (m / 2) + IZR (m mod 2)).
  { rewrite Hdm at 1. rewrite plus_IZR, mult_IZR. reflexivity. }
  assert (H0 : 0 <= IZR (m mod 2)) by (apply IZR_le; lia).
  assert (H1 : IZR (m mod 2) <= 1) by (apply IZR_le; lia).
  lra.
Qed.

Lemma Zceil_half (m : Z) : Zceil (IZR m / 2) = ((m + 1) / 2)%Z.
Proof.
  apply Zceil_eq.
  pose proof (Z.div_mod (m + 1) 2 ltac:(lia)) as Hdm.
  pose proof (Z.mod_pos_bound (m + 1) 2 ltac:(lia)) as Hb.
  assert (Hm : IZR m + 1 = 2 * IZR ((m + 1) / 2) + IZR ((m + 1) mod 2)).
  { rewrite <- (plus_IZR m 1). rewrite Hdm at 1.
    rewrite plus_IZR, mult_IZR. reflexivity. }
  assert (H0 : 0 <= IZR ((m + 1) mod 2)) by (apply IZR_le; lia).
  assert (H1 : IZR ((m + 1) mod 2) <= 1) by (apply IZR_le; lia).
  lra.
Qed.

Lemma Math_round_bounds (a : R) (lo hi : Z) :
  IZR lo <= a <= IZR hi -> (lo <= JS.Math_round a <= hi)%Z.
Proof.
  intros [Hlo Hhi]. unfold JS.Math_round.
  pose proof (Zfloor_bound (a + / 2)) as [Hf1 Hf2].
  split.
  - apply Zfloor_lub. lra.
  - apply Z.lt_succ_r. apply lt_IZR. rewrite succ_IZR. lra.
Qed.

Lemma smart_round_range (count : Z) (arc : R) :
  (1 <= count)%Z -> 0 <= arc <= 1 ->
  (0 <= JS.Math_round (arc * IZR (count - 1)) <= count - 1)%Z.
Proof.
  intros Hc Harc. apply Math_round_bounds.
  assert (0 <= IZR (count - 1)) by (apply IZR_le; lia).
  split; nra.
Qed.

(** C5.  With smart spacing on and contrast 1.0 the split computed by
    generatePalette is the one the specification describes: the rounded
    proportional split, corrected by moving one point when one side is
    empty and the other has more than one.  Both sides always add up to
    [count - 1], and for an anchor arc length in [0, 1] neither side is
    empty as soon as there are at least two points to distribute. *)
Theorem smart_spacing_split (count : Z) (anchorArcLength contrast : R) :
  contrast = 1 ->
  let split :=
    ColorGenerator.splitPoints true (ColorGenerator.useContrastMode contrast)
      count anchorArcLength in
  split = Spec.smartSplit count anchorArcLength
  /\ (fst split + snd split = count - 1)%Z
  /\ (0 <= anchorArcLength <= 1 -> (2 <= count - 1)%Z ->
      (1 <= fst split)%Z /\ (1 <= snd split)%Z)
  /\ ((JS.Math_round (anchorArcLength * IZR (count - 1)) <> 0
       \/ count - 1 - JS.Math_round (anchorArcLength * IZR (count - 1)) <= 1)
      /\ (count - 1 - JS.Math_round (anchorArcLength * IZR (count - 1)) <> 0
          \/ JS.Math_round (anchorArcLength * IZR (count - 1)) <= 1) ->
      split = (JS.Math_round (anchorArcLength * IZR (count - 1)),
               count - 1
               - JS.Math_round (anchorArcLength * IZR (count - 1))))%Z.
Proof.
  intros Hc split. subst contrast. subst split.
  rewrite useContrastMode_unit.
  unfold ColorGenerator.splitPoints, Spec.smartSplit. cbn [andb negb].
  set (pb := JS.Math_round (anchorArcLength * IZR (count - 1))).
  assert (Hrange : 0 <= anchorArcLength <= 1 -> (2 <= count - 1)%Z ->
                   (0 <= pb <= count - 1)%Z).
  { intros Ha Hn. apply smart_round_range; [lia | exact Ha]. }
  destruct (Z.eqb_spec pb 0) as [Hpb | Hpb];
    destruct (Z.ltb_spec 1 (count - 1 - pb)) as [Hpa | Hpa];
    destruct (Z.eqb_spec (count - 1 - pb) 0) as [Hz | Hz];
    destruct (Z.ltb_spec 1 pb) as [Hlt | Hlt];
    destruct (Z.eq_dec pb 0); destruct (Z_lt_dec 1 (count - 1 - pb));
    destruct (Z.eq_dec (count - 1 - pb) 0); destruct (Z_lt_dec 1 pb);
    try lia; cbn [andb fst snd];
    (split; [try reflexivity; f_equal; lia |]);
    (split; [lia |]);
    (split; [intros Ha Hn; specialize (Hrange Ha Hn); lia |]);
    intros [[H1 | H1] [H2 | H2]]; try lia; reflexivity.
Qed.

Lemma rem_two_even (count : Z) :
  (Z.rem count 2 =? 0)%Z = Z.even count.
Proof.
  destruct (Z.even count) eqn:He.
  - apply Z.eqb_eq. apply Z.even_spec in He. destruct He as [k ->].
    rewrite Z.mul_comm. apply Z.rem_mul. lia.
  - apply Z.eqb_neq. intro Hr.
    assert (Hev : Z.even count = true); [|congruence].
    apply Z.even_spec. exists (Z.quot count 2).
    pose proof (Z.quot_rem' count 2). lia.
Qed.

(** C6.  With smart spacing off, an even count splits the [count - 1]
    remaining points into the floor and ceiling halves, the larger half
    going to the side of the anchor with the larger arc-length span
    (before the anchor when the spans are equal); an odd count is split
    into two equal halves. *)
Theorem even_split_without_smart_spacing (count : Z)
    (anchorArcLength : R) (useContrastMode : bool) :
  let split :=
    ColorGenerator.splitPoints false useContrastMode count anchorArcLength in
  (fst split + snd split = count - 1)%Z
  /\ (Z.even count = true ->
      (1 - anchorArcLength < anchorArcLength ->
       split = (Spec.ceilHalf count, Spec.floorHalf count))
      /\ (anchorArcLength < 1 - anchorArcLength ->
          split = (Spec.floorHalf count, Spec.ceilHalf count))
      /\ (anchorArcLength = 1 - anchorArcLength ->
          split = (Spec.ceilHalf count, Spec.floorHalf count))
      /\ Spec.ceilHalf count = (Spec.floorHalf count + 1)%Z)
  /\ (Z.odd count = true ->
      fst split = snd split /\ fst split = Spec.floorHalf count).
Proof.
  intro split. subst split.
  unfold ColorGenerator.splitPoints. cbn [andb].
  rewrite rem_two_even.
  unfold JS.Math_floor, JS.Math_ceil. rewrite Zfloor_half, Zceil_half.
  unfold Spec.ceilHalf, Spec.floorHalf.
  replace (count - 1 + 1)%Z with count by lia.
  destruct (Z.even count) eqn:He.
  - assert (Hodd : Z.odd count = false)
      by (rewrite <- Z.negb_even, He; reflexivity).
    apply Z.even_spec in He. destruct He as [k Hk].
    assert (H1 : (count / 2 = k)%Z).
    { subst count. rewrite Z.mul_comm. apply Z.div_mul. lia. }
    assert (H2 : ((count - 1) / 2 = k - 1)%Z).
    { subst count. replace (2 * k - 1)%Z with (1 + (k - 1) * 2)%Z by lia.
      rewrite Z.div_add by lia. reflexivity. }
    rewrite H1, H2.
    split; [|split].
    + destruct (anchorArcLength >=? 1 - anchorArcLength); cbn [fst snd]; lia.
    + intros _. repeat split; try lia; intro Hcmp; decide_cmp; reflexivity.
    + rewrite Hodd. discriminate.
  - split; [|split].
    + cbn [fst snd].
      assert (Hodd : Z.odd count = true)
        by (rewrite <- Z.negb_even, He; reflexivity).
      apply Z.odd_spec in Hodd. destruct Hodd as [k Hk]. subst count.
      replace (2 * k + 1 - 1)%Z with (k * 2)%Z by lia.
      rewrite Z.div_mul by lia. lia.
    + discriminate.
    + intros _. cbn [fst snd]. split; reflexivity.
Qed.

(** ** The per-point formula of contrast mode *)

(** C7.  In contrast mode (contrast different from 1.0)
    _calculateArcLength returns, for every index, side size, anchor arc
    length and side, the value of the reference formula. *)
Theorem calculateArcLength_contrast_formula (i side : Z)
    (anchorArcLength contrast : R) (isBefore : bool) :
  contrast <> 1 ->
  ColorGenerator._calculateArcLength i side anchorArcLength contrast
    (ColorGenerator.useContrastMode contrast) isBefore
  = Spec.contrastArcLength i side anchorArcLength contrast isBefore.
Proof.
  intro Hc. rewrite (useContrastMode_nonunit _ Hc).
  unfold ColorGenerator._calculateArcLength, Spec.contrastArcLength.
  cbn [negb].
  unfold ColorGenerator.contrastHighThreshold,
    ColorGenerator.contrastLowThreshold, ColorGenerator.contrastHighExponent,
    ColorGenerator.contrastLowExponent, ColorGenerator.maxContrastRange,
    ColorGenerator.minContrastRange, JS.Math_min.
  destruct (Rlt_dec 1 contrast) as [Hhi | Hhi].
  - decide_cmp. destruct isBefore; ring.
  - assert (contrast < 1) by lra. decide_cmp. destruct isBefore; ring.
Qed.

(** ** The sampling loop of the two curve generators *)

Lemma StronglySorted_snoc (l : list R) (a : R) :
  StronglySorted Rle l -> Forall (fun b => b <= a) l ->
  StronglySorted Rle (l ++ [a]).
Proof.
  induction 1 as [|b l Hs IH Hb]; intro Hall; simpl.
  - constructor; constructor.
  - inversion Hall; subst. constructor; [apply IH; assumption|].
    apply Forall_app. split; [assumption|].
    constructor; [assumption|constructor].
Qed.

Lemma StronglySorted_map_monotone (f : R -> R) (l : list R) :
  (forall a b, a <= b -> f a <= f b) ->
  StronglySorted Rle l -> StronglySorted Rle (map f l).
Proof.
  intros Hf. induction 1 as [|b l Hs IH Hb]; simpl; constructor; auto.
  apply Forall_map. eapply Forall_impl; [|exact Hb]. intros; now apply Hf.
Qed.

Section Sampling.

Variables curveX curveY : R -> R.

Import Invariants.

Lemma minSegmentLength_pos : 0 < SuperellipseMath.minSegmentLength.
Proof.
  unfold SuperellipseMath.minSegmentLength.
  apply Rinv_0_lt_compat. apply pow_lt. lra.
Qed.

(** The body of the [try] block never throws on a state that satisfies
    the invariant, and re-establishes it. *)
Lemma sampleBody_inv (k : nat) (st : SuperellipseMath.SamplerState) :
  SamplerInv k st ->
  exists st',
    SuperellipseMath.sampleBody curveX curveY st k = Some st'
    /\ SamplerInv (S k) st'.
Proof.
  destruct st as [points total]. intros [Hlen Htot Hemp Hsort Hbnd Hfst Hlst].
  cbn [fst snd] in *.
  unfold SuperellipseMath.sampleBody.
  set (cx := JS.Math_max 0 (JS.Math_min 1 (curveX _))).
  set (cy := JS.Math_max 0 (JS.Math_min 1 (curveY _))).
  set (tt := SuperellipseMath.sampleParameter k).
  assert (Hgen : forall total', total <= total' ->
            (k = 0%nat -> total' = total) ->
            SamplerInv (S k)
              (points ++ [SuperellipseMath.mkRawPoint tt cx cy
                            (cx * CONFIG.PALETTE_SIZE)
                            ((1 - cy) * CONFIG.PALETTE_SIZE) total'],
               total')).
  { intros total' Hle Hzero. constructor; cbn [fst snd].
    - rewrite length_app. simpl. lia.
    - lra.
    - discriminate.
    - rewrite map_app. simpl. apply StronglySorted_snoc; [assumption|].
      apply Forall_map. eapply Forall_impl; [|exact Hbnd].
      cbn beta. intros; lra.
    - apply Forall_app. split.
      + eapply Forall_impl; [|exact Hbnd]. cbn beta. intros; lra.
      + constructor; [simpl; lra|constructor].
    - intros p Hp. destruct points as [|q points'].
      + simpl in Hp. injection Hp as <-. simpl.
        simpl in Hlen. specialize (Hemp (eq_sym Hlen)).
        specialize (Hzero (eq_sym Hlen)). lra.
      + simpl in Hp. apply Hfst. exact Hp.
    - intros d _. rewrite last_last. reflexivity. }
  destruct k as [|k'].
  - cbn [Nat.ltb Nat.leb]. eexists. split; [reflexivity|].
    apply Hgen; [lra | reflexivity].
  - change (0 <? S k')%nat with true. cbv iota.
    replace (S k' - 1)%nat with k' by lia.
    destruct (nth_error points k') as [prev|] eqn:Hprev.
    + eexists. split; [reflexivity|]. apply Hgen; [|discriminate].
      destruct (_ >? _) eqn:Hseg; [|lra].
      apply gtb_true_iff in Hseg. pose proof minSegmentLength_pos. lra.
    + apply nth_error_None in Hprev. lia.
Qed.

Lemma sampleStep_inv (k : nat) (st : SuperellipseMath.SamplerState) :
  SamplerInv k st ->
  SamplerInv (S k) (SuperellipseMath.sampleStep curveX curveY st k).
Proof.
  intro Hinv. unfold SuperellipseMath.sampleStep.
  destruct (sampleBody_inv k st Hinv) as [st' [-> Hst']]. exact Hst'.
Qed.

Lemma sampleFold_inv (n k : nat) (st : SuperellipseMath.SamplerState) :
  SamplerInv k st ->
  SamplerInv (k + n)
    (fold_left (SuperellipseMath.sampleStep curveX curveY) (seq k n) st).
Proof.
  revert k st. induction n as [|n IH]; intros k st Hinv; simpl.
  - now rewrite Nat.add_0_r.
  - replace (k + S n)%nat with (S k + n)%nat by lia.
    apply IH. now apply sampleStep_inv.
Qed.

Lemma SamplerInv_initial : SamplerInv 0 ([], 0).
Proof.
  constructor; cbn [fst snd].
  - reflexivity.
  - lra.
  - reflexivity.
  - constructor.
  - constructor.
  - discriminate.
  - intros d H. lia.
Qed.

Lemma sampleLoop_inv :
  SamplerInv (CONFIG.CURVE_RESOLUTION + 1)
    (SuperellipseMath.sampleLoop curveX curveY).
Proof.
  unfold SuperellipseMath.sampleLoop.
  apply (sampleFold_inv (CONFIG.CURVE_RESOLUTION + 1) 0 _ SamplerInv_initial).
Qed.

Lemma sampleParameter_zero : SuperellipseMath.sampleParameter 0 = 0.
Proof.
  unfold SuperellipseMath.sampleParameter. change (INR 0) with 0.
  unfold Rdiv. ring.
Qed.

Lemma sampleStep_shape (k : nat) (st : SuperellipseMath.SamplerState) :
  SuperellipseMath.sampleStep curveX curveY st k = st
  \/ exists arc total',
       SuperellipseMath.sampleStep curveX curveY st k
       = (fst st
          ++ [SuperellipseMath.mkRawPoint
                (SuperellipseMath.sampleParameter k)
                (JS.Math_max 0 (JS.Math_min 1
                   (curveX (SuperellipseMath.sampleParameter k))))
                (JS.Math_max 0 (JS.Math_min 1
                   (curveY (SuperellipseMath.sampleParameter k))))
                (JS.Math_max 0 (JS.Math_min 1
                   (curveX (SuperellipseMath.sampleParameter k)))
                 * CONFIG.PALETTE_SIZE)
                ((1 - JS.Math_max 0 (JS.Math_min 1
                        (curveY (SuperellipseMath.sampleParameter k))))
                 * CONFIG.PALETTE_SIZE)
                arc],
          total').
Proof.
  destruct st as [points total].
  unfold SuperellipseMath.sampleStep, SuperellipseMath.sampleBody.
  destruct (0 <? k)%nat.
  - destruct (nth_error points (k - 1)); [|left; reflexivity].
    right. eexists _, _. reflexivity.
  - right. eexists _, _. reflexivity.
Qed.

Lemma sampleStep_first (k : nat) (st : SuperellipseMath.SamplerState) :
  SamplerInv k st -> FirstSample curveX curveY st ->
  FirstSample curveX curveY (SuperellipseMath.sampleStep curveX curveY st k).
Proof.
  intros Hinv Hfirst.
  destruct (sampleStep_shape k st) as [-> | [arc [total' ->]]];
    [exact Hfirst|].
  intros p Hp. cbn [fst] in Hp.
  destruct st as [points total]. cbn [fst] in *.
  destruct points as [|q rest].
  - destruct Hinv as [Hlen _ _ _ _ _ _]. cbn [length] in Hlen. subst k.
    cbn [app hd_error] in Hp. injection Hp as <-.
    cbn [SuperellipseMath.raw_x SuperellipseMath.raw_y].
    rewrite sampleParameter_zero. split; reflexivity.
  - apply Hfirst. exact Hp.
Qed.

Lemma sampleFold_first (n k : nat) (st : SuperellipseMath.SamplerState) :
  SamplerInv k st -> FirstSample curveX curveY st ->
  FirstSample curveX curveY
    (fold_left (SuperellipseMath.sampleStep curveX curveY) (seq k n) st).
Proof.
  revert k st. induction n as [|n IH]; intros k st Hinv Hfirst; simpl.
  - exact Hfirst.
  - apply IH; [now apply sampleStep_inv | now apply sampleStep_first].
Qed.

Lemma sampleLoop_first :
  FirstSample curveX curveY (SuperellipseMath.sampleLoop curveX curveY).
Proof.
  unfold SuperellipseMath.sampleLoop.
  apply sampleFold_first; [exact SamplerInv_initial|].
  intros p Hp. discriminate Hp.
Qed.

Lemma sampleStep_coordinates (k : nat) (st : SuperellipseMath.SamplerState) :
  SamplerInv k st ->
  map rawCoordinates (fst st)
  = map (sampleCoordinates curveX curveY) (seq 0 k) ->
  map rawCoordinates (fst (SuperellipseMath.sampleStep curveX curveY st k))
  = map (sampleCoordinates curveX curveY) (seq 0 (S k)).
Proof.
  intros Hinv Hmap.
  destruct (sampleBody_inv k st Hinv) as [st' [Hbody _]].
  destruct (sampleStep_shape k st) as [Hsame | [arc [total' Hstep]]].
  - unfold SuperellipseMath.sampleStep in Hsame. rewrite Hbody in Hsame.
    pose proof (sampleStep_inv k st Hinv) as Hnext.
    unfold SuperellipseMath.sampleStep in Hnext. rewrite Hbody in Hnext.
    rewrite Hsame in Hnext.
    pose proof (inv_length _ _ Hinv). pose proof (inv_length _ _ Hnext). lia.
  - rewrite Hstep. cbn [fst]. rewrite map_app, Hmap, seq_S, map_app.
    reflexivity.
Qed.

Lemma sampleFold_coordinates (n k : nat) (st : SuperellipseMath.SamplerState) :
  SamplerInv k st ->
  map rawCoordinates (fst st)
  = map (sampleCoordinates curveX curveY) (seq 0 k) ->
  map rawCoordinates
    (fst (fold_left (SuperellipseMath.sampleStep curveX curveY) (seq k n) st))
  = map (sampleCoordinates curveX curveY) (seq 0 (k + n)).
Proof.
  revert k st. induction n as [|n IH]; intros k st Hinv Hmap; simpl.
  - now rewrite Nat.add_0_r.
  - replace (k + S n)%nat with (S k + n)%nat by lia.
    apply IH; [now apply sampleStep_inv | now apply sampleStep_coordinates].
Qed.

Lemma sampleLoop_coordinates :
  map rawCoordinates (fst (SuperellipseMath.sampleLoop curveX curveY))
  = map (sampleCoordinates curveX curveY)
      (seq 0 (CONFIG.CURVE_RESOLUTION + 1)).
Proof.
  unfold SuperellipseMath.sampleLoop.
  apply (sampleFold_coordinates (CONFIG.CURVE_RESOLUTION + 1) 0 _
           SamplerInv_initial).
  reflexivity.
Qed.

End Sampling.

Opaque SuperellipseMath.sampleLoop.

(** ** The normalisation pass *)

Lemma normalizeByIndex_length (len start : nat)
    (points : list SuperellipseMath.RawPoint) :
  length (SuperellipseMath.normalizeByIndex len start points) = length points.
Proof.
  revert start. induction points as [|p rest IH]; intro start; simpl;
    [reflexivity | now rewrite IH].
Qed.

Lemma normalizeByIndex_app (len start : nat)
    (l1 l2 : list SuperellipseMath.RawPoint) :
  SuperellipseMath.normalizeByIndex len start (l1 ++ l2)
  = SuperellipseMath.normalizeByIndex len start l1
    ++ SuperellipseMath.normalizeByIndex len (start + length l1) l2.
Proof.
  revert start. induction l1 as [|p rest IH]; intro start; simpl.
  - now rewrite Nat.add_0_r.
  - rewrite IH. now replace (S start + length rest)%nat
      with (start + S (length rest))%nat by lia.
Qed.

Lemma normalizeByIndex_nal (len start : nat)
    (points : list SuperellipseMath.RawPoint) :
  map SuperellipseMath.normalizedArcLength
    (SuperellipseMath.normalizeByIndex len start points)
  = map (fun i => INR i / (INR len - 1)) (seq start (length points)).
Proof.
  revert start. induction points as [|p rest IH]; intro start; simpl;
    [reflexivity | now rewrite IH].
Qed.

Lemma StronglySorted_map_seq (g : nat -> R) (start n : nat) :
  (forall i j, (i <= j)%nat -> g i <= g j) ->
  StronglySorted Rle (map g (seq start n)).
Proof.
  intro Hg. revert start. induction n as [|n IH]; intro start; simpl.
  - constructor.
  - constructor; [apply IH|].
    apply Forall_map. apply Forall_forall. intros i Hi.
    apply in_seq in Hi. apply Hg. lia.
Qed.

Lemma index_ratio_monotone (len : nat) (i j : nat) :
  (2 <= len)%nat -> (i <= j)%nat ->
  INR i / (INR len - 1) <= INR j / (INR len - 1).
Proof.
  intros Hlen Hij.
  assert (Hpos : 0 < INR len - 1).
  { apply le_INR in Hlen. simpl in Hlen. lra. }
  apply le_INR in Hij. unfold Rdiv.
  apply Rmult_le_compat_r; [|assumption].
  left. now apply Rinv_0_lt_compat.
Qed.

Lemma normalize_ok (k : nat) (st : SuperellipseMath.SamplerState) :
  (2 <= k)%nat -> Invariants.SamplerInv k st ->
  Invariants.CurveOk k (SuperellipseMath.normalize st).
Proof.
  intros Hk. destruct st as [points total].
  intros [Hlen Htot Hemp Hsort Hbnd Hfst Hlst]. cbn [fst snd] in *.
  assert (Hne : points <> [])
    by (intro Hnil; rewrite Hnil in Hlen; simpl in Hlen; lia).
  assert (Hkp : 0 < INR k - 1).
  { apply le_INR in Hk. simpl in Hk. lra. }
  set (dflt := SuperellipseMath.mkRawPoint 0 0 0 0 0 0).
  pose proof (app_removelast_last dflt Hne) as Hsplit.
  specialize (Hlst dflt ltac:(lia)).
  set (lastp := last points dflt) in *.
  unfold SuperellipseMath.normalize.
  destruct (total >? 0) eqn:Hpos.
  - apply gtb_true_iff in Hpos.
    constructor.
    + now rewrite length_map.
    + rewrite map_map. cbn [SuperellipseMath.normalizedArcLength
                              SuperellipseMath.withNormalized].
      rewrite <- (map_map SuperellipseMath.raw_arcLength
                    (fun a => a / total)).
      apply StronglySorted_map_monotone; [|assumption].
      intros a b Hab. unfold Rdiv.
      apply Rmult_le_compat_r; [|assumption].
      left. now apply Rinv_0_lt_compat.
    + apply Forall_map. eapply Forall_impl; [|exact Hbnd].
      cbn beta. intros p [Hp0 Hp1]. cbn.
      split.
      * apply Rmult_le_pos; [assumption|]. left. now apply Rinv_0_lt_compat.
      * apply Rmult_le_reg_r with total; [assumption|].
        unfold Rdiv. rewrite Rmult_assoc, Rinv_l by lra. lra.
    + intros p Hp. destruct points as [|q rest]; [discriminate|].
      simpl in Hp. injection Hp as <-. cbn.
      rewrite (Hfst q eq_refl). unfold Rdiv. ring.
    + intro d. rewrite Hsplit, map_app. cbn [map]. rewrite last_last. cbn.
      fold lastp. rewrite Hlst. unfold Rdiv. apply Rinv_r. lra.
  - apply gtb_false_iff in Hpos.
    constructor.
    + now rewrite normalizeByIndex_length.
    + rewrite normalizeByIndex_nal. apply StronglySorted_map_seq.
      intros i j Hij. rewrite Hlen. now apply index_ratio_monotone.
    + assert (Hall : Forall (fun a => 0 <= a <= 1)
                (map SuperellipseMath.normalizedArcLength
                   (SuperellipseMath.normalizeByIndex (length points) 0
                      points))).
      { rewrite normalizeByIndex_nal. apply Forall_map.
        apply Forall_forall. intros i Hi. apply in_seq in Hi.
        rewrite Hlen. split.
        - apply Rmult_le_pos; [apply pos_INR|].
          left. now apply Rinv_0_lt_compat.
        - apply Rmult_le_reg_r with (INR k - 1); [assumption|].
          unfold Rdiv. rewrite Rmult_assoc, Rinv_l by lra.
          assert (Hi' : (i <= k - 1)%nat) by lia.
          apply le_INR in Hi'. rewrite minus_INR in Hi' by lia.
          simpl in Hi'. lra. }
      rewrite Forall_map in Hall. exact Hall.
    + intros p Hp. destruct points as [|q rest]; [discriminate|].
      simpl in Hp. injection Hp as <-. cbn. unfold Rdiv. ring.
    + intro d. rewrite Hsplit at 2. rewrite normalizeByIndex_app.
      cbn [SuperellipseMath.normalizeByIndex]. rewrite last_last. cbn.
      rewrite Hlen.
      assert (Hrl : (length (removelast points) = k - 1)%nat).
      { rewrite Hsplit, length_app in Hlen. simpl in Hlen. lia. }
      rewrite Hrl, minus_INR by lia. simpl. unfold Rdiv.
      apply Rinv_r. lra.
Qed.

(** ** The generated curves *)

Lemma sampled_curve_ok (curveX curveY : R -> R) :
  Invariants.CurveOk 401
    (SuperellipseMath.normalize (SuperellipseMath.sampleLoop curveX curveY)).
Proof.
  apply normalize_ok; [lia|].
  exact (sampleLoop_inv curveX curveY).
Qed.

Lemma generateCurvePoints_ok (n : R) :
  Invariants.CurveOk 401 (SuperellipseMath.generateCurvePoints n).
Proof. apply sampled_curve_ok. Qed.

Lemma generateDesaturatedCurve_ok (nMain saturationPercent : R) :
  Invariants.CurveOk 401
    (SuperellipseMath.generateDesaturatedCurve nMain saturationPercent).
Proof. apply sampled_curve_ok. Qed.

Lemma CurveOk_cons (len : nat) (curve : list SuperellipseMath.CurvePoint) :
  (0 < len)%nat -> Invariants.CurveOk len curve ->
  exists first rest, curve = first :: rest.
Proof.
  intros Hlen [Hl _ _ _ _]. destruct curve as [|first rest].
  - simpl in Hl. lia.
  - now exists first, rest.
Qed.

(** C4.  For every exponent in [0.1, 25] generateCurvePoints returns a
    non-empty sequence whose normalizedArcLength values never decrease,
    start at 0 and end at 1. *)
Theorem generateCurvePoints_normalized_profile (n : R) :
  1 / 10 <= n <= 25 ->
  exists first rest,
    SuperellipseMath.generateCurvePoints n = first :: rest
    /\ StronglySorted Rle
         (map SuperellipseMath.normalizedArcLength (first :: rest))
    /\ SuperellipseMath.normalizedArcLength first = 0
    /\ SuperellipseMath.normalizedArcLength (last (first :: rest) first) = 1.
Proof.
  intros _. pose proof (generateCurvePoints_ok n) as Hok.
  destruct (CurveOk_cons 401 _ ltac:(lia) Hok) as [first [rest Heq]].
  exists first, rest. rewrite Heq in *.
  destruct Hok as [_ Hsorted _ Hfirst Hlast].
  repeat split; auto.
Qed.

(** C10.  For every exponent and every saturation percentage both
    generators return exactly CURVE_RESOLUTION + 1 = 401 points: at each
    of the 401 iterations the body of the [try] block succeeds on the state
    the loop has reached, so the [catch] branch never runs, whatever the
    two coordinate functions are; the curves are therefore non-empty. *)
Theorem curve_generators_keep_every_sample
    (n nMain saturationPercent : R) :
  length (SuperellipseMath.generateCurvePoints n) = 401%nat
  /\ length (SuperellipseMath.generateDesaturatedCurve nMain saturationPercent)
     = 401%nat
  /\ SuperellipseMath.generateCurvePoints n <> []
  /\ SuperellipseMath.generateDesaturatedCurve nMain saturationPercent <> []
  /\ (forall (curveX curveY : R -> R) (i : nat),
        (i <= CONFIG.CURVE_RESOLUTION)%nat ->
        SuperellipseMath.sampleBody curveX curveY
          (fold_left (SuperellipseMath.sampleStep curveX curveY) (seq 0 i)
             ([], 0)) i
        <> None).
Proof.
  pose proof (generateCurvePoints_ok n) as [H1 _ _ _ _].
  pose proof (generateDesaturatedCurve_ok nMain saturationPercent)
    as [H2 _ _ _ _].
  split; [exact H1|]. split; [exact H2|].
  split; [|split].
  - intro Hnil. rewrite Hnil in H1. discriminate H1.
  - intro Hnil. rewrite Hnil in H2. discriminate H2.
  - intros curveX curveY i _.
    pose proof (sampleFold_inv curveX curveY i 0 _ SamplerInv_initial) as Hinv.
    destruct (sampleBody_inv curveX curveY _ _ Hinv) as [st' [Hst' _]].
    change (0 + i)%nat with i in Hst'. rewrite Hst'. discriminate.
Qed.

(** ** The lookups on a non-empty curve *)

Lemma findPointAtArcLength_some (q : R)
    (first : SuperellipseMath.CurvePoint)
    (rest : list SuperellipseMath.CurvePoint) :
  exists found,
    SuperellipseMath.findPointAtArcLength q (first :: rest) = Some found.
Proof.
  unfold SuperellipseMath.findPointAtArcLength.
  rewrite lastSample_last.
  destruct (q <=? 0); [eexists; reflexivity|].
  destruct (q >=? 1); [eexists; reflexivity|].
  destruct (SuperellipseMath.bracketScan q (first :: rest));
    eexists; reflexivity.
Qed.

Section ClosestPoint.

Variables targetX targetY : R.
Variable curve : list SuperellipseMath.CurvePoint.

Import Invariants.

Hypothesis curve_range :
  Forall (fun p => 0 <= SuperellipseMath.normalizedArcLength p <= 1) curve.

Lemma coarseStep_ok (st : SuperellipseMath.CoarseState)
    (entry : nat * SuperellipseMath.CurvePoint) :
  CoarseOk curve st -> In (snd entry) curve -> (fst entry < length curve)%nat ->
  CoarseOk curve (SuperellipseMath.coarseStep targetX targetY st entry).
Proof.
  destruct st as [[cp md] ci]. destruct entry as [index point].
  intros Hok Hin Hlt. unfold SuperellipseMath.coarseStep.
  destruct (JS.lt_inf _ md); [|exact Hok].
  exists point. cbn [fst snd] in *. auto.
Qed.

Lemma coarseFold_ok (entries : list (nat * SuperellipseMath.CurvePoint))
    (st : SuperellipseMath.CoarseState) :
  CoarseOk curve st ->
  Forall (fun e => In (snd e) curve /\ (fst e < length curve)%nat) entries ->
  CoarseOk curve
    (fold_left (SuperellipseMath.coarseStep targetX targetY) entries st).
Proof.
  revert st. induction entries as [|e entries IH]; intros st Hok Hall.
  - exact Hok.
  - inversion Hall as [|? ? [He1 He2] Hrest]; subst. simpl.
    apply IH; [|assumption]. now apply coarseStep_ok.
Qed.

Lemma coarsePass_ok :
  curve <> [] ->
  CoarseOk curve (SuperellipseMath.coarsePass targetX targetY curve).
Proof.
  intro Hne. unfold SuperellipseMath.coarsePass. apply coarseFold_ok.
  - destruct curve as [|first rest] eqn:Hcurve; [contradiction|].
    exists first. cbn. repeat split; auto. lia.
  - apply Forall_forall. intros [i p] Hin. cbn [fst snd]. split.
    + eapply in_combine_r; eauto.
    + apply in_combine_l in Hin. apply in_seq in Hin. lia.
Qed.

Lemma clamp_unit (a : R) : 0 <= JS.Math_max 0 (JS.Math_min 1 a) <= 1.
Proof.
  unfold JS.Math_max, JS.Math_min, Rmax, Rmin.
  destruct (Rle_dec 1 a); destruct (Rle_dec 0 _); lra.
Qed.

Lemma refineBody_ok (st : SuperellipseMath.RefineState) (i : nat) :
  RefineOk st -> (i + 1 < length curve)%nat ->
  exists st',
    SuperellipseMath.refineBody targetX targetY curve st i = Some st'
    /\ RefineOk st'.
Proof.
  destruct st as [bp bd]. intros Hok Hi.
  unfold SuperellipseMath.refineBody.
  destruct (nth_error curve i) as [p1|] eqn:H1;
    [|apply nth_error_None in H1; lia].
  destruct (nth_error curve (i + 1)) as [p2|] eqn:H2;
    [|apply nth_error_None in H2; lia].
  destruct (_ >? SuperellipseMath.minSegmentLength);
    [|eexists; split; [reflexivity|exact Hok]].
  destruct (JS.lt_inf _ bd); [|eexists; split; [reflexivity|exact Hok]].
  eexists. split; [reflexivity|].
  eexists. split; [reflexivity|].
  unfold inUnit. cbn [SuperellipseMath.loc_normalizedArcLength].
  match goal with |- context [JS.Math_max 0 (JS.Math_min 1 ?a)] =>
    pose proof (clamp_unit a) as Ht;
    set (tt := JS.Math_max 0 (JS.Math_min 1 a)) in * end.
  apply nth_error_In in H1, H2.
  rewrite Forall_forall in curve_range.
  pose proof (curve_range _ H1). pose proof (curve_range _ H2).
  split; nra.
Qed.

Lemma refineLoop_ok (indices : list nat) (st : SuperellipseMath.RefineState) :
  RefineOk st -> Forall (fun i => (i + 1 < length curve)%nat) indices ->
  exists st',
    SuperellipseMath.refineLoop targetX targetY curve indices st = Some st'
    /\ RefineOk st'.
Proof.
  revert st. induction indices as [|i indices IH]; intros st Hok Hall.
  - eexists; split; [reflexivity|exact Hok].
  - inversion Hall as [|? ? Hi Hrest]; subst. simpl.
    destruct (refineBody_ok st i Hok Hi) as [st1 [-> Hst1]].
    now apply IH.
Qed.

Lemma indexRange_bounds (startIdx endIdx : Z) (i : nat) :
  (0 <= startIdx)%Z -> In i (SuperellipseMath.indexRange startIdx endIdx) ->
  (startIdx <= Z.of_nat i < endIdx)%Z.
Proof.
  intros Hs Hin. unfold SuperellipseMath.indexRange in Hin.
  apply in_map_iff in Hin. destruct Hin as [k [<- Hk]].
  apply in_seq in Hk. lia.
Qed.

(** On a non-empty curve findClosestPoint returns a point, and its arc
    length lies in [0, 1]. *)
Lemma findClosestPoint_some :
  curve <> [] ->
  exists found,
    SuperellipseMath.findClosestPoint targetX targetY curve = Some found
    /\ inUnit found.
Proof.
  intro Hne. unfold SuperellipseMath.findClosestPoint.
  pose proof (coarsePass_ok Hne) as Hc.
  destruct (SuperellipseMath.coarsePass targetX targetY curve)
    as [[cp md] ci].
  destruct Hc as [p [Hp [Hin Hci]]]. cbn [fst snd] in *. subst cp.
  match goal with |- context [SuperellipseMath.refineLoop _ _ _ ?idx ?st] =>
    destruct (refineLoop_ok idx st) as [st' [Hst' Hok']] end.
  - exists (SuperellipseMath.Sample p). split; [reflexivity|].
    unfold inUnit. cbn. rewrite Forall_forall in curve_range. auto.
  - apply Forall_forall. intros i Hi.
    apply indexRange_bounds in Hi; [|lia]. lia.
  - rewrite Hst'. destruct Hok' as [found [Hf Hu]].
    exists found. split; assumption.
Qed.

End ClosestPoint.

(** ** The split adds up *)

Lemma splitPoints_sum (smartSpacing useContrastMode : bool) (count : Z)
    (arc : R) :
  (1 <= count)%Z -> 0 <= arc <= 1 ->
  let split :=
    ColorGenerator.splitPoints smartSpacing useContrastMode count arc in
  (0 <= fst split)%Z /\ (0 <= snd split)%Z
  /\ (fst split + snd split = count - 1)%Z.
Proof.
  intros Hc Harc split. subst split. unfold ColorGenerator.splitPoints.
  destruct (smartSpacing && negb useContrastMode).
  - pose proof (smart_round_range count arc Hc Harc) as Hr.
    set (pb := JS.Math_round (arc * IZR (count - 1))) in *.
    destruct (Z.eqb_spec pb 0); destruct (Z.ltb_spec 1 (count - 1 - pb));
      destruct (Z.eqb_spec (count - 1 - pb) 0); destruct (Z.ltb_spec 1 pb);
      cbn [andb fst snd]; lia.
  - rewrite rem_two_even.
    unfold JS.Math_floor, JS.Math_ceil. rewrite Zfloor_half, Zceil_half.
    replace (count - 1 + 1)%Z with count by lia.
    pose proof (Z.div_mod count 2 ltac:(lia)) as Hdm.
    pose proof (Z.mod_pos_bound count 2 ltac:(lia)) as Hb.
    pose proof (Z.div_mod (count - 1) 2 ltac:(lia)) as Hdm1.
    pose proof (Z.mod_pos_bound (count - 1) 2 ltac:(lia)) as Hb1.
    destruct (Z.even count) eqn:He.
    + apply Z.even_spec in He. destruct He as [k Hk].
      destruct (arc >=? 1 - arc); cbn [fst snd]; lia.
    + assert (Hodd : Z.odd count = true)
        by (rewrite <- Z.negb_even, He; reflexivity).
      apply Z.odd_spec in Hodd. destruct Hodd as [k Hk].
      cbn [fst snd]. lia.
Qed.

(** ** Points before the anchor lie below it, points after it above *)

Lemma Math_pow_pos (b e : R) : 0 < b -> 0 < JS.Math_pow b e.
Proof.
  intro Hb. unfold JS.Math_pow.
  destruct (Req_dec_T e 0); [lra|].
  destruct (Rlt_dec 0 b); [|contradiction].
  unfold Rpower. apply exp_pos.
Qed.

Lemma blend_pos (nd curved t : R) :
  0 < nd -> 0 < curved -> 0 <= t <= 1 -> 0 < nd * (1 - t) + curved * t.
Proof. intros. destruct (Req_dec_T t 0); [subst; lra | nra]. Qed.

Lemma Math_min_unit (a : R) : 0 <= a -> 0 <= JS.Math_min a 1 <= 1.
Proof.
  intro Ha. unfold JS.Math_min, Rmin. destruct (Rle_dec a 1); lra.
Qed.

Lemma poweredDistance_pos (nd contrast : R) :
  0 < nd ->
  0 < (if contrast >? ColorGenerator.contrastHighThreshold then
         nd * (1 - JS.Math_min
                 ((contrast - ColorGenerator.contrastHighThreshold)
                  / ColorGenerator.maxContrastRange) 1)
         + JS.Math_pow nd (1 / ColorGenerator.contrastHighExponent)
           * JS.Math_min
               ((contrast - ColorGenerator.contrastHighThreshold)
                / ColorGenerator.maxContrastRange) 1
       else if contrast <? ColorGenerator.contrastLowThreshold then
         nd * (1 - JS.Math_min
                 ((ColorGenerator.contrastLowThreshold - contrast)
                  / ColorGenerator.minContrastRange) 1)
         + JS.Math_pow nd ColorGenerator.contrastLowExponent
           * JS.Math_min
               ((ColorGenerator.contrastLowThreshold - contrast)
                / ColorGenerator.minContrastRange) 1
       else nd).
Proof.
  intro Hnd.
  unfold ColorGenerator.contrastHighThreshold,
    ColorGenerator.contrastLowThreshold, ColorGenerator.maxContrastRange,
    ColorGenerator.minContrastRange.
  destruct (contrast >? 1) eqn:Hhi.
  - apply gtb_true_iff in Hhi.
    apply blend_pos; [assumption | now apply Math_pow_pos |].
    apply Math_min_unit. lra.
  - destruct (contrast <? 1) eqn:Hlo; [|assumption].
    apply ltb_true_iff in Hlo.
    apply blend_pos; [assumption | now apply Math_pow_pos |].
    apply Math_min_unit. lra.
Qed.

Lemma ratio_unit (a b : R) : 0 < a -> a < b -> 0 < a / b < 1.
Proof.
  intros Ha Hab. assert (Hb : 0 < b) by lra.
  pose proof (Rinv_0_lt_compat b Hb) as Hinv.
  split.
  - unfold Rdiv. nra.
  - apply Rmult_lt_reg_r with b; [assumption|].
    unfold Rdiv. rewrite Rmult_assoc, Rinv_l by lra. lra.
Qed.

Lemma calculateArcLength_before (i total : Z) (arc contrast : R)
    (useContrast : bool) :
  (0 <= i < total)%Z -> 0 < arc ->
  ColorGenerator._calculateArcLength i total arc contrast useContrast true
  < arc.
Proof.
  intros Hi Harc.
  assert (Hi0 : 0 <= IZR i) by (apply IZR_le; lia).
  assert (Hit : IZR i + 1 <= IZR total).
  { rewrite <- (plus_IZR i 1). apply IZR_le. lia. }
  unfold ColorGenerator._calculateArcLength.
  destruct useContrast; cbn [negb].
  - pose proof (ratio_unit (IZR total - IZR i) (IZR total + 1)
                  ltac:(lra) ltac:(lra)) as [Hnd _].
    pose proof (poweredDistance_pos _ contrast Hnd) as Hp.
    cbv zeta. nra.
  - pose proof (ratio_unit (IZR i + 1) (IZR total + 1)
                  ltac:(lra) ltac:(lra)) as [Hr0 Hr1].
    replace (arc / (IZR total + 1) * (IZR i + 1))
      with (arc * ((IZR i + 1) / (IZR total + 1)))
      by (unfold Rdiv; ring).
    nra.
Qed.

Lemma calculateArcLength_after (i total : Z) (arc contrast : R)
    (useContrast : bool) :
  (0 <= i < total)%Z -> arc < 1 ->
  arc
  < ColorGenerator._calculateArcLength i total arc contrast useContrast false.
Proof.
  intros Hi Harc.
  assert (Hi0 : 0 <= IZR i) by (apply IZR_le; lia).
  assert (Hit : IZR i + 1 <= IZR total).
  { rewrite <- (plus_IZR i 1). apply IZR_le. lia. }
  pose proof (ratio_unit (IZR i + 1) (IZR total + 1)
                ltac:(lra) ltac:(lra)) as [Hr0 Hr1].
  unfold ColorGenerator._calculateArcLength.
  destruct useContrast; cbn [negb].
  - pose proof (poweredDistance_pos _ contrast Hr0) as Hp.
    cbv zeta. nra.
  - replace ((1 - arc) / (IZR total + 1) * (IZR i + 1))
      with ((1 - arc) * ((IZR i + 1) / (IZR total + 1)))
      by (unfold Rdiv; ring).
    nra.
Qed.

(** ** The shape of the generated palette *)

Lemma forEach_total {A B : Type} (f : A -> option B) (l : list A) :
  (forall a, exists b, f a = Some b) ->
  exists bs,
    ColorGenerator.forEach f l = Some bs
    /\ Forall2 (fun a b => f a = Some b) l bs.
Proof.
  intro Hf. induction l as [|a rest [bs [Hbs Hall]]]; simpl.
  - exists []. split; [reflexivity | constructor].
  - destruct (Hf a) as [b Hb]. rewrite Hb, Hbs.
    exists (b :: bs). split; [reflexivity | now constructor].
Qed.

Section Palette.

Variable hsvToHex : R -> R -> R -> string.

Lemma swatchAt_total (hue arc : R)
    (curve desaturated : list SuperellipseMath.CurvePoint) :
  curve <> [] -> desaturated <> [] ->
  exists c, ColorGenerator.swatchAt hsvToHex hue curve desaturated arc = Some c.
Proof.
  intros Hc Hd. unfold ColorGenerator.swatchAt.
  destruct curve as [|c0 crest]; [contradiction|].
  destruct desaturated as [|d0 drest]; [contradiction|].
  destruct (findPointAtArcLength_some arc c0 crest) as [mp ->].
  destruct (findPointAtArcLength_some arc d0 drest) as [dp ->].
  eexists; reflexivity.
Qed.

Lemma swatchAt_arcLength (hue arc : R)
    (curve desaturated : list SuperellipseMath.CurvePoint)
    (c : ColorGenerator.Color) :
  ColorGenerator.swatchAt hsvToHex hue curve desaturated arc = Some c ->
  ColorGenerator.arcLength c = arc.
Proof.
  unfold ColorGenerator.swatchAt.
  destruct (SuperellipseMath.findPointAtArcLength arc curve); [|discriminate].
  destruct (SuperellipseMath.findPointAtArcLength arc desaturated);
    [|discriminate].
  intro H. injection H as <-. reflexivity.
Qed.

Lemma swatches_arcLengths (hue : R)
    (curve desaturated : list SuperellipseMath.CurvePoint)
    (g : Z -> R) (l : list Z) (cs : list ColorGenerator.Color) :
  Forall2
    (fun i c =>
       ColorGenerator.swatchAt hsvToHex hue curve desaturated (g i) = Some c)
    l cs ->
  map ColorGenerator.arcLength cs = map g l.
Proof.
  induction 1 as [|i c l cs Hc _ IH]; simpl; [reflexivity|].
  rewrite IH. f_equal. eapply swatchAt_arcLength; eauto.
Qed.

(** generatePalette never throws; its colours are the points before the
    anchor, the anchor and the points after it, between the black and the
    white swatch when these are requested. *)
Lemma generatePalette_shape (params : ColorGenerator.Params) :
  exists arc palette before selected after,
    Invariants.anchorArcLength params = Some arc
    /\ 0 <= arc <= 1
    /\ ColorGenerator.generatePalette hsvToHex params = Some palette
    /\ ColorGenerator.colors palette
       = (if ColorGenerator.includeBlackWhite params
          then [ColorGenerator.blackSwatch]
               ++ (before ++ [selected] ++ after)
               ++ [ColorGenerator.whiteSwatch]
          else before ++ [selected] ++ after)
    /\ ColorGenerator.arcLength selected = arc
    /\ ColorGenerator.isSelected selected = true
    /\ (let ucm :=
          ColorGenerator.useContrastMode (ColorGenerator.contrast params) in
        let split :=
          ColorGenerator.splitPoints (ColorGenerator.smartSpacing params) ucm
            (ColorGenerator.colorCount params) arc in
        map ColorGenerator.arcLength before
        = map (fun i =>
                 ColorGenerator._calculateArcLength i (fst split) arc
                   (ColorGenerator.contrast params) ucm true)
            (ColorGenerator.upTo (fst split))
        /\ map ColorGenerator.arcLength after
           = map (fun i =>
                    ColorGenerator._calculateArcLength i (snd split) arc
                      (ColorGenerator.contrast params) ucm false)
               (ColorGenerator.upTo (snd split))).
Proof.
  unfold Invariants.anchorArcLength, ColorGenerator.generatePalette.
  set (nx := ColorGenerator.saturation params / 100).
  set (ny := ColorGenerator.value params / 100).
  set (n := SuperellipseMath.findExponent nx ny).
  pose proof (generateCurvePoints_ok n) as Hcurve.
  set (curve := SuperellipseMath.generateCurvePoints n) in *.
  set (sat := match ColorGenerator.saturationControl params with
              | Some sc => sc
              | None => CONFIG.SATURATION_DEFAULT
              end).
  pose proof (generateDesaturatedCurve_ok n sat) as Hdes.
  set (des := SuperellipseMath.generateDesaturatedCurve n sat) in *.
  assert (Hcne : curve <> []).
  { destruct Hcurve as [Hl _ _ _ _]. intro E. rewrite E in Hl.
    discriminate Hl. }
  assert (Hdne : des <> []).
  { destruct Hdes as [Hl _ _ _ _]. intro E. rewrite E in Hl.
    discriminate Hl. }
  destruct (findClosestPoint_some nx ny curve
              (Invariants.ok_range _ _ Hcurve) Hcne) as [sp [Hsp Hunit]].
  rewrite Hsp. cbn [option_map].
  set (arc := SuperellipseMath.loc_normalizedArcLength sp) in *.
  set (ucm := ColorGenerator.useContrastMode (ColorGenerator.contrast params)).
  destruct (ColorGenerator.splitPoints (ColorGenerator.smartSpacing params)
              ucm (ColorGenerator.colorCount params) arc)
    as [pb pa] eqn:Hsplit.
  destruct (forEach_total
              (fun i =>
                 ColorGenerator.swatchAt hsvToHex (ColorGenerator.hue params)
                   curve des
                   (ColorGenerator._calculateArcLength i pb arc
                      (ColorGenerator.contrast params) ucm true))
              (ColorGenerator.upTo pb))
    as [before [Hbefore Hb2]].
  { intro i. now apply swatchAt_total. }
  destruct (forEach_total
              (fun i =>
                 ColorGenerator.swatchAt hsvToHex (ColorGenerator.hue params)
                   curve des
                   (ColorGenerator._calculateArcLength i pa arc
                      (ColorGenerator.contrast params) ucm false))
              (ColorGenerator.upTo pa))
    as [after [Hafter Ha2]].
  { intro i. now apply swatchAt_total. }
  rewrite Hbefore, Hafter.
  assert (Hdes' : exists d0 drest, des = d0 :: drest).
  { destruct des; [contradiction | eauto]. }
  destruct Hdes' as [d0 [drest Hd]].
  destruct (findPointAtArcLength_some arc d0 drest) as [sdp Hsdp].
  rewrite <- Hd in Hsdp. rewrite Hsdp.
  eexists arc, _, before, _, after.
  split; [reflexivity|]. split; [exact Hunit|].
  split; [reflexivity|].
  cbn [ColorGenerator.colors ColorGenerator.arcLength
       ColorGenerator.isSelected fst snd].
  split; [reflexivity|]. split; [reflexivity|]. split; [reflexivity|].
  cbv zeta. fold ucm. rewrite Hsplit. cbn [fst snd].
  split.
  - apply (swatches_arcLengths _ _ _ _ _ _ Hb2).
  - apply (swatches_arcLengths _ _ _ _ _ _ Ha2).
Qed.

End Palette.

(** ** Counting the swatches *)

Lemma upTo_length (bound : Z) :
  length (ColorGenerator.upTo bound) = Z.to_nat bound.
Proof. unfold ColorGenerator.upTo. now rewrite length_map, length_seq. Qed.

Lemma upTo_In (bound i : Z) :
  In i (ColorGenerator.upTo bound) -> (0 <= i < bound)%Z.
Proof.
  unfold ColorGenerator.upTo. intro Hin. apply in_map_iff in Hin.
  destruct Hin as [k [<- Hk]]. apply in_seq in Hk. lia.
Qed.

Lemma map_length_eq {A B C : Type} (f : A -> C) (g : B -> C)
    (l1 : list A) (l2 : list B) :
  map f l1 = map g l2 -> length l1 = length l2.
Proof.
  intro H. apply (f_equal (@length C)) in H. now rewrite !length_map in H.
Qed.

(** C3.  For every count from 1 to 50, every anchor, contrast and spacing
    mode, generatePalette (without the black and white endpoints) returns
    exactly [count] swatch arc lengths, one of which is the arc length of
    the anchor; when that arc length lies strictly between 0 and 1 no other
    swatch has it; and for count = 1 the anchor swatch is the only one. *)
Theorem distribution_count_and_anchor
    (hsvToHex : R -> R -> R -> string) (params : ColorGenerator.Params) :
  (1 <= ColorGenerator.colorCount params <= 50)%Z ->
  ColorGenerator.includeBlackWhite params = false ->
  exists arc palette,
    Invariants.anchorArcLength params = Some arc
    /\ ColorGenerator.generatePalette hsvToHex params = Some palette
    /\ length (Invariants.arcLengths palette)
       = Z.to_nat (ColorGenerator.colorCount params)
    /\ In arc (Invariants.arcLengths palette)
    /\ (0 < arc < 1 -> Spec.occursOnce arc (Invariants.arcLengths palette))
    /\ (ColorGenerator.colorCount params = 1%Z ->
        exists anchor,
          ColorGenerator.colors palette = [anchor]
          /\ ColorGenerator.isSelected anchor = true
          /\ ColorGenerator.arcLength anchor = arc).
Proof.
  intros Hcount Hbw.
  destruct (generatePalette_shape hsvToHex params)
    as (arc & palette & before & selected & after
        & Harc & Hunit & Hgen & Hcolors & Hsel & Hflag & Hb & Ha).
  cbv zeta in Hb, Ha. rewrite Hbw in Hcolors.
  set (ucm := ColorGenerator.useContrastMode (ColorGenerator.contrast params))
    in *.
  pose proof (splitPoints_sum (ColorGenerator.smartSpacing params) ucm
                (ColorGenerator.colorCount params) arc ltac:(lia) Hunit)
    as (Hpb & Hpa & Hsum).
  cbv zeta in Hpb, Hpa, Hsum.
  set (split := ColorGenerator.splitPoints _ ucm _ arc) in *.
  pose proof (map_length_eq _ _ _ _ Hb) as Hlb. rewrite upTo_length in Hlb.
  pose proof (map_length_eq _ _ _ _ Ha) as Hla. rewrite upTo_length in Hla.
  exists arc, palette.
  split; [exact Harc|]. split; [exact Hgen|].
  unfold Invariants.arcLengths. rewrite Hcolors.
  rewrite !map_app. cbn [map]. rewrite Hsel.
  split; [|split; [|split]].
  - rewrite !length_app, !length_map. cbn [length]. lia.
  - apply in_or_app. right. left. reflexivity.
  - intros [Hlo Hhi].
    exists (map ColorGenerator.arcLength before),
           (map ColorGenerator.arcLength after).
    split; [reflexivity|]. split.
    + rewrite Hb. intro Hin. apply in_map_iff in Hin.
      destruct Hin as [i [Hi Hin]]. apply upTo_In in Hin.
      pose proof (calculateArcLength_before i (fst split) arc
                    (ColorGenerator.contrast params) ucm Hin Hlo).
      lra.
    + rewrite Ha. intro Hin. apply in_map_iff in Hin.
      destruct Hin as [i [Hi Hin]]. apply upTo_In in Hin.
      pose proof (calculateArcLength_after i (snd split) arc
                    (ColorGenerator.contrast params) ucm Hin Hhi).
      lra.
  - intro Hone. exists selected.
    assert (before = []) by (apply length_zero_iff_nil; lia).
    assert (after = []) by (apply length_zero_iff_nil; lia).
    subst before after. repeat split; assumption.
Qed.

(** C8.  With the black and white endpoints requested and count = 10 the
    palette has exactly 12 swatches.  The first one is the fixed black
    swatch, with arc length 0 and unit-square coordinates (0, 0); the last
    one is the fixed white swatch, with arc length 1 and coordinates
    (0, 1).  The two are constants: they are the same for every request
    and no curve lookup takes part in them. *)
Theorem black_white_endpoints
    (hsvToHex : R -> R -> R -> string) (params : ColorGenerator.Params) :
  ColorGenerator.colorCount params = 10%Z ->
  ColorGenerator.includeBlackWhite params = true ->
  exists palette inner,
    ColorGenerator.generatePalette hsvToHex params = Some palette
    /\ ColorGenerator.colors palette
       = ColorGenerator.blackSwatch :: inner ++ [ColorGenerator.whiteSwatch]
    /\ length (ColorGenerator.colors palette) = 12%nat
    /\ (ColorGenerator.isBlack ColorGenerator.blackSwatch = true
        /\ ColorGenerator.arcLength ColorGenerator.blackSwatch = 0
        /\ ColorGenerator.s ColorGenerator.blackSwatch / 100 = 0
        /\ ColorGenerator.v ColorGenerator.blackSwatch / 100 = 0)
    /\ (ColorGenerator.isWhite ColorGenerator.whiteSwatch = true
        /\ ColorGenerator.arcLength ColorGenerator.whiteSwatch = 1
        /\ ColorGenerator.s ColorGenerator.whiteSwatch / 100 = 0
        /\ ColorGenerator.v ColorGenerator.whiteSwatch / 100 = 1).
Proof.
  intros Hcount Hbw.
  destruct (generatePalette_shape hsvToHex params)
    as (arc & palette & before & selected & after
        & Harc & Hunit & Hgen & Hcolors & Hsel & Hflag & Hb & Ha).
  cbv zeta in Hb, Ha. rewrite Hbw in Hcolors.
  set (ucm := ColorGenerator.useContrastMode (ColorGenerator.contrast params))
    in *.
  pose proof (splitPoints_sum (ColorGenerator.smartSpacing params) ucm
                (ColorGenerator.colorCount params) arc ltac:(lia) Hunit)
    as (Hpb & Hpa & Hsum).
  cbv zeta in Hpb, Hpa, Hsum.
  set (split := ColorGenerator.splitPoints _ ucm _ arc) in *.
  pose proof (map_length_eq _ _ _ _ Hb) as Hlb. rewrite upTo_length in Hlb.
  pose proof (map_length_eq _ _ _ _ Ha) as Hla. rewrite upTo_length in Hla.
  exists palette, (before ++ [selected] ++ after).
  split; [exact Hgen|]. split; [exact Hcolors|]. split.
  - rewrite Hcolors. cbn [app length]. rewrite !length_app. cbn [length].
    lia.
  - unfold ColorGenerator.blackSwatch, ColorGenerator.whiteSwatch.
    cbn [ColorGenerator.isBlack ColorGenerator.isWhite
         ColorGenerator.arcLength ColorGenerator.s ColorGenerator.v].
    repeat split; lra.
Qed.

(** ** An anchor that is the first sample of its curve *)

Lemma normalize_head (st : SuperellipseMath.SamplerState)
    (c : SuperellipseMath.CurvePoint) :
  hd_error (SuperellipseMath.normalize st) = Some c ->
  exists p, hd_error (fst st) = Some p
            /\ SuperellipseMath.x c = SuperellipseMath.raw_x p
            /\ SuperellipseMath.y c = SuperellipseMath.raw_y p.
Proof.
  destruct st as [points total]. unfold SuperellipseMath.normalize.
  destruct (total >? 0); destruct points as [|p rest]; cbn;
    try discriminate; intro H; injection H as <-; exists p; auto.
Qed.

Lemma generateCurvePoints_first (n : R) :
  exists first rest,
    SuperellipseMath.generateCurvePoints n = first :: rest
    /\ SuperellipseMath.x first
       = JS.Math_max 0 (JS.Math_min 1 (JS.Math_pow (JS.Math_cos 0) (2 / n)))
    /\ SuperellipseMath.y first
       = JS.Math_max 0 (JS.Math_min 1 (JS.Math_pow (JS.Math_sin 0) (2 / n)))
    /\ SuperellipseMath.normalizedArcLength first = 0.
Proof.
  pose proof (generateCurvePoints_ok n) as Hok.
  destruct (CurveOk_cons 401 _ ltac:(lia) Hok) as [first [rest Heq]].
  exists first, rest. split; [exact Heq|].
  pose proof (Invariants.ok_first _ _ Hok first) as Hnal.
  rewrite Heq in Hnal. specialize (Hnal eq_refl).
  unfold SuperellipseMath.generateCurvePoints in Heq.
  assert (Hhd : hd_error
                  (SuperellipseMath.normalize
                     (SuperellipseMath.sampleLoop
                        (fun t => JS.Math_pow (JS.Math_cos t) (2 / n))
                        (fun t => JS.Math_pow (JS.Math_sin t) (2 / n))))
                = Some first) by (rewrite Heq; reflexivity).
  destruct (normalize_head _ first Hhd) as [p [Hp [Hx Hy]]].
  destruct (sampleLoop_first _ _ p Hp) as [Hpx Hpy].
  rewrite Hx, Hy, Hpx, Hpy. auto.
Qed.

Lemma sum_squares_nonneg (a b : R) : 0 <= a * a + b * b.
Proof.
  pose proof (Rle_0_sqr a). pose proof (Rle_0_sqr b).
  unfold Rsqr in *. lra.
Qed.

Lemma coarseFold_stuck (targetX targetY d : R)
    (entries : list (nat * SuperellipseMath.CurvePoint))
    (cp : option SuperellipseMath.CurvePoint) (ci : nat) :
  d <= 0 ->
  fold_left (SuperellipseMath.coarseStep targetX targetY) entries
    (cp, Some d, ci)
  = (cp, Some d, ci).
Proof.
  intro Hd. induction entries as [|[i p] entries IH]; [reflexivity|].
  simpl. unfold JS.lt_inf.
  match goal with |- context [JS.ltb (?a * ?a + ?b * ?b) d] =>
    rewrite (proj2 (ltb_false_iff (a * a + b * b) d))
      by (pose proof (sum_squares_nonneg a b); lra) end.
  exact IH.
Qed.

Lemma refineLoop_stuck (targetX targetY d : R)
    (curve : list SuperellipseMath.CurvePoint) (indices : list nat)
    (bp : option SuperellipseMath.Located) :
  d <= 0 -> Forall (fun i => (i + 1 < length curve)%nat) indices ->
  SuperellipseMath.refineLoop targetX targetY curve indices (bp, Some d)
  = Some (bp, Some d).
Proof.
  intros Hd Hall. induction Hall as [|i indices Hi _ IH]; [reflexivity|].
  simpl. unfold SuperellipseMath.refineBody.
  destruct (nth_error curve i) as [p1|] eqn:H1;
    [|apply nth_error_None in H1; lia].
  destruct (nth_error curve (i + 1)) as [p2|] eqn:H2;
    [|apply nth_error_None in H2; lia].
  destruct (_ >? SuperellipseMath.minSegmentLength); [|exact IH].
  unfold JS.lt_inf.
  match goal with |- context [JS.ltb (?a * ?a + ?b * ?b) d] =>
    rewrite (proj2 (ltb_false_iff (a * a + b * b) d))
      by (pose proof (sum_squares_nonneg a b); lra) end.
  exact IH.
Qed.

(** A target that coincides with the first sample is projected onto it. *)
Lemma findClosestPoint_first (targetX targetY : R)
    (first : SuperellipseMath.CurvePoint)
    (rest : list SuperellipseMath.CurvePoint) :
  SuperellipseMath.x first = targetX -> SuperellipseMath.y first = targetY ->
  SuperellipseMath.findClosestPoint targetX targetY (first :: rest)
  = Some (SuperellipseMath.Sample first).
Proof.
  intros Hx Hy. unfold SuperellipseMath.findClosestPoint.
  assert (Hcoarse :
    exists d, d <= 0
      /\ SuperellipseMath.coarsePass targetX targetY (first :: rest)
         = (Some first, Some d, 0%nat)).
  { unfold SuperellipseMath.coarsePass.
    cbn [length seq combine fold_left nth_error].
    unfold SuperellipseMath.coarseStep at 2. cbn [JS.lt_inf].
    eexists. split; [|apply coarseFold_stuck]; rewrite Hx, Hy; lra. }
  destruct Hcoarse as [d [Hd ->]]. cbn [option_map].
  rewrite refineLoop_stuck; [reflexivity | exact Hd |].
  apply Forall_forall. intros i Hi.
  apply indexRange_bounds in Hi; [|lia]. lia.
Qed.

(** The anchor with saturation 100 and value 0 sits at arc length 0. *)
Lemma anchor_at_curve_start (params : ColorGenerator.Params) :
  ColorGenerator.saturation params = 100 ->
  ColorGenerator.value params = 0 ->
  Invariants.anchorArcLength params = Some 0.
Proof.
  intros Hs Hv. unfold Invariants.anchorArcLength. rewrite Hs, Hv.
  assert (Hn : SuperellipseMath.findExponent (100 / 100) (0 / 100) = 1 / 10).
  { unfold SuperellipseMath.findExponent, SuperellipseMath.minThreshold.
    decide_cmp. reflexivity. }
  rewrite Hn.
  destruct (generateCurvePoints_first (1 / 10))
    as (first & rest & -> & Hx & Hy & Hnal).
  assert (Hx1 : SuperellipseMath.x first = 100 / 100).
  { rewrite Hx. unfold JS.Math_cos, JS.Math_pow. rewrite cos_0.
    destruct (Req_dec_T (2 / (1 / 10)) 0); [lra|].
    destruct (Rlt_dec 0 1); [|lra].
    unfold Rpower. rewrite ln_1, Rmult_0_r, exp_0.
    unfold JS.Math_max, JS.Math_min, Rmax, Rmin.
    destruct (Rle_dec 1 1); destruct (Rle_dec 0 1); lra. }
  assert (Hy0 : SuperellipseMath.y first = 0 / 100).
  { rewrite Hy. unfold JS.Math_sin, JS.Math_pow. rewrite sin_0.
    destruct (Req_dec_T (2 / (1 / 10)) 0); [lra|].
    destruct (Rlt_dec 0 0); [lra|].
    unfold JS.Math_max, JS.Math_min, Rmax, Rmin.
    destruct (Rle_dec 1 0); destruct (Rle_dec 0 0); lra. }
  rewrite (findClosestPoint_first _ _ first rest Hx1 Hy0).
  cbn [option_map SuperellipseMath.loc_normalizedArcLength].
  now rewrite Hnal.
Qed.

(** ** findExponent *)

Lemma Math_pow_Rpower (b e : R) : 0 < b -> JS.Math_pow b e = Rpower b e.
Proof.
  intro Hb. unfold JS.Math_pow.
  destruct (Req_dec_T e 0) as [-> | He].
  - now rewrite Rpower_O.
  - destruct (Rlt_dec 0 b); [reflexivity | contradiction].
Qed.

Lemma ln_neg (b : R) : 0 < b < 1 -> ln b < 0.
Proof. intros [H0 H1]. rewrite <- ln_1. now apply ln_increasing. Qed.

Lemma exp_monotone (u v : R) : u <= v -> exp u <= exp v.
Proof.
  intros [Hlt | ->]; [left; now apply exp_increasing | right; reflexivity].
Qed.

Lemma Rpower_decreasing (b u v : R) :
  0 < b < 1 -> u <= v -> Rpower b v <= Rpower b u.
Proof.
  intros Hb Huv. unfold Rpower. apply exp_monotone.
  pose proof (ln_neg b Hb). nra.
Qed.

Lemma neg_ln_bound (b : R) : 0 < b -> - ln b <= / b - 1.
Proof.
  intro Hb. rewrite <- ln_Rinv by assumption.
  pose proof (exp_ineq1_le (ln (/ b))) as H.
  rewrite exp_ln in H by now apply Rinv_0_lt_compat. lra.
Qed.

(** Between two exponents [0 <= u <= v] the power of a base in
    (1/1000, 1) drops by at most [999 * (v - u)]. *)
Lemma Rpower_drop (b u v : R) :
  1 / 1000 < b < 1 -> 0 <= u <= v ->
  Rpower b u - Rpower b v <= 999 * (v - u).
Proof.
  intros [Hb0 Hb1] [Hu Huv].
  assert (Hb : 0 < b) by lra.
  pose proof (ln_neg b (conj Hb Hb1)) as Hln.
  pose proof (neg_ln_bound b Hb) as Hnl.
  assert (Hinv : / b < 1000).
  { replace 1000 with (/ (1 / 1000)) by lra.
    apply Rinv_lt_contravar; [nra | lra]. }
  unfold Rpower.
  replace (v * ln b) with (u * ln b + (v - u) * ln b) by ring.
  rewrite exp_plus.
  pose proof (exp_pos (u * ln b)) as He0.
  assert (He1 : exp (u * ln b) <= 1).
  { rewrite <- exp_0. apply exp_monotone. nra. }
  pose proof (exp_ineq1_le ((v - u) * ln b)) as Hineq.
  assert (Hle1 : exp ((v - u) * ln b) <= 1).
  { rewrite <- exp_0. apply exp_monotone. nra. }
  assert (Hstep : 1 - exp ((v - u) * ln b) <= 999 * (v - u)) by nra.
  nra.
Qed.

(** The invariant of the bisection: the residual is positive at [nMin],
    not positive at [nMax], and the bracket halves at every iteration. *)
Lemma bisect_residual (k : nat) (x y nMin nMax : R) :
  1 / 1000 < x < 1 -> 1 / 1000 < y < 1 ->
  0 <= nMin <= nMax -> nMax <= CONFIG.SUPERELLIPSE_N_MAX ->
  0 < Rpower x nMin + Rpower y nMin - 1 ->
  Rpower x nMax + Rpower y nMax - 1 <= 0 ->
  (nMax - nMin) * 1998 < 1 / 100 * 2 ^ k ->
  nMin <= SuperellipseMath.bisect k x y nMin nMax <= nMax
  /\ Rabs (Rpower x (SuperellipseMath.bisect k x y nMin nMax)
           + Rpower y (SuperellipseMath.bisect k x y nMin nMax) - 1)
     < 1 / 100.
Proof.
  intros Hx Hy. revert nMin nMax.
  assert (Hx0 : 0 < x) by lra. assert (Hy0 : 0 < y) by lra.
  assert (Hmid : forall nMin nMax, 0 <= nMin <= nMax ->
            nMax <= CONFIG.SUPERELLIPSE_N_MAX ->
            JS.Math_min ((nMin + nMax) / 2) CONFIG.SUPERELLIPSE_N_MAX
            = (nMin + nMax) / 2).
  { intros a b Hab Hb. unfold JS.Math_min. apply Rmin_left. lra. }
  induction k as [|k IH]; intros nMin nMax Hord Hmax Hlo Hhi Hwidth.
  - cbn [SuperellipseMath.bisect]. rewrite Hmid by assumption.
    set (m := (nMin + nMax) / 2).
    assert (Hm : nMin <= m <= nMax) by (unfold m; lra).
    pose proof (Rpower_decreasing x nMin m ltac:(lra) ltac:(lra)).
    pose proof (Rpower_decreasing y nMin m ltac:(lra) ltac:(lra)).
    pose proof (Rpower_decreasing x m nMax ltac:(lra) ltac:(lra)).
    pose proof (Rpower_decreasing y m nMax ltac:(lra) ltac:(lra)).
    pose proof (Rpower_drop x nMin nMax Hx ltac:(lra)).
    pose proof (Rpower_drop y nMin nMax Hy ltac:(lra)).
    split; [exact Hm|]. simpl in Hwidth.
    apply Rabs_def1; lra.
  - cbn [SuperellipseMath.bisect]. cbv zeta.
    rewrite !Math_pow_Rpower by assumption.
    set (m := (nMin + nMax) / 2).
    assert (Hm : nMin <= m <= nMax) by (unfold m; lra).
    unfold JS.Math_abs, CONFIG.SUPERELLIPSE_TOLERANCE.
    destruct (Rabs (Rpower x m + Rpower y m - 1) <? 1 / 1000) eqn:Htol.
    + apply ltb_true_iff in Htol.
      assert (Hmm : JS.Math_min m CONFIG.SUPERELLIPSE_N_MAX = m)
        by (apply Hmid; assumption).
      rewrite !Hmm. split; [exact Hm | lra].
    + apply ltb_false_iff in Htol.
      assert (Hw : (nMax - nMin) * 1998 < 1 / 100 * (2 * 2 ^ k))
        by exact Hwidth.
      destruct ((Rpower x m + Rpower y m - 1)
                * (Rpower x nMin + Rpower y nMin - 1) <? 0) eqn:Hsign.
      * apply ltb_true_iff in Hsign.
        assert (Hneg : Rpower x m + Rpower y m - 1 < 0) by nra.
        destruct (IH nMin m) as [Hr Hres]; try lra; unfold m; lra.
      * apply ltb_false_iff in Hsign.
        assert (Hnn : 0 <= Rpower x m + Rpower y m - 1) by nra.
        rewrite Rabs_right in Htol by lra.
        destruct (IH m nMax) as [Hr Hres]; try lra; unfold m; lra.
Qed.

Lemma Rpower_tenth_root (b : R) : 1 / 1000 < b -> 1 / 2 < Rpower b (1 / 10).
Proof.
  intro Hb.
  assert (Hhalf : Rpower (1 / 1024) (1 / 10) = 1 / 2).
  { replace (1 / 1024) with ((1 / 2) ^ 10) by lra.
    rewrite <- Rpower_pow by lra. rewrite Rpower_mult.
    replace (INR 10 * (1 / 10)) with 1 by (simpl; lra).
    apply Rpower_1. lra. }
  rewrite <- Hhalf. apply Rlt_Rpower_l; lra.
Qed.

Lemma Rpower_25 (b : R) : 0 < b -> Rpower b 25 = b ^ 25.
Proof.
  intro Hb. rewrite <- Rpower_pow by assumption.
  f_equal. simpl. lra.
Qed.

Lemma corner_power (b : R) : 99 / 100 <= b -> 3 / 4 < Rpower b 25.
Proof.
  intro Hb. rewrite Rpower_25 by lra.
  apply Rlt_le_trans with ((99 / 100) ^ 25); [lra|].
  apply pow_incr. lra.
Qed.

(** C1.  For 0.001 < x < 1 and 0.001 < y < 1 such that the residual
    x^25 + y^25 - 1 at N_MAX is not positive, findExponent returns an
    exponent n in [N_MIN, N_MAX] with |x^n + y^n - 1| < 0.01. *)
Theorem findExponent_residual_bound (x y : R) :
  1 / 1000 < x < 1 -> 1 / 1000 < y < 1 ->
  Rpower x 25 + Rpower y 25 <= 1 ->
  CONFIG.SUPERELLIPSE_N_MIN <= SuperellipseMath.findExponent x y
    <= CONFIG.SUPERELLIPSE_N_MAX
  /\ Rabs (Rpower x (SuperellipseMath.findExponent x y)
           + Rpower y (SuperellipseMath.findExponent x y) - 1)
     < 1 / 100.
Proof.
  intros Hx Hy Hroot.
  unfold SuperellipseMath.findExponent, SuperellipseMath.minThreshold,
    SuperellipseMath.maxThreshold.
  rewrite (proj2 (leb_false_iff x (1 / 1000))) by lra.
  rewrite (proj2 (leb_false_iff y (1 / 1000))) by lra.
  cbn [andb orb].
  destruct ((x >=? 99 / 100) && (y >=? 99 / 100)) eqn:Hcorner.
  - apply andb_true_iff in Hcorner. destruct Hcorner as [Hcx Hcy].
    apply geb_true_iff in Hcx, Hcy.
    pose proof (corner_power x Hcx). pose proof (corner_power y Hcy). lra.
  - pose proof (Rpower_tenth_root x ltac:(lra)).
    pose proof (Rpower_tenth_root y ltac:(lra)).
    unfold CONFIG.SUPERELLIPSE_MAX_ITERATIONS, CONFIG.SUPERELLIPSE_N_MIN.
    apply bisect_residual; try assumption;
      unfold CONFIG.SUPERELLIPSE_N_MAX; lra.
Qed.

(** C1, as stated, fails at the corner guard: for x = y = 0.99 the
    function returns N_MAX = 25 and the residual is above 0.5. *)
Lemma findExponent_corner_residual :
  0 < 99 / 100 < 1
  /\ SuperellipseMath.findExponent (99 / 100) (99 / 100) = 25
  /\ ~ Rabs (Rpower (99 / 100)
               (SuperellipseMath.findExponent (99 / 100) (99 / 100))
             + Rpower (99 / 100)
                 (SuperellipseMath.findExponent (99 / 100) (99 / 100))
             - 1)
       < 1 / 100.
Proof.
  assert (Hval : SuperellipseMath.findExponent (99 / 100) (99 / 100) = 25).
  { unfold SuperellipseMath.findExponent, SuperellipseMath.minThreshold,
      SuperellipseMath.maxThreshold.
    decide_cmp. reflexivity. }
  split; [lra|]. split; [exact Hval|].
  rewrite Hval. pose proof (corner_power (99 / 100) ltac:(lra)).
  rewrite Rabs_right by lra. lra.
Qed.

Lemma tenth_root_above (b c : R) :
  0 < c -> c ^ 10 < b -> c < Rpower b (1 / 10).
Proof.
  intros Hc Hb.
  assert (Hc10 : 0 < c ^ 10) by (apply pow_lt; exact Hc).
  assert (Hroot : Rpower (c ^ 10) (1 / 10) = c).
  { rewrite <- Rpower_pow by assumption. rewrite Rpower_mult.
    replace (INR 10 * (1 / 10)) with 1 by (simpl; lra).
    now apply Rpower_1. }
  rewrite <- Hroot at 1. apply Rlt_Rpower_l; lra.
Qed.

(** The guard for a coordinate near an axis: for x = 0.0005 and y = 0.5
    the function returns N_MIN = 0.1, where the residual is above 0.3. *)
Lemma findExponent_axis_residual :
  SuperellipseMath.findExponent (1 / 2000) (1 / 2) = 1 / 10
  /\ 3 / 10 < Rpower (1 / 2000) (1 / 10) + Rpower (1 / 2) (1 / 10) - 1.
Proof.
  split.
  - unfold SuperellipseMath.findExponent, SuperellipseMath.minThreshold.
    decide_cmp. reflexivity.
  - pose proof (tenth_root_above (1 / 2000) (4 / 10) ltac:(lra) ltac:(lra)).
    pose proof (tenth_root_above (1 / 2) (9 / 10) ltac:(lra) ltac:(lra)).
    lra.
Qed.

Lemma bisect_range (k : nat) (x y nMin nMax : R) :
  nMin <= nMax -> nMax <= CONFIG.SUPERELLIPSE_N_MAX ->
  nMin <= SuperellipseMath.bisect k x y nMin nMax <= nMax.
Proof.
  revert nMin nMax. induction k as [|k IH]; intros nMin nMax Hord Hmax;
    cbn [SuperellipseMath.bisect]; cbv zeta.
  - unfold JS.Math_min. rewrite Rmin_left by lra. lra.
  - destruct (_ <? CONFIG.SUPERELLIPSE_TOLERANCE).
    + unfold JS.Math_min. rewrite Rmin_left by lra. lra.
    + destruct (_ <? 0).
      * destruct (IH nMin ((nMin + nMax) / 2)); lra.
      * destruct (IH ((nMin + nMax) / 2) nMax); lra.
Qed.

(** No root below N_MAX: for x = 0.99 and y = 0.95 the residual is still
    positive at 25, and so it is above 0.05 at whatever exponent the
    bisection returns. *)
Lemma findExponent_rootless_residual :
  5 / 100
  < Rpower (99 / 100) (SuperellipseMath.findExponent (99 / 100) (95 / 100))
    + Rpower (95 / 100) (SuperellipseMath.findExponent (99 / 100) (95 / 100))
    - 1.
Proof.
  assert (Hn : 1 / 10
               <= SuperellipseMath.findExponent (99 / 100) (95 / 100) <= 25).
  { unfold SuperellipseMath.findExponent, SuperellipseMath.minThreshold,
      SuperellipseMath.maxThreshold.
    decide_cmp. cbn [andb orb].
    apply bisect_range;
      unfold CONFIG.SUPERELLIPSE_N_MIN, CONFIG.SUPERELLIPSE_N_MAX; lra. }
  pose proof (Rpower_decreasing (99 / 100) _ 25 ltac:(lra) (proj2 Hn)) as H1.
  pose proof (Rpower_decreasing (95 / 100) _ 25 ltac:(lra) (proj2 Hn)) as H2.
  rewrite Rpower_25 in H1, H2 by lra. lra.
Qed.

(** ** The anchor at the start of the curve *)

Lemma occursOnce_repeated (a : R) (l : list R) :
  ~ Spec.occursOnce a (a :: a :: l).
Proof.
  intros [l1 [l2 [Heq [H1 H2]]]].
  destruct l1 as [|b l1]; cbn [app] in Heq.
  - apply H2. assert (Htl : a :: l = l2) by congruence.
    rewrite <- Htl. now left.
  - apply H1. left. congruence.
Qed.

Lemma splitPoints_even_ten :
  ColorGenerator.splitPoints false (ColorGenerator.useContrastMode 1) 10 0
  = (4%Z, 5%Z).
Proof.
  unfold ColorGenerator.splitPoints. cbn [andb].
  change (Z.rem 10 2 =? 0)%Z with true. cbv iota.
  unfold JS.Math_floor, JS.Math_ceil. rewrite Zfloor_half, Zceil_half.
  decide_cmp. reflexivity.
Qed.

(** C3, as stated, fails for an anchor that lies at the start of its
    curve: with saturation 100, value 0 and count 10 (contrast 1.0, smart
    spacing off, no black and white) the anchor has arc length 0 and so have
    the four swatches before it. *)
Lemma anchor_arc_repeated_at_curve_start :
  exists palette,
    ColorGenerator.generatePalette Invariants.plainHex
      (ColorGenerator.mkParams 0 100 0 10 1 false false None)
    = Some palette
    /\ Invariants.anchorArcLength
         (ColorGenerator.mkParams 0 100 0 10 1 false false None)
       = Some 0
    /\ length (Invariants.arcLengths palette) = 10%nat
    /\ ~ Spec.occursOnce 0 (Invariants.arcLengths palette).
Proof.
  set (params := ColorGenerator.mkParams 0 100 0 10 1 false false None).
  destruct (generatePalette_shape Invariants.plainHex params)
    as (arc & palette & before & selected & after
        & Harc & Hunit & Hgen & Hcolors & Hsel & Hflag & Hb & Ha).
  rewrite (anchor_at_curve_start params eq_refl eq_refl) in Harc.
  injection Harc as <-.
  exists palette. split; [exact Hgen|].
  split; [apply (anchor_at_curve_start params eq_refl eq_refl)|].
  cbv zeta in Hb, Ha. cbn [ColorGenerator.includeBlackWhite params] in Hcolors.
  cbn [ColorGenerator.smartSpacing ColorGenerator.contrast
       ColorGenerator.colorCount params] in Hb, Ha.
  rewrite splitPoints_even_ten in Hb, Ha. cbn [fst snd] in Hb, Ha.
  unfold Invariants.arcLengths. rewrite Hcolors, !map_app, Hb, Ha.
  cbn [map]. rewrite Hsel.
  change (ColorGenerator.upTo 4) with [0%Z; 1%Z; 2%Z; 3%Z].
  change (ColorGenerator.upTo 5) with [0%Z; 1%Z; 2%Z; 3%Z; 4%Z].
  cbn [map app length]. split; [reflexivity|].
  rewrite useContrastMode_unit.
  unfold ColorGenerator._calculateArcLength at 1 2. cbn [negb].
  replace (0 / (IZR 4 + 1) * (IZR 0 + 1)) with 0 by (unfold Rdiv; ring).
  replace (0 / (IZR 4 + 1) * (IZR 1 + 1)) with 0 by (unfold Rdiv; ring).
  apply occursOnce_repeated.
Qed.

(** ** Smart spacing and contrast *)

Lemma Rpower_above_base (b e : R) : 0 < b < 1 -> e < 1 -> b < Rpower b e.
Proof.
  intros Hb He. pose proof (ln_neg b Hb) as Hln.
  unfold Rpower. rewrite <- (exp_ln b) at 1 by lra.
  apply exp_increasing. nra.
Qed.

Lemma calculateArcLength_full_contrast :
  1 / 2 < ColorGenerator._calculateArcLength 0 1 0 5 true false.
Proof.
  unfold ColorGenerator._calculateArcLength. cbn [negb]. cbv zeta.
  unfold ColorGenerator.contrastHighThreshold,
    ColorGenerator.maxContrastRange, ColorGenerator.contrastHighExponent.
  decide_cmp.
  replace (JS.Math_min ((5 - 1) / 4) 1) with 1
    by (unfold JS.Math_min, Rmin; destruct (Rle_dec ((5 - 1) / 4) 1); lra).
  replace ((IZR 0 + 1) / (IZR 1 + 1)) with (1 / 2) by lra.
  rewrite Math_pow_Rpower by lra.
  pose proof (Rpower_above_base (1 / 2) (1 / (15 / 10)) ltac:(lra) ltac:(lra)).
  lra.
Qed.

Lemma calculateArcLength_linear_half :
  ColorGenerator._calculateArcLength 0 1 0 1 false false = 1 / 2.
Proof. unfold ColorGenerator._calculateArcLength. cbn [negb]. lra. Qed.

Lemma splitPoints_three_contrast :
  ColorGenerator.splitPoints true (ColorGenerator.useContrastMode 5) 3 0
  = (1%Z, 1%Z).
Proof.
  rewrite useContrastMode_nonunit by lra. reflexivity.
Qed.

Lemma splitPoints_three_smart :
  ColorGenerator.splitPoints true (ColorGenerator.useContrastMode 1) 3 0
  = (1%Z, 1%Z).
Proof.
  rewrite useContrastMode_unit. unfold ColorGenerator.splitPoints.
  cbn [andb negb]. cbv zeta.
  assert (Hr : JS.Math_round (0 * IZR (3 - 1)) = 0%Z).
  { unfold JS.Math_round. apply Zfloor_eq. lra. }
  rewrite Hr. reflexivity.
Qed.

(** C2, as stated, fails in the engine: a request with the smart-spacing
    flag set and contrast 5.0 is not served as if its contrast were 1.0.
    With saturation 100, value 0 and count 3 the swatch after the anchor
    sits above arc length 1/2, where contrast 1.0 puts it. *)
Lemma smart_spacing_keeps_contrast :
  ColorGenerator.smartSpacing
    (ColorGenerator.mkParams 0 100 0 3 5 true false None) = true
  /\ option_map Invariants.arcLengths
       (ColorGenerator.generatePalette Invariants.plainHex
          (ColorGenerator.mkParams 0 100 0 3 5 true false None))
     <> option_map Invariants.arcLengths
          (ColorGenerator.generatePalette Invariants.plainHex
             (Invariants.withContrast 1
                (ColorGenerator.mkParams 0 100 0 3 5 true false None))).
Proof.
  split; [reflexivity|].
  change (Invariants.withContrast 1
            (ColorGenerator.mkParams 0 100 0 3 5 true false None))
    with (ColorGenerator.mkParams 0 100 0 3 1 true false None).
  set (p5 := ColorGenerator.mkParams 0 100 0 3 5 true false None).
  set (p1 := ColorGenerator.mkParams 0 100 0 3 1 true false None).
  destruct (generatePalette_shape Invariants.plainHex p5)
    as (arc5 & palette5 & before5 & selected5 & after5
        & Harc5 & _ & Hgen5 & Hcolors5 & Hsel5 & _ & Hb5 & Ha5).
  destruct (generatePalette_shape Invariants.plainHex p1)
    as (arc1 & palette1 & before1 & selected1 & after1
        & Harc1 & _ & Hgen1 & Hcolors1 & Hsel1 & _ & Hb1 & Ha1).
  rewrite (anchor_at_curve_start p5 eq_refl eq_refl) in Harc5.
  rewrite (anchor_at_curve_start p1 eq_refl eq_refl) in Harc1.
  injection Harc5 as <-. injection Harc1 as <-.
  cbv zeta in Hb5, Ha5, Hb1, Ha1.
  cbn [ColorGenerator.includeBlackWhite p5 p1] in Hcolors5, Hcolors1.
  cbn [ColorGenerator.smartSpacing ColorGenerator.contrast
       ColorGenerator.colorCount p5 p1] in Hb5, Ha5, Hb1, Ha1.
  rewrite splitPoints_three_contrast in Hb5, Ha5.
  rewrite splitPoints_three_smart in Hb1, Ha1.
  cbn [fst snd] in Hb5, Ha5, Hb1, Ha1.
  change (ColorGenerator.upTo 1) with [0%Z] in Hb5, Ha5, Hb1, Ha1.
  cbn [map] in Hb5, Ha5, Hb1, Ha1.
  rewrite useContrastMode_nonunit in Hb5, Ha5 by lra.
  rewrite useContrastMode_unit in Hb1, Ha1.
  rewrite Hgen5, Hgen1. cbn [option_map]. unfold Invariants.arcLengths.
  rewrite Hcolors5, Hcolors1, !map_app, Hb5, Ha5, Hb1, Ha1.
  cbn [map app]. intro Heq.
  assert (Hthird :
            ColorGenerator._calculateArcLength 0 1 0 5 true false
            = ColorGenerator._calculateArcLength 0 1 0 1 false false)
    by congruence.
  pose proof calculateArcLength_full_contrast.
  rewrite Hthird, calculateArcLength_linear_half in H. lra.
Qed.

Lemma generatePalette_ignores_flag (hsvToHex : R -> R -> R -> string)
    (params : ColorGenerator.Params) :
  ColorGenerator.contrast params <> 1 ->
  ColorGenerator.generatePalette hsvToHex params
  = ColorGenerator.generatePalette hsvToHex
      (Invariants.withSmartSpacing false params).
Proof.
  intro Hc. destruct params as [h s v count c smart bw sc].
  cbn [ColorGenerator.contrast] in Hc.
  unfold ColorGenerator.generatePalette, Invariants.withSmartSpacing.
  cbn [ColorGenerator.hue ColorGenerator.saturation ColorGenerator.value
       ColorGenerator.colorCount ColorGenerator.contrast
       ColorGenerator.smartSpacing ColorGenerator.includeBlackWhite
       ColorGenerator.saturationControl].
  rewrite (useContrastMode_nonunit c Hc).
  unfold ColorGenerator.splitPoints. cbn [negb andb].
  rewrite andb_false_r. reflexivity.
Qed.

Lemma calculateArcLength_unit_contrast (i total : Z) (arc : R)
    (isBefore : bool) :
  ColorGenerator._calculateArcLength i total arc 1
    (ColorGenerator.useContrastMode 1) isBefore
  = Invariants.linearArcLength i total arc isBefore.
Proof. rewrite useContrastMode_unit. reflexivity. Qed.

Lemma toggle_on (w : UIController.World) :
  UIController.smartSpacingButtonActive w = false ->
  AppState.smartSpacing
    (AppState.features
       (UIController.state (UIController._handleFeatureToggle_smartSpacing w)))
  = true
  /\ AppState.contrast
       (UIController.state (UIController._handleFeatureToggle_smartSpacing w))
     = 1
  /\ exists earlier,
       UIController.requests (UIController._handleFeatureToggle_smartSpacing w)
       = earlier
         ++ [UIController.requestOf
               (UIController.state
                  (UIController._handleFeatureToggle_smartSpacing w))].
Proof.
  intro Hb. destruct w as [st button disabled drag reqs].
  cbn [UIController.smartSpacingButtonActive] in Hb. subst button.
  cbn. repeat split. eexists. reflexivity.
Qed.

Lemma handle_at_rest (e : UIController.Event) (w : UIController.World) :
  Invariants.AtRest w -> Invariants.AtRest (UIController.handle e w).
Proof.
  unfold Invariants.AtRest. intro Hw.
  destruct w as [[h s v sc count c [f1 f2 f3 smart f5]] button disabled drag
                   reqs].
  cbn in Hw.
  destruct e as [| parsed | | finalValue | | ph ps pv pc psat];
    cbn [UIController.handle].
  - unfold UIController._handleFeatureToggle_smartSpacing.
    destruct button; cbn; intro H; [discriminate | reflexivity].
  - unfold UIController.contrastInput_input.
    set (value := UIController.clampContrast parsed).
    cbn. unfold JS.neqb.
    destruct (JS.eqb value 1) eqn:Hv; cbn.
    + intros _. now apply eqb_true_iff in Hv.
    + destruct smart; cbn; intro H; discriminate.
  - cbn. destruct smart; cbn; exact Hw.
  - cbn [UIController.dragActive]. destruct drag; [|exact Hw].
    unfold UIController.contrastDrag_onUpdate. cbn. unfold JS.neqb.
    destruct (JS.eqb finalValue 1) eqn:Hv; cbn.
    + intros _. now apply eqb_true_iff in Hv.
    + destruct smart; cbn; intro H; discriminate.
  - cbn. exact Hw.
  - unfold UIController.applyPreset. cbn.
    destruct smart; cbn; intro H; discriminate.
Qed.

Lemma run_at_rest (events : list UIController.Event) (w : UIController.World) :
  Invariants.AtRest w -> Invariants.AtRest (UIController.run events w).
Proof.
  revert w. unfold UIController.run.
  induction events as [|e events IH]; intros w Hw; [exact Hw|].
  simpl. apply IH. now apply handle_at_rest.
Qed.

(** C2.  The smart-spacing split is never combined with the
    contrast-warped formula.  A request whose contrast differs from 1.0 is
    served exactly as if the smart-spacing flag were off (the flag is
    ignored, the contrast is kept); with contrast 1.0 every per-point arc
    length comes from the linear formula.  In the interface, switching the
    smart-spacing button on leaves the state with smart spacing on and
    contrast 1.0, and the last request issued carries that state; and after
    any sequence of the user actions that touch the contrast or the flag,
    smart spacing on implies contrast 1.0. *)
Theorem smart_split_excludes_contrast_warp
    (hsvToHex : R -> R -> R -> string) (params : ColorGenerator.Params) :
  (ColorGenerator.contrast params <> 1 ->
   ColorGenerator.generatePalette hsvToHex params
   = ColorGenerator.generatePalette hsvToHex
       (Invariants.withSmartSpacing false params))
  /\ (ColorGenerator.contrast params = 1 ->
      forall (i total : Z) (arc : R) (isBefore : bool),
        ColorGenerator._calculateArcLength i total arc
          (ColorGenerator.contrast params)
          (ColorGenerator.useContrastMode (ColorGenerator.contrast params))
          isBefore
        = Invariants.linearArcLength i total arc isBefore)
  /\ (forall w : UIController.World,
        UIController.smartSpacingButtonActive w = false ->
        AppState.smartSpacing
          (AppState.features
             (UIController.state
                (UIController.handle UIController.ClickSmartSpacing w)))
        = true
        /\ AppState.contrast
             (UIController.state
                (UIController.handle UIController.ClickSmartSpacing w))
           = 1
        /\ exists earlier,
             UIController.requests
               (UIController.handle UIController.ClickSmartSpacing w)
             = earlier
               ++ [UIController.requestOf
                     (UIController.state
                        (UIController.handle UIController.ClickSmartSpacing
                           w))])
  /\ (forall events : list UIController.Event,
        Invariants.AtRest (UIController.run events UIController.initial)).
Proof.
  split; [apply generatePalette_ignores_flag|].
  split; [intros -> i total arc isBefore;
          apply calculateArcLength_unit_contrast|].
  split; [intros w Hw; exact (toggle_on w Hw)|].
  intro events. apply run_at_rest. intro H. reflexivity.
Qed.

(** The interface itself issues a request with smart spacing on and a
    contrast other than 1.0: typing 2 into the contrast field and then
    switching smart spacing on regenerates the palette once before the
    contrast is reset. *)
Lemma toggle_regenerates_before_reset :
  exists request,
    In request
      (UIController.requests
         (UIController.run
            [UIController.ContrastInput (Some 2);
             UIController.ClickSmartSpacing]
            UIController.initial))
    /\ ColorGenerator.smartSpacing request = true
    /\ ColorGenerator.contrast request = 2.
Proof.
  assert (Hclamp : UIController.clampContrast (Some 2) = 2).
  { unfold UIController.clampContrast, CONFIG.CONTRAST_MIN,
      CONFIG.CONTRAST_MAX, JS.Math_max, JS.Math_min, Rmax, Rmin.
    decide_cmp.
    destruct (Rle_dec 5 2); [lra|]. destruct (Rle_dec (1 / 10) 2); lra. }
  unfold UIController.run. cbn [fold_left UIController.handle].
  unfold UIController.contrastInput_input. rewrite Hclamp.
  unfold JS.neqb. decide_cmp. cbn.
  eexists. split.
  - right. right. left. reflexivity.
  - split; reflexivity.
Qed.

(** ** The theorems at concrete inputs *)

Lemma findExponent_residual_bound_witness :
  CONFIG.SUPERELLIPSE_N_MIN <= SuperellipseMath.findExponent (1 / 2) (1 / 2)
    <= CONFIG.SUPERELLIPSE_N_MAX
  /\ Rabs (Rpower (1 / 2) (SuperellipseMath.findExponent (1 / 2) (1 / 2))
           + Rpower (1 / 2) (SuperellipseMath.findExponent (1 / 2) (1 / 2))
           - 1)
     < 1 / 100.
Proof.
  apply findExponent_residual_bound;
    [lra | lra | rewrite !Rpower_25 by lra; lra].
Defined.

Lemma smart_split_excludes_contrast_warp_witness :
  ColorGenerator.generatePalette Invariants.plainHex
    (ColorGenerator.mkParams 0 100 0 3 5 true false None)
  = ColorGenerator.generatePalette Invariants.plainHex
      (Invariants.withSmartSpacing false
         (ColorGenerator.mkParams 0 100 0 3 5 true false None)).
Proof.
  apply (proj1 (smart_split_excludes_contrast_warp Invariants.plainHex
                  (ColorGenerator.mkParams 0 100 0 3 5 true false None))).
  cbn [ColorGenerator.contrast]. lra.
Defined.

Lemma distribution_count_and_anchor_witness :
  exists arc palette,
    Invariants.anchorArcLength
      (ColorGenerator.mkParams 220 81 78 10 1 false false (Some 100))
    = Some arc
    /\ ColorGenerator.generatePalette Invariants.plainHex
         (ColorGenerator.mkParams 220 81 78 10 1 false false (Some 100))
       = Some palette
    /\ length (Invariants.arcLengths palette) = 10%nat
    /\ In arc (Invariants.arcLengths palette)
    /\ (0 < arc < 1 -> Spec.occursOnce arc (Invariants.arcLengths palette))
    /\ (10%Z = 1%Z ->
        exists anchor,
          ColorGenerator.colors palette = [anchor]
          /\ ColorGenerator.isSelected anchor = true
          /\ ColorGenerator.arcLength anchor = arc).
Proof.
  apply (distribution_count_and_anchor Invariants.plainHex
           (ColorGenerator.mkParams 220 81 78 10 1 false false (Some 100)));
    [cbn [ColorGenerator.colorCount]; lia | reflexivity].
Defined.

Lemma generateCurvePoints_normalized_profile_witness :
  exists first rest,
    SuperellipseMath.generateCurvePoints 2 = first :: rest
    /\ StronglySorted Rle
         (map SuperellipseMath.normalizedArcLength (first :: rest))
    /\ SuperellipseMath.normalizedArcLength first = 0
    /\ SuperellipseMath.normalizedArcLength (last (first :: rest) first) = 1.
Proof. apply generateCurvePoints_normalized_profile. lra. Defined.

Lemma smart_spacing_split_witness :
  ColorGenerator.splitPoints true (ColorGenerator.useContrastMode 1) 10
    (1 / 2)
  = Spec.smartSplit 10 (1 / 2).
Proof. exact (proj1 (smart_spacing_split 10 (1 / 2) 1 eq_refl)). Defined.

Lemma even_split_without_smart_spacing_witness :
  ColorGenerator.splitPoints false false 10 (81 / 100)
  = (Spec.ceilHalf 10, Spec.floorHalf 10).
Proof.
  apply (proj1 (proj1 (proj2 (even_split_without_smart_spacing 10
                                (81 / 100) false))
                  eq_refl)).
  lra.
Defined.

Lemma calculateArcLength_contrast_formula_witness :
  ColorGenerator._calculateArcLength 0 4 (1 / 2) 5
    (ColorGenerator.useContrastMode 5) true
  = Spec.contrastArcLength 0 4 (1 / 2) 5 true.
Proof. apply calculateArcLength_contrast_formula. lra. Defined.

Lemma black_white_endpoints_witness :
  exists palette inner,
    ColorGenerator.generatePalette Invariants.plainHex
      (ColorGenerator.mkParams 220 81 78 10 1 false true (Some 100))
    = Some palette
    /\ ColorGenerator.colors palette
       = ColorGenerator.blackSwatch :: inner ++ [ColorGenerator.whiteSwatch]
    /\ length (ColorGenerator.colors palette) = 12%nat
    /\ (ColorGenerator.isBlack ColorGenerator.blackSwatch = true
        /\ ColorGenerator.arcLength ColorGenerator.blackSwatch = 0
        /\ ColorGenerator.s ColorGenerator.blackSwatch / 100 = 0
        /\ ColorGenerator.v ColorGenerator.blackSwatch / 100 = 0)
    /\ (ColorGenerator.isWhite ColorGenerator.whiteSwatch = true
        /\ ColorGenerator.arcLength ColorGenerator.whiteSwatch = 1
        /\ ColorGenerator.s ColorGenerator.whiteSwatch / 100 = 0
        /\ ColorGenerator.v ColorGenerator.whiteSwatch / 100 = 1).
Proof.
  apply (black_white_endpoints Invariants.plainHex
           (ColorGenerator.mkParams 220 81 78 10 1 false true (Some 100)));
    reflexivity.
Defined.

Lemma findPointAtArcLength_boundaries_witness :
  SuperellipseMath.findPointAtArcLength (-1)
    [SuperellipseMath.mkCurvePoint 0 1 0 180 180 0 0;
     SuperellipseMath.mkCurvePoint 1 0 1 0 0 2 1]
  = Some (SuperellipseMath.Sample
            (SuperellipseMath.mkCurvePoint 0 1 0 180 180 0 0))
  /\ SuperellipseMath.findPointAtArcLength 2
       [SuperellipseMath.mkCurvePoint 0 1 0 180 180 0 0;
        SuperellipseMath.mkCurvePoint 1 0 1 0 0 2 1]
     = Some (SuperellipseMath.Sample
               (SuperellipseMath.mkCurvePoint 1 0 1 0 0 2 1)).
Proof.
  split.
  - apply (proj1 (findPointAtArcLength_boundaries (-1)
                    (SuperellipseMath.mkCurvePoint 0 1 0 180 180 0 0)
                    [SuperellipseMath.mkCurvePoint 1 0 1 0 0 2 1])).
    lra.
  - apply (proj1 (proj2 (findPointAtArcLength_boundaries 2
                    (SuperellipseMath.mkCurvePoint 0 1 0 180 180 0 0)
                    [SuperellipseMath.mkCurvePoint 1 0 1 0 0 2 1]))).
    lra.
Defined.

Lemma curve_generators_keep_every_sample_witness :
  SuperellipseMath.sampleBody (fun t => t) (fun t => t)
    (fold_left (SuperellipseMath.sampleStep (fun t => t) (fun t => t))
       (seq 0 0) ([], 0)) 0
  <> None.
Proof.
  apply (proj2 (proj2 (proj2 (proj2
           (curve_generators_keep_every_sample 2 2 100))))).
  apply Nat.le_0_l.
Defined.

(* ================================================================== *)
(** * Further properties of the curve engine *)

(** ** findExponent on every input *)

(** For every pair of coordinates, inside or outside the unit square,
    findExponent returns an exponent in [N_MIN, N_MAX]. *)
Theorem findExponent_in_bounds (x y : R) :
  CONFIG.SUPERELLIPSE_N_MIN <= SuperellipseMath.findExponent x y
    <= CONFIG.SUPERELLIPSE_N_MAX.
Proof.
  unfold SuperellipseMath.findExponent.
  assert (Hb : CONFIG.SUPERELLIPSE_N_MIN <= CONFIG.SUPERELLIPSE_N_MAX)
    by (unfold CONFIG.SUPERELLIPSE_N_MIN, CONFIG.SUPERELLIPSE_N_MAX; lra).
  destruct (_ && _); [lra|]. destruct (_ || _); [lra|].
  destruct (_ && _); [lra|].
  apply bisect_range; lra.
Qed.

Lemma bisect_symmetric (k : nat) (x y nMin nMax : R) :
  SuperellipseMath.bisect k x y nMin nMax
  = SuperellipseMath.bisect k y x nMin nMax.
Proof.
  revert nMin nMax. induction k as [|k IH]; intros nMin nMax;
    cbn [SuperellipseMath.bisect]; cbv zeta; [reflexivity|].
  rewrite (Rplus_comm (JS.Math_pow x ((nMin + nMax) / 2))).
  rewrite (Rplus_comm (JS.Math_pow x nMin)).
  rewrite !IH. reflexivity.
Qed.

(** The fitted exponent does not depend on the order of the two
    coordinates: the curve through (x, y) is the curve through (y, x). *)
Theorem findExponent_symmetric (x y : R) :
  SuperellipseMath.findExponent x y = SuperellipseMath.findExponent y x.
Proof.
  unfold SuperellipseMath.findExponent.
  rewrite (andb_comm (x <=? _)), (orb_comm (x <=? _)),
    (andb_comm (x >=? _)), bisect_symmetric.
  reflexivity.
Qed.

(** ** The samples of the generated curves *)

Lemma normalizeByIndex_coordinates (len start : nat)
    (points : list SuperellipseMath.RawPoint) :
  map Invariants.coordinates
    (SuperellipseMath.normalizeByIndex len start points)
  = map Invariants.rawCoordinates points.
Proof.
  revert start. induction points as [|p rest IH]; intro start; simpl;
    [reflexivity | now rewrite IH].
Qed.

Lemma normalize_coordinates (st : SuperellipseMath.SamplerState) :
  map Invariants.coordinates (SuperellipseMath.normalize st)
  = map Invariants.rawCoordinates (fst st).
Proof.
  destruct st as [points total]. unfold SuperellipseMath.normalize.
  destruct (total >? 0); cbn [fst].
  - rewrite map_map. reflexivity.
  - apply normalizeByIndex_coordinates.
Qed.

Lemma sampled_curve_coordinates (curveX curveY : R -> R) :
  map Invariants.coordinates
    (SuperellipseMath.normalize (SuperellipseMath.sampleLoop curveX curveY))
  = map (Invariants.sampleCoordinates curveX curveY)
      (seq 0 (CONFIG.CURVE_RESOLUTION + 1)).
Proof. rewrite normalize_coordinates. apply sampleLoop_coordinates. Qed.

Lemma coordinates_Forall (curveX curveY : R -> R) (len : nat)
    (P : R * R * R * R * R -> Prop)
    (curve : list SuperellipseMath.CurvePoint) :
  (forall i, (i < len)%nat ->
             P (Invariants.sampleCoordinates curveX curveY i)) ->
  map Invariants.coordinates curve
  = map (Invariants.sampleCoordinates curveX curveY) (seq 0 len) ->
  Forall (fun p => P (Invariants.coordinates p)) curve.
Proof.
  intros HP Hmap.
  apply (Forall_map Invariants.coordinates P curve).
  rewrite Hmap. apply Forall_map. apply Forall_forall.
  intros i Hi. apply in_seq in Hi. apply HP. lia.
Qed.




(** ** Where the curves start, and how far the desaturated one reaches *)

Lemma Math_pow_one (e : R) : JS.Math_pow 1 e = 1.
Proof.
  unfold JS.Math_pow. destruct (Req_dec_T e 0); [reflexivity|].
  destruct (Rlt_dec 0 1); [|lra].
  unfold Rpower. now rewrite ln_1, Rmult_0_r, exp_0.
Qed.

Lemma Math_pow_zero (e : R) : 0 < e -> JS.Math_pow 0 e = 0.
Proof.
  intro He. unfold JS.Math_pow. destruct (Req_dec_T e 0); [lra|].
  destruct (Rlt_dec 0 0); [lra | reflexivity].
Qed.

Lemma Math_pow_unit (b e : R) :
  0 <= b <= 1 -> 0 < e -> 0 <= JS.Math_pow b e <= 1.
Proof.
  intros [Hb0 Hb1] He.
  destruct (Req_dec_T b 0) as [-> | Hnz].
  - rewrite Math_pow_zero by assumption. lra.
  - assert (Hb : 0 < b) by lra.
    rewrite Math_pow_Rpower by assumption. unfold Rpower. split.
    + left. apply exp_pos.
    + rewrite <- exp_0. apply exp_monotone.
      assert (ln b <= 0).
      { destruct (Req_dec_T b 1) as [-> | Hn1]; [rewrite ln_1; lra|].
        left. apply ln_neg. lra. }
      nra.
Qed.

Lemma clamp_id (a : R) : 0 <= a <= 1 -> JS.Math_max 0 (JS.Math_min 1 a) = a.
Proof.
  intros [H0 H1]. unfold JS.Math_max, JS.Math_min.
  rewrite Rmin_right by assumption. now rewrite Rmax_right.
Qed.

Lemma secondary_exponent_pos (nMain saturationPercent : R) :
  0 < nMain -> 0 <= saturationPercent <= 100 ->
  0 < 2 / (1 + (nMain - 1) * (saturationPercent / 100)).
Proof.
  intros Hn Hs.
  assert (0 < 1 + (nMain - 1) * (saturationPercent / 100)) by nra.
  apply Rdiv_lt_0_compat; lra.
Qed.

Lemma compression_unit (saturationPercent : R) :
  0 <= saturationPercent <= 100 ->
  0 < JS.Math_max SuperellipseMath.minCompressionFactor
        (saturationPercent / 100) <= 1.
Proof.
  intro Hs. unfold JS.Math_max, SuperellipseMath.minCompressionFactor, Rmax.
  destruct (Rle_dec (5 / 1000) (saturationPercent / 100)); lra.
Qed.

Lemma normalize_arcLength (st : SuperellipseMath.SamplerState)
    (c : SuperellipseMath.CurvePoint) :
  hd_error (SuperellipseMath.normalize st) = Some c ->
  exists p, hd_error (fst st) = Some p
            /\ Invariants.coordinates c = Invariants.rawCoordinates p
            /\ SuperellipseMath.arcLength c = SuperellipseMath.raw_arcLength p.
Proof.
  destruct st as [points total]. unfold SuperellipseMath.normalize.
  destruct (total >? 0); destruct points as [|p rest]; cbn;
    try discriminate; intro H; injection H as <-; exists p; auto.
Qed.

(** The first sample of a curve whose two coordinate functions give
    [x0] and [y0] in [0, 1] at [t = 0]. *)
Lemma sampled_curve_head (curveX curveY : R -> R) (x0 y0 : R) :
  curveX 0 = x0 -> curveY 0 = y0 -> 0 <= x0 <= 1 -> 0 <= y0 <= 1 ->
  hd_error
    (SuperellipseMath.normalize (SuperellipseMath.sampleLoop curveX curveY))
  = Some (SuperellipseMath.mkCurvePoint 0 x0 y0
            (x0 * CONFIG.PALETTE_SIZE) ((1 - y0) * CONFIG.PALETTE_SIZE) 0 0).
Proof.
  intros Hx Hy Hx0 Hy0.
  pose proof (sampled_curve_ok curveX curveY) as Hok.
  set (curve := SuperellipseMath.normalize _) in *.
  destruct (CurveOk_cons 401 curve ltac:(lia) Hok) as [first [rest Heq]].
  assert (Hhd : hd_error curve = Some first) by (rewrite Heq; reflexivity).
  rewrite Hhd. f_equal.
  pose proof (Invariants.ok_first _ _ Hok first Hhd) as Hnal.
  destruct (normalize_arcLength _ first Hhd) as [p [Hp [Hco Harc]]].
  pose proof (Invariants.inv_first _ _ (sampleLoop_inv curveX curveY) p Hp)
    as Hp0.
  pose proof (sampled_curve_coordinates curveX curveY) as Hmap.
  fold curve in Hmap. rewrite Heq in Hmap.
  replace (CONFIG.CURVE_RESOLUTION + 1)%nat
    with (S CONFIG.CURVE_RESOLUTION) in Hmap by lia.
  rewrite <- cons_seq in Hmap. cbn [map] in Hmap.
  pose proof (f_equal (hd (Invariants.coordinates first)) Hmap) as Hfirst.
  cbn [hd] in Hfirst. clear Hmap.
  unfold Invariants.coordinates, Invariants.sampleCoordinates in Hfirst.
  cbv zeta in Hfirst. rewrite sampleParameter_zero, Hx, Hy in Hfirst.
  rewrite !clamp_id in Hfirst by assumption.
  destruct first as [ft fx fy fpx fpy farc fnal].
  cbn [SuperellipseMath.t SuperellipseMath.x SuperellipseMath.y
       SuperellipseMath.pixelX SuperellipseMath.pixelY
       SuperellipseMath.arcLength SuperellipseMath.normalizedArcLength]
    in *.
  injection Hfirst as -> -> -> -> ->. subst fnal. rewrite Harc, Hp0.
  reflexivity.
Qed.

(** For a positive exponent the main curve starts at full saturation and
    zero brightness: its first sample is t = 0, (x, y) = (1, 0), pixel
    (180, 180), at arc length 0.  For a saturation percentage in [0, 100]
    the desaturated curve starts at (a, 0), with a the compression factor
    max(0.005, saturationPercent / 100). *)
Theorem curves_start_at_zero_brightness (n nMain saturationPercent : R) :
  0 < n -> 0 < nMain -> 0 <= saturationPercent <= 100 ->
  hd_error (SuperellipseMath.generateCurvePoints n)
  = Some (SuperellipseMath.mkCurvePoint 0 1 0 (1 * 180) ((1 - 0) * 180) 0 0)
  /\ hd_error
       (SuperellipseMath.generateDesaturatedCurve nMain saturationPercent)
     = Some (SuperellipseMath.mkCurvePoint 0
               (Rmax (5 / 1000) (saturationPercent / 100)) 0
               (Rmax (5 / 1000) (saturationPercent / 100) * 180)
               ((1 - 0) * 180) 0 0).
Proof.
  intros Hn Hm Hs. split.
  - apply (sampled_curve_head _ _ 1 0); try lra.
    + unfold JS.Math_cos. rewrite cos_0. apply Math_pow_one.
    + unfold JS.Math_sin. rewrite sin_0. apply Math_pow_zero.
      apply Rdiv_lt_0_compat; lra.
  - pose proof (compression_unit saturationPercent Hs) as Ha.
    unfold JS.Math_max, SuperellipseMath.minCompressionFactor in Ha.
    apply (sampled_curve_head _ _
             (Rmax (5 / 1000) (saturationPercent / 100)) 0); try lra.
    + unfold JS.Math_cos. rewrite cos_0, Math_pow_one.
      unfold JS.Math_max, SuperellipseMath.minCompressionFactor. lra.
    + unfold JS.Math_sin. rewrite sin_0. apply Math_pow_zero.
      now apply secondary_exponent_pos.
Qed.

Lemma sampleParameter_quarter (i : nat) :
  (i <= CONFIG.CURVE_RESOLUTION)%nat ->
  0 <= SuperellipseMath.sampleParameter i <= PI / 2.
Proof.
  intro Hi. unfold SuperellipseMath.sampleParameter, JS.Math_PI.
  pose proof PI_RGT_0 as Hpi.
  assert (Hres : 0 < INR CONFIG.CURVE_RESOLUTION).
  { apply lt_0_INR. unfold CONFIG.CURVE_RESOLUTION. lia. }
  pose proof (pos_INR i) as Hi0. apply le_INR in Hi.
  assert (Hr : 0 <= INR i / INR CONFIG.CURVE_RESOLUTION <= 1).
  { split.
    - apply Rmult_le_pos; [assumption|]. left. now apply Rinv_0_lt_compat.
    - apply Rmult_le_reg_r with (INR CONFIG.CURVE_RESOLUTION); [assumption|].
      unfold Rdiv. rewrite Rmult_assoc, Rinv_l by lra. lra. }
  set (r := INR i / INR CONFIG.CURVE_RESOLUTION) in *.
  split; nra.
Qed.

(** For a positive main exponent and a saturation percentage in [0, 100]
    no sample of the desaturated curve has an x (saturation) above the
    compression factor a = max(0.005, saturationPercent / 100). *)
Theorem desaturated_curve_is_capped (nMain saturationPercent : R) :
  0 < nMain -> 0 <= saturationPercent <= 100 ->
  Forall
    (fun p =>
       SuperellipseMath.x p <= Rmax (5 / 1000) (saturationPercent / 100))
    (SuperellipseMath.generateDesaturatedCurve nMain saturationPercent).
Proof.
  intros Hn Hs.
  pose proof (compression_unit saturationPercent Hs) as Ha.
  pose proof (secondary_exponent_pos nMain saturationPercent Hn Hs) as He.
  unfold SuperellipseMath.generateDesaturatedCurve. cbv zeta.
  match goal with
  | |- Forall _ (SuperellipseMath.normalize
                   (SuperellipseMath.sampleLoop ?cx ?cy)) =>
      apply (coordinates_Forall cx cy (CONFIG.CURVE_RESOLUTION + 1)
               (fun c =>
                  let '(_, px, _, _, _) := c in
                  px <= Rmax (5 / 1000) (saturationPercent / 100)));
        [|apply sampled_curve_coordinates]
  end.
  intros i Hi. unfold Invariants.sampleCoordinates. cbv zeta.
  pose proof (sampleParameter_quarter i ltac:(lia)) as [Ht0 Ht1].
  set (t := SuperellipseMath.sampleParameter i) in *.
  assert (Hcos : 0 <= JS.Math_cos t <= 1).
  { unfold JS.Math_cos. split.
    - apply cos_ge_0; lra.
    - apply COS_bound. }
  pose proof (Math_pow_unit _ _ Hcos He) as Hpow.
  unfold JS.Math_max, SuperellipseMath.minCompressionFactor in *.
  set (a := Rmax (5 / 1000) (saturationPercent / 100)) in *.
  set (w := JS.Math_pow (JS.Math_cos t) _) in *.
  assert (Haw : a * w <= a) by nra.
  unfold JS.Math_min.
  apply Rmax_lub; [lra|].
  apply Rle_trans with (a * w); [apply Rmin_r | exact Haw].
Qed.

(** ** findPointAtArcLength between the boundaries *)

Lemma last_cons_cons {A : Type} (a b d : A) (l : list A) :
  last (a :: b :: l) d = last (b :: l) d.
Proof. reflexivity. Qed.

(** On samples whose arc lengths never decrease, a query between the
    first and the last arc length is bracketed by two consecutive
    samples. *)
Lemma bracketScan_finds (q : R) (first : SuperellipseMath.CurvePoint)
    (rest : list SuperellipseMath.CurvePoint) :
  rest <> [] ->
  SuperellipseMath.normalizedArcLength first <= q ->
  q <= SuperellipseMath.normalizedArcLength (last (first :: rest) first) ->
  exists fx fy,
    SuperellipseMath.bracketScan q (first :: rest)
    = Some (SuperellipseMath.Fresh fx fy q).
Proof.
  revert first. induction rest as [|curr rest IH]; intros first Hne Hlo Hhi;
    [contradiction|].
  cbn [SuperellipseMath.bracketScan].
  rewrite (proj2 (geb_true_iff q _) Hlo). cbn [andb].
  destruct (q <=? SuperellipseMath.normalizedArcLength curr) eqn:Hq.
  - eexists _, _. reflexivity.
  - apply leb_false_iff in Hq.
    destruct rest as [|next rest'].
    + cbn [last] in Hhi. lra.
    + apply IH; [discriminate | lra |].
      rewrite last_cons_cons in Hhi.
      replace (last (curr :: next :: rest') curr)
        with (last (next :: rest') first); [exact Hhi|].
      rewrite last_cons_cons. clear. revert next.
      induction rest' as [|c r IHr]; intro next; [reflexivity|].
      rewrite !(last_cons_cons next c). apply IHr.
Qed.

Lemma interior_lookup (q : R) (curve : list SuperellipseMath.CurvePoint) :
  Invariants.CurveOk 401 curve -> 0 < q < 1 ->
  exists fx fy,
    SuperellipseMath.findPointAtArcLength q curve
    = Some (SuperellipseMath.Fresh fx fy q).
Proof.
  intros Hok Hq.
  destruct (CurveOk_cons 401 curve ltac:(lia) Hok) as [first [rest ->]].
  pose proof (Invariants.ok_first _ _ Hok first eq_refl) as Hfirst.
  pose proof (Invariants.ok_last _ _ Hok first) as Hlast.
  assert (Hne : rest <> []).
  { intro E. subst rest. cbn [last] in Hlast. lra. }
  destruct (bracketScan_finds q first rest Hne) as [fx [fy Hscan]]; try lra.
  exists fx, fy. unfold SuperellipseMath.findPointAtArcLength.
  decide_cmp. now rewrite Hscan.
Qed.

(** For a query strictly between 0 and 1, findPointAtArcLength on a
    generated curve (main or desaturated) always finds a bracketing pair of
    samples: the fallback return after the scan is never reached, and the
    result is a fresh point that carries the query as its
    normalizedArcLength. *)
Theorem findPointAtArcLength_interior (q n nMain saturationPercent : R) :
  0 < q < 1 ->
  (exists fx fy,
     SuperellipseMath.findPointAtArcLength q
       (SuperellipseMath.generateCurvePoints n)
     = Some (SuperellipseMath.Fresh fx fy q))
  /\ (exists fx fy,
        SuperellipseMath.findPointAtArcLength q
          (SuperellipseMath.generateDesaturatedCurve nMain saturationPercent)
        = Some (SuperellipseMath.Fresh fx fy q)).
Proof.
  intro Hq. split; apply interior_lookup; try assumption.
  - apply generateCurvePoints_ok.
  - apply generateDesaturatedCurve_ok.
Qed.

Lemma bracketScan_at_sample (prefix : list SuperellipseMath.CurvePoint)
    (prev p : SuperellipseMath.CurvePoint)
    (suffix : list SuperellipseMath.CurvePoint) :
  StronglySorted Rlt
    (map SuperellipseMath.normalizedArcLength
       (prefix ++ prev :: p :: suffix)) ->
  SuperellipseMath.bracketScan (SuperellipseMath.normalizedArcLength p)
    (prefix ++ prev :: p :: suffix)
  = Some (SuperellipseMath.Fresh
            (SuperellipseMath.x prev
             + 1 * (SuperellipseMath.x p - SuperellipseMath.x prev))
            (SuperellipseMath.y prev
             + 1 * (SuperellipseMath.y p - SuperellipseMath.y prev))
            (SuperellipseMath.normalizedArcLength p)).
Proof.
  induction prefix as [|a prefix IH]; intro Hsorted.
  - cbn [app] in *. cbn [SuperellipseMath.bracketScan].
    cbn [map] in Hsorted. apply StronglySorted_inv in Hsorted.
    destruct Hsorted as [_ Hall]. inversion Hall as [|? ? Hlt _]; subst.
    decide_cmp. cbn [andb].
    replace ((SuperellipseMath.normalizedArcLength p
              - SuperellipseMath.normalizedArcLength prev)
             / (SuperellipseMath.normalizedArcLength p
                - SuperellipseMath.normalizedArcLength prev))
      with 1 by (field; lra).
    reflexivity.
  - cbn [app map] in Hsorted. apply StronglySorted_inv in Hsorted.
    destruct Hsorted as [Hrest Hall].
    specialize (IH Hrest).
    assert (Hin : In (SuperellipseMath.normalizedArcLength p)
                    (map SuperellipseMath.normalizedArcLength
                       (prefix ++ prev :: p :: suffix))).
    { apply in_map. apply in_or_app. right. right. left. reflexivity. }
    rewrite Forall_forall in Hall.
    pose proof (Hall _ Hin) as Hap.
    destruct prefix as [|b prefix'].
    + cbn [app] in *. cbn [SuperellipseMath.bracketScan].
      assert (Hprev : SuperellipseMath.normalizedArcLength prev
                      < SuperellipseMath.normalizedArcLength p).
      { cbn [map] in Hrest. apply StronglySorted_inv in Hrest.
        destruct Hrest as [_ Hall']. inversion Hall'; assumption. }
      cbn [SuperellipseMath.bracketScan] in IH.
      destruct ((_ >=? SuperellipseMath.normalizedArcLength a)
                && (_ <=? SuperellipseMath.normalizedArcLength prev)) eqn:Hb.
      * apply andb_true_iff in Hb. destruct Hb as [_ Hb].
        apply leb_true_iff in Hb. lra.
      * exact IH.
    + cbn [app] in *. cbn [SuperellipseMath.bracketScan].
      assert (Hb' : SuperellipseMath.normalizedArcLength b
                    < SuperellipseMath.normalizedArcLength p).
      { cbn [map] in Hrest. apply StronglySorted_inv in Hrest.
        destruct Hrest as [_ Hall']. rewrite Forall_forall in Hall'.
        apply Hall'. apply in_map. apply in_or_app. right. right. left.
        reflexivity. }
      rewrite (proj2 (leb_false_iff _ _) Hb'), andb_false_r.
      exact IH.
Qed.

(** Looking up the arc length of a sample returns that sample's position:
    on a curve whose arc lengths strictly increase, for every sample other
    than the first whose arc length lies strictly between 0 and 1,
    findPointAtArcLength at that arc length returns a point with the
    sample's x, y and arc length. *)
Theorem findPointAtArcLength_at_sample
    (prefix : list SuperellipseMath.CurvePoint)
    (prev p : SuperellipseMath.CurvePoint)
    (suffix : list SuperellipseMath.CurvePoint) :
  StronglySorted Rlt
    (map SuperellipseMath.normalizedArcLength
       (prefix ++ prev :: p :: suffix)) ->
  0 < SuperellipseMath.normalizedArcLength p < 1 ->
  exists found,
    SuperellipseMath.findPointAtArcLength
      (SuperellipseMath.normalizedArcLength p)
      (prefix ++ prev :: p :: suffix)
    = Some found
    /\ SuperellipseMath.loc_x found = SuperellipseMath.x p
    /\ SuperellipseMath.loc_y found = SuperellipseMath.y p
    /\ SuperellipseMath.loc_normalizedArcLength found
       = SuperellipseMath.normalizedArcLength p.
Proof.
  intros Hsorted Hq. unfold SuperellipseMath.findPointAtArcLength.
  decide_cmp. rewrite (bracketScan_at_sample _ _ _ _ Hsorted).
  eexists. split; [reflexivity|]. cbn. repeat split; ring.
Qed.

(** ** findClosestPoint is at least as close as every sample *)

Section ClosestIsNearest.

Variables targetX targetY : R.

Let sampleDist (p : SuperellipseMath.CurvePoint) : R :=
  Invariants.distSq targetX targetY (SuperellipseMath.Sample p).

Lemma coarseFold_min (entries : list (nat * SuperellipseMath.CurvePoint))
    (processed : list SuperellipseMath.CurvePoint)
    (st : SuperellipseMath.CoarseState) :
  ((processed = [] /\ snd (fst st) = None)
   \/ exists p d, fst (fst st) = Some p /\ snd (fst st) = Some d
                  /\ d = sampleDist p
                  /\ Forall (fun q => d <= sampleDist q) processed) ->
  let st' := fold_left (SuperellipseMath.coarseStep targetX targetY)
               entries st in
  (processed ++ map snd entries = [] /\ snd (fst st') = None)
  \/ exists p d, fst (fst st') = Some p /\ snd (fst st') = Some d
                 /\ d = sampleDist p
                 /\ Forall (fun q => d <= sampleDist q)
                      (processed ++ map snd entries).
Proof.
  revert processed st.
  induction entries as [|[i pt] entries IH]; intros processed st Hinv;
    cbn [fold_left map].
  - rewrite app_nil_r. exact Hinv.
  - replace (processed ++ snd (i, pt) :: map snd entries)
      with ((processed ++ [pt]) ++ map snd entries)
      by (rewrite <- app_assoc; reflexivity).
    apply IH. right.
    destruct st as [[cp md] ci]. cbn [fst snd] in Hinv.
    unfold SuperellipseMath.coarseStep.
    destruct Hinv as [[Hnil Hnone] | [p [d [Hcp [Hmd [Hd Hall]]]]]].
    + subst md processed. cbn [JS.lt_inf fst snd app].
      eexists _, _. repeat split.
      constructor; [|constructor].
      unfold sampleDist, Invariants.distSq. cbn. lra.
    + subst md cp. cbn [JS.lt_inf].
      match goal with |- context [JS.ltb ?a d] =>
        destruct (JS.ltb a d) eqn:Hlt; cbn [fst snd] end.
      * apply ltb_true_iff in Hlt. eexists _, _. repeat split.
        apply Forall_app. split.
        -- eapply Forall_impl; [|exact Hall]. cbn beta. intros q Hq.
           unfold sampleDist, Invariants.distSq in *. cbn in *. lra.
        -- constructor; [|constructor].
           unfold sampleDist, Invariants.distSq. cbn. lra.
      * apply ltb_false_iff in Hlt. exists p, d. repeat split; auto.
        apply Forall_app. split; [exact Hall|].
        constructor; [|constructor].
        unfold sampleDist, Invariants.distSq. cbn. exact Hlt.
Qed.

Lemma map_snd_combine_seq {A : Type} (start : nat) (l : list A) :
  map snd (combine (seq start (length l)) l) = l.
Proof.
  revert start. induction l as [|a l IH]; intro start; cbn;
    [reflexivity | now rewrite IH].
Qed.

Lemma coarsePass_min (curve : list SuperellipseMath.CurvePoint) :
  curve <> [] ->
  exists p d ci,
    SuperellipseMath.coarsePass targetX targetY curve = (Some p, Some d, ci)
    /\ In p curve /\ (ci < length curve)%nat
    /\ d = sampleDist p
    /\ Forall (fun q => d <= sampleDist q) curve.
Proof.
  intro Hne.
  assert (Hok : Invariants.CoarseOk curve
                  (SuperellipseMath.coarsePass targetX targetY curve)).
  { unfold SuperellipseMath.coarsePass. apply coarseFold_ok.
    - destruct curve as [|c0 crest]; [contradiction|].
      exists c0. cbn. repeat split; auto. lia.
    - apply Forall_forall. intros [i q] Hiq. cbn [fst snd]. split.
      + eapply in_combine_r; eauto.
      + apply in_combine_l in Hiq. apply in_seq in Hiq. lia. }
  destruct Hok as [p0 [Hp0 [Hin Hci]]].
  pose proof (coarseFold_min (combine (seq 0 (length curve)) curve) []
                (nth_error curve 0, None, 0%nat)
                (or_introl (conj eq_refl eq_refl))) as Hmin.
  cbv zeta in Hmin. rewrite map_snd_combine_seq in Hmin. cbn [app] in Hmin.
  fold (SuperellipseMath.coarsePass targetX targetY curve) in Hmin.
  destruct (SuperellipseMath.coarsePass targetX targetY curve)
    as [[cp md] ci].
  cbn [fst snd] in *.
  destruct Hmin as [[Hnil _] | [p [d [Hcp [Hmd [Hd Hall]]]]]];
    [contradiction|].
  rewrite Hcp in Hp0. injection Hp0 as <-.
  rewrite Hcp, Hmd. exists p, d, ci. auto.
Qed.

Lemma refineBody_min (curve : list SuperellipseMath.CurvePoint) (d0 : R)
    (st : SuperellipseMath.RefineState) (i : nat) :
  (exists found bd, st = (Some found, Some bd)
                    /\ bd = Invariants.distSq targetX targetY found
                    /\ bd <= d0) ->
  (i + 1 < length curve)%nat ->
  exists st',
    SuperellipseMath.refineBody targetX targetY curve st i = Some st'
    /\ exists found bd, st' = (Some found, Some bd)
                        /\ bd = Invariants.distSq targetX targetY found
                        /\ bd <= d0.
Proof.
  intros [found [bd [-> [Hbd Hle]]]] Hi.
  unfold SuperellipseMath.refineBody.
  destruct (nth_error curve i) as [p1|] eqn:H1;
    [|apply nth_error_None in H1; lia].
  destruct (nth_error curve (i + 1)) as [p2|] eqn:H2;
    [|apply nth_error_None in H2; lia].
  destruct (_ >? SuperellipseMath.minSegmentLength);
    [|eexists; split; [reflexivity | exists found, bd; auto]].
  cbn [JS.lt_inf].
  match goal with |- context [JS.ltb ?a bd] =>
    destruct (JS.ltb a bd) eqn:Hlt end.
  - apply ltb_true_iff in Hlt. eexists. split; [reflexivity|].
    eexists _, _. split; [reflexivity|]. split.
    + unfold Invariants.distSq. cbn. reflexivity.
    + lra.
  - eexists; split; [reflexivity | exists found, bd; auto].
Qed.

Lemma refineLoop_min (curve : list SuperellipseMath.CurvePoint) (d0 : R)
    (indices : list nat) (st : SuperellipseMath.RefineState) :
  (exists found bd, st = (Some found, Some bd)
                    /\ bd = Invariants.distSq targetX targetY found
                    /\ bd <= d0) ->
  Forall (fun i => (i + 1 < length curve)%nat) indices ->
  exists found bd,
    SuperellipseMath.refineLoop targetX targetY curve indices st
    = Some (Some found, Some bd)
    /\ bd = Invariants.distSq targetX targetY found /\ bd <= d0.
Proof.
  revert st. induction indices as [|i indices IH]; intros st Hst Hall.
  - destruct Hst as [found [bd [-> [Hbd Hle]]]].
    exists found, bd. auto.
  - inversion Hall as [|? ? Hi Hrest]; subst. cbn [SuperellipseMath.refineLoop].
    destruct (refineBody_min curve d0 st i Hst Hi) as [st1 [-> Hst1]].
    now apply IH.
Qed.

(** The point returned is no farther from the target than any sample. *)
Lemma findClosestPoint_min (curve : list SuperellipseMath.CurvePoint) :
  curve <> [] ->
  exists found,
    SuperellipseMath.findClosestPoint targetX targetY curve = Some found
    /\ Forall
         (fun q => Invariants.distSq targetX targetY found <= sampleDist q)
         curve.
Proof.
  intro Hne. unfold SuperellipseMath.findClosestPoint.
  destruct (coarsePass_min curve Hne)
    as (p & d & ci & -> & Hin & Hci & Hd & Hall).
  cbn [option_map].
  match goal with |- context [SuperellipseMath.refineLoop _ _ _ ?idx ?st] =>
    destruct (refineLoop_min curve d idx st) as (found & bd & -> & Hbd & Hle)
  end.
  - exists (SuperellipseMath.Sample p), d. repeat split; [exact Hd | lra].
  - apply Forall_forall. intros i Hi.
    apply indexRange_bounds in Hi; [|lia]. lia.
  - exists found. split; [reflexivity|].
    eapply Forall_impl; [|exact Hall]. cbn beta. intros q Hq. lra.
Qed.

End ClosestIsNearest.

(** On a non-empty curve findClosestPoint returns a point, and no sample
    of the curve is closer to the target than the returned point. *)
Theorem findClosestPoint_nearest (targetX targetY : R)
    (first : SuperellipseMath.CurvePoint)
    (rest : list SuperellipseMath.CurvePoint) :
  exists found,
    SuperellipseMath.findClosestPoint targetX targetY (first :: rest)
    = Some found
    /\ Forall
         (fun q =>
            Invariants.distSq targetX targetY found
            <= Invariants.distSq targetX targetY (SuperellipseMath.Sample q))
         (first :: rest).
Proof. apply findClosestPoint_min. discriminate. Qed.

(** A target that coincides with a sample of the curve is returned
    exactly: the result has the coordinates of the target. *)
Theorem findClosestPoint_on_sample (targetX targetY : R)
    (curve : list SuperellipseMath.CurvePoint)
    (p : SuperellipseMath.CurvePoint) :
  In p curve ->
  SuperellipseMath.x p = targetX -> SuperellipseMath.y p = targetY ->
  exists found,
    SuperellipseMath.findClosestPoint targetX targetY curve = Some found
    /\ SuperellipseMath.loc_x found = targetX
    /\ SuperellipseMath.loc_y found = targetY.
Proof.
  intros Hin Hx Hy.
  assert (Hne : curve <> []) by (intro E; subst; contradiction).
  destruct (findClosestPoint_min targetX targetY curve Hne)
    as [found [Hfound Hall]].
  exists found. split; [exact Hfound|].
  rewrite Forall_forall in Hall. specialize (Hall p Hin).
  unfold Invariants.distSq in Hall. cbn in Hall. rewrite Hx, Hy in Hall.
  pose proof (Rle_0_sqr (SuperellipseMath.loc_x found - targetX)) as H1.
  pose proof (Rle_0_sqr (SuperellipseMath.loc_y found - targetY)) as H2.
  unfold Rsqr in H1, H2.
  assert (Hz1 : (SuperellipseMath.loc_x found - targetX)
                * (SuperellipseMath.loc_x found - targetX) = 0) by lra.
  assert (Hz2 : (SuperellipseMath.loc_y found - targetY)
                * (SuperellipseMath.loc_y found - targetY) = 0) by lra.
  apply Rmult_integral in Hz1, Hz2. split; [destruct Hz1 | destruct Hz2]; lra.
Qed.

(* ================================================================== *)
(** * Further properties of the distributor *)

(** ** Per-point arc lengths stay on their side and keep their order *)

Lemma calculateArcLength_before_warp (i total : Z) (arc contrast : R)
    (useContrast : bool) :
  (0 <= total)%Z ->
  ColorGenerator._calculateArcLength i total arc contrast useContrast true
  = arc - arc * Invariants.warp useContrast contrast
                  ((IZR total - IZR i) / (IZR total + 1)).
Proof.
  intro Ht. assert (0 <= IZR total) by (apply IZR_le; lia).
  unfold ColorGenerator._calculateArcLength, Invariants.warp.
  destruct useContrast; cbn [negb]; [reflexivity|]. field. lra.
Qed.

Lemma calculateArcLength_after_warp (i total : Z) (arc contrast : R)
    (useContrast : bool) :
  (0 <= total)%Z ->
  ColorGenerator._calculateArcLength i total arc contrast useContrast false
  = arc + (1 - arc) * Invariants.warp useContrast contrast
                        ((IZR i + 1) / (IZR total + 1)).
Proof.
  intro Ht. assert (0 <= IZR total) by (apply IZR_le; lia).
  unfold ColorGenerator._calculateArcLength, Invariants.warp.
  destruct useContrast; cbn [negb]; [reflexivity|]. field. lra.
Qed.

Lemma Math_pow_base_lt (a b e : R) :
  0 < e -> 0 < a < b -> JS.Math_pow a e < JS.Math_pow b e.
Proof.
  intros He Hab. rewrite !Math_pow_Rpower by lra.
  now apply Rlt_Rpower_l.
Qed.

Lemma blend_lt (a b pa pb t : R) :
  a < b -> pa < pb -> 0 <= t <= 1 ->
  a * (1 - t) + pa * t < b * (1 - t) + pb * t.
Proof. intros. destruct (Req_dec_T t 0); [subst; lra | nra]. Qed.

(** The warp is strictly increasing on (0, 1] and maps (0, 1) into
    (0, 1). *)
Lemma warp_increasing (useContrast : bool) (contrast a b : R) :
  0 < a < b ->
  Invariants.warp useContrast contrast a
  < Invariants.warp useContrast contrast b.
Proof.
  intro Hab. unfold Invariants.warp.
  destruct useContrast; [|lra].
  unfold ColorGenerator.contrastHighThreshold,
    ColorGenerator.contrastLowThreshold, ColorGenerator.maxContrastRange,
    ColorGenerator.minContrastRange, ColorGenerator.contrastHighExponent,
    ColorGenerator.contrastLowExponent.
  destruct (contrast >? 1) eqn:Hhi.
  - apply gtb_true_iff in Hhi. apply blend_lt; [lra | |].
    + apply Math_pow_base_lt; lra.
    + apply Math_min_unit. lra.
  - destruct (contrast <? 1) eqn:Hlo; [|lra].
    apply ltb_true_iff in Hlo. apply blend_lt; [lra | |].
    + apply Math_pow_base_lt; lra.
    + apply Math_min_unit. lra.
Qed.

Lemma warp_one (useContrast : bool) (contrast : R) :
  Invariants.warp useContrast contrast 1 = 1.
Proof.
  unfold Invariants.warp. destruct useContrast; [|reflexivity].
  rewrite !Math_pow_one.
  destruct (contrast >? _); [ring|]. destruct (contrast <? _); [ring|].
  reflexivity.
Qed.

Lemma warp_unit (useContrast : bool) (contrast a : R) :
  0 < a < 1 -> 0 < Invariants.warp useContrast contrast a < 1.
Proof.
  intro Ha. split.
  - unfold Invariants.warp. destruct useContrast; [|lra].
    apply poweredDistance_pos. lra.
  - pose proof (warp_increasing useContrast contrast a 1 ltac:(lra)) as H.
    now rewrite warp_one in H.
Qed.

Lemma side_ratios (i j total : Z) :
  (0 <= i)%Z -> (i <= j)%Z -> (j < total)%Z ->
  0 < (IZR total - IZR j) / (IZR total + 1)
  /\ (IZR total - IZR j) / (IZR total + 1)
     <= (IZR total - IZR i) / (IZR total + 1)
  /\ (IZR total - IZR i) / (IZR total + 1) < 1
  /\ 0 < (IZR i + 1) / (IZR total + 1)
  /\ (IZR i + 1) / (IZR total + 1) <= (IZR j + 1) / (IZR total + 1)
  /\ (IZR j + 1) / (IZR total + 1) < 1
  /\ ((i < j)%Z ->
      (IZR total - IZR j) / (IZR total + 1)
      < (IZR total - IZR i) / (IZR total + 1)
      /\ (IZR i + 1) / (IZR total + 1) < (IZR j + 1) / (IZR total + 1)).
Proof.
  intros Hi Hij Hj.
  assert (Hi0 : 0 <= IZR i) by (apply IZR_le; lia).
  assert (Hij' : IZR i <= IZR j) by (apply IZR_le; lia).
  assert (Hj' : IZR j + 1 <= IZR total).
  { rewrite <- (plus_IZR j 1). apply IZR_le. lia. }
  assert (Hpos : 0 < / (IZR total + 1)) by (apply Rinv_0_lt_compat; lra).
  assert (Hone : (IZR total + 1) * / (IZR total + 1) = 1)
    by (apply Rinv_r; lra).
  unfold Rdiv. repeat split; try nra;
    match goal with Hlt : (i < j)%Z |- _ => apply IZR_lt in Hlt end; nra.
Qed.

(** Facts about the arc lengths of two points [i <= j] of one side. *)
Lemma side_arcLengths (i j total : Z) (arc contrast : R)
    (useContrast : bool) :
  0 <= arc <= 1 -> (0 <= i)%Z -> (i <= j)%Z -> (j < total)%Z ->
  let before k :=
    ColorGenerator._calculateArcLength k total arc contrast useContrast true
  in
  let after k :=
    ColorGenerator._calculateArcLength k total arc contrast useContrast false
  in
  (0 <= before i /\ before i <= before j /\ before j <= arc)
  /\ (arc <= after i /\ after i <= after j /\ after j <= 1)
  /\ (0 < arc -> 0 < before i /\ before j < arc
                 /\ ((i < j)%Z -> before i < before j))
  /\ (arc < 1 -> arc < after i /\ after j < 1
                 /\ ((i < j)%Z -> after i < after j)).
Proof.
  intros Harc Hi Hij Hj before after. subst before after. cbv beta.
  rewrite !calculateArcLength_before_warp, !calculateArcLength_after_warp
    by lia.
  destruct (side_ratios i j total Hi Hij Hj)
    as (Hb0 & Hb1 & Hb2 & Ha0 & Ha1 & Ha2 & Hstrict).
  set (bi := (IZR total - IZR i) / (IZR total + 1)) in *.
  set (bj := (IZR total - IZR j) / (IZR total + 1)) in *.
  set (ai := (IZR i + 1) / (IZR total + 1)) in *.
  set (aj := (IZR j + 1) / (IZR total + 1)) in *.
  pose proof (warp_unit useContrast contrast bi ltac:(lra)) as Hwbi.
  pose proof (warp_unit useContrast contrast bj ltac:(lra)) as Hwbj.
  pose proof (warp_unit useContrast contrast ai ltac:(lra)) as Hwai.
  pose proof (warp_unit useContrast contrast aj ltac:(lra)) as Hwaj.
  assert (Hwb : Invariants.warp useContrast contrast bj
                <= Invariants.warp useContrast contrast bi).
  { destruct Hb1 as [Hlt | Heq]; [|rewrite Heq; lra].
    left. apply warp_increasing. lra. }
  assert (Hwa : Invariants.warp useContrast contrast ai
                <= Invariants.warp useContrast contrast aj).
  { destruct Ha1 as [Hlt | Heq]; [|rewrite Heq; lra].
    left. apply warp_increasing. lra. }
  set (wbi := Invariants.warp useContrast contrast bi) in *.
  set (wbj := Invariants.warp useContrast contrast bj) in *.
  set (wai := Invariants.warp useContrast contrast ai) in *.
  set (waj := Invariants.warp useContrast contrast aj) in *.
  split; [repeat split; nra|]. split; [repeat split; nra|]. split.
  - intro Hpos. split; [nra|]. split; [nra|].
    intro Hlt. destruct (Hstrict Hlt) as [Hs _].
    assert (wbj < wbi) by (apply warp_increasing; lra). nra.
  - intro Hlt1. split; [nra|]. split; [nra|].
    intro Hlt. destruct (Hstrict Hlt) as [_ Hs].
    assert (wai < waj) by (apply warp_increasing; lra). nra.
Qed.

(** For an anchor arc length in [0, 1] and indices 0 <= i <= j < total,
    the points placed before the anchor lie in [0, anchor] and the points
    placed after it in [anchor, 1], in both the linear and the contrast
    mode and for every contrast; on each side a larger index gives a larger
    arc length, strictly so when the anchor is not at that end of the
    curve. *)
Theorem calculateArcLength_ordered (i j total : Z) (arc contrast : R)
    (useContrast : bool) :
  0 <= arc <= 1 -> (0 <= i)%Z -> (i <= j)%Z -> (j < total)%Z ->
  (0 <= ColorGenerator._calculateArcLength i total arc contrast useContrast
          true
   <= ColorGenerator._calculateArcLength j total arc contrast useContrast
        true
   /\ ColorGenerator._calculateArcLength j total arc contrast useContrast
        true <= arc)
  /\ (arc <= ColorGenerator._calculateArcLength i total arc contrast
               useContrast false
      <= ColorGenerator._calculateArcLength j total arc contrast useContrast
           false
      /\ ColorGenerator._calculateArcLength j total arc contrast useContrast
           false <= 1)
  /\ (0 < arc -> (i < j)%Z ->
      ColorGenerator._calculateArcLength i total arc contrast useContrast
        true
      < ColorGenerator._calculateArcLength j total arc contrast useContrast
          true)
  /\ (arc < 1 -> (i < j)%Z ->
      ColorGenerator._calculateArcLength i total arc contrast useContrast
        false
      < ColorGenerator._calculateArcLength j total arc contrast useContrast
          false).
Proof.
  intros Harc Hi Hij Hj.
  pose proof (side_arcLengths i j total arc contrast useContrast
                Harc Hi Hij Hj) as H.
  cbv zeta beta in H. destruct H as (Hb & Ha & Hsb & Hsa).
  split; [tauto|]. split; [tauto|]. split.
  - intros Hpos Hlt. apply (Hsb Hpos). exact Hlt.
  - intros Hlt1 Hlt. apply (Hsa Hlt1). exact Hlt.
Qed.

(** ** The palette runs from dark to light *)

Lemma StronglySorted_map_seq_rel (rel : R -> R -> Prop) (h : nat -> R)
    (start n : nat) :
  (forall i j, (start <= i)%nat -> (i < j)%nat -> (j < start + n)%nat ->
               rel (h i) (h j)) ->
  StronglySorted rel (map h (seq start n)).
Proof.
  revert start. induction n as [|n IH]; intros start Hrel; cbn [seq map].
  - constructor.
  - constructor.
    + apply IH. intros i j Hi Hij Hj. apply Hrel; lia.
    + apply Forall_map. apply Forall_forall. intros j Hj.
      apply in_seq in Hj. apply Hrel; lia.
Qed.

Lemma StronglySorted_map_upTo (rel : R -> R -> Prop) (g : Z -> R)
    (bound : Z) :
  (forall i j, (0 <= i)%Z -> (i < j)%Z -> (j < bound)%Z -> rel (g i) (g j)) ->
  StronglySorted rel (map g (ColorGenerator.upTo bound)).
Proof.
  intro Hrel. unfold ColorGenerator.upTo. rewrite map_map.
  apply StronglySorted_map_seq_rel. intros i j Hi Hij Hj.
  apply Hrel; lia.
Qed.

Lemma StronglySorted_app (rel : R -> R -> Prop) (l1 l2 : list R) :
  StronglySorted rel l1 -> StronglySorted rel l2 ->
  (forall a b, In a l1 -> In b l2 -> rel a b) ->
  StronglySorted rel (l1 ++ l2).
Proof.
  intros H1 H2 Hcross. induction H1 as [|a l1 Hs IH Ha]; [exact H2|].
  cbn [app]. constructor.
  - apply IH. intros x y Hx Hy. apply Hcross; [now right | exact Hy].
  - apply Forall_app. split; [exact Ha|].
    apply Forall_forall. intros y Hy. apply Hcross; [now left | exact Hy].
Qed.

(** The arc lengths [before ++ [arc] ++ after] of the distribution. *)
Lemma distribution_sorted (pb pa : Z) (arc contrast : R)
    (useContrast : bool) :
  0 <= arc <= 1 ->
  let before :=
    map (fun i =>
           ColorGenerator._calculateArcLength i pb arc contrast useContrast
             true)
      (ColorGenerator.upTo pb) in
  let after :=
    map (fun i =>
           ColorGenerator._calculateArcLength i pa arc contrast useContrast
             false)
      (ColorGenerator.upTo pa) in
  StronglySorted Rle (before ++ [arc] ++ after)
  /\ Forall (fun a => 0 <= a <= 1) (before ++ [arc] ++ after)
  /\ (0 < arc < 1 ->
      StronglySorted Rlt (before ++ [arc] ++ after)
      /\ Forall (fun a => 0 < a < 1) (before ++ [arc] ++ after)).
Proof.
  intros Harc before after.
  assert (Hb : forall a, In a before ->
             exists i, (0 <= i < pb)%Z
               /\ a = ColorGenerator._calculateArcLength i pb arc contrast
                        useContrast true).
  { intros a Ha. apply in_map_iff in Ha. destruct Ha as [i [<- Hi]].
    apply upTo_In in Hi. eauto. }
  assert (Ha : forall a, In a after ->
             exists i, (0 <= i < pa)%Z
               /\ a = ColorGenerator._calculateArcLength i pa arc contrast
                        useContrast false).
  { intros a Hin. apply in_map_iff in Hin. destruct Hin as [i [<- Hi]].
    apply upTo_In in Hi. eauto. }
  assert (Hbb : forall a, In a before ->
             0 <= a <= arc /\ (0 < arc -> 0 < a < arc)).
  { intros a Hin. destruct (Hb a Hin) as [i [Hi ->]].
    pose proof (side_arcLengths i i pb arc contrast useContrast Harc
                  ltac:(lia) ltac:(lia) ltac:(lia)) as H.
    cbv zeta beta in H. destruct H as (H1 & _ & H3 & _).
    split; [lra|]. intro Hp. specialize (H3 Hp). lra. }
  assert (Haa : forall a, In a after ->
             arc <= a <= 1 /\ (arc < 1 -> arc < a < 1)).
  { intros a Hin. destruct (Ha a Hin) as [i [Hi ->]].
    pose proof (side_arcLengths i i pa arc contrast useContrast Harc
                  ltac:(lia) ltac:(lia) ltac:(lia)) as H.
    cbv zeta beta in H. destruct H as (_ & H2 & _ & H4).
    split; [lra|]. intro Hp. specialize (H4 Hp). lra. }
  split; [|split].
  - apply StronglySorted_app.
    + apply StronglySorted_map_upTo. intros i j Hi Hij Hj.
      pose proof (side_arcLengths i j pb arc contrast useContrast Harc
                    Hi ltac:(lia) Hj) as H.
      cbv zeta beta in H. tauto.
    + cbn [app]. constructor.
      * apply StronglySorted_map_upTo. intros i j Hi Hij Hj.
        pose proof (side_arcLengths i j pa arc contrast useContrast Harc
                      Hi ltac:(lia) Hj) as H.
        cbv zeta beta in H. tauto.
      * apply Forall_forall. intros a Hin. apply Haa in Hin. lra.
    + intros a b Hina Hinb. apply Hbb in Hina.
      cbn [app] in Hinb. destruct Hinb as [<- | Hinb]; [lra|].
      apply Haa in Hinb. lra.
  - apply Forall_app. split.
    + apply Forall_forall. intros a Hin. apply Hbb in Hin. lra.
    + cbn [app]. constructor; [lra|].
      apply Forall_forall. intros a Hin. apply Haa in Hin. lra.
  - intros Hstrict. split.
    + apply StronglySorted_app.
      * apply StronglySorted_map_upTo. intros i j Hi Hij Hj.
        pose proof (side_arcLengths i j pb arc contrast useContrast Harc
                      Hi ltac:(lia) Hj) as H.
        cbv zeta beta in H. destruct H as (_ & _ & H3 & _).
        apply H3; [lra | exact Hij].
      * cbn [app]. constructor.
        -- apply StronglySorted_map_upTo. intros i j Hi Hij Hj.
           pose proof (side_arcLengths i j pa arc contrast useContrast Harc
                         Hi ltac:(lia) Hj) as H.
           cbv zeta beta in H. destruct H as (_ & _ & _ & H4).
           apply H4; [lra | exact Hij].
        -- apply Forall_forall. intros a Hin. apply Haa in Hin.
           destruct Hin as [_ Hin]. specialize (Hin ltac:(lra)). lra.
      * intros a b Hina Hinb. apply Hbb in Hina.
        destruct Hina as [_ Hina]. specialize (Hina ltac:(lra)).
        cbn [app] in Hinb. destruct Hinb as [<- | Hinb]; [lra|].
        apply Haa in Hinb. lra.
    + apply Forall_app. split.
      * apply Forall_forall. intros a Hin. apply Hbb in Hin.
        destruct Hin as [_ Hin]. specialize (Hin ltac:(lra)). lra.
      * cbn [app]. constructor; [lra|].
        apply Forall_forall. intros a Hin. apply Haa in Hin.
        destruct Hin as [_ Hin]. specialize (Hin ltac:(lra)). lra.
Qed.

Lemma StronglySorted_between (rel : R -> R -> Prop) (lo hi : R)
    (l : list R) :
  StronglySorted rel l -> Forall (fun a => rel lo a /\ rel a hi) l ->
  rel lo hi ->
  StronglySorted rel ([lo] ++ l ++ [hi]).
Proof.
  intros Hs Hall Hlohi. cbn [app]. constructor.
  - apply StronglySorted_app; [exact Hs | repeat constructor |].
    intros a b Ha [<- | []]. rewrite Forall_forall in Hall.
    now apply Hall.
  - apply Forall_app. split.
    + eapply Forall_impl; [|exact Hall]. cbn beta. tauto.
    + constructor; [exact Hlohi | constructor].
Qed.

(** For every request, whatever its count, contrast and spacing mode, the
    swatches come out in ascending arc-length order, from the dark end of
    the curve to the light end, all within [0, 1], the black and white
    endpoints included when requested.  When the anchor lies strictly
    inside the curve the order is strict, so no two swatches share a
    position. *)
Theorem palette_ascending (hsvToHex : R -> R -> R -> string)
    (params : ColorGenerator.Params) :
  exists arc palette,
    Invariants.anchorArcLength params = Some arc
    /\ ColorGenerator.generatePalette hsvToHex params = Some palette
    /\ StronglySorted Rle (Invariants.arcLengths palette)
    /\ Forall (fun a => 0 <= a <= 1) (Invariants.arcLengths palette)
    /\ (0 < arc < 1 -> StronglySorted Rlt (Invariants.arcLengths palette)).
Proof.
  destruct (generatePalette_shape hsvToHex params)
    as (arc & palette & before & selected & after
        & Harc & Hunit & Hgen & Hcolors & Hsel & Hflag & Hb & Ha).
  cbv zeta in Hb, Ha.
  exists arc, palette. split; [exact Harc|]. split; [exact Hgen|].
  set (ucm := ColorGenerator.useContrastMode (ColorGenerator.contrast params))
    in *.
  set (split := ColorGenerator.splitPoints _ ucm _ arc) in *.
  pose proof (distribution_sorted (fst split) (snd split) arc
                (ColorGenerator.contrast params) ucm Hunit) as Hd.
  cbv zeta in Hd. rewrite <- Hb, <- Ha in Hd.
  destruct Hd as (Hsorted & Hrange & Hstrict).
  assert (Hinner : map ColorGenerator.arcLength (before ++ [selected] ++ after)
                   = map ColorGenerator.arcLength before ++ [arc]
                     ++ map ColorGenerator.arcLength after).
  { rewrite !map_app. cbn [map]. now rewrite Hsel. }
  unfold Invariants.arcLengths. rewrite Hcolors.
  destruct (ColorGenerator.includeBlackWhite params).
  - rewrite (map_app _ [ColorGenerator.blackSwatch]),
      (map_app _ (before ++ [selected] ++ after)), Hinner.
    cbn [map].
    change (ColorGenerator.arcLength ColorGenerator.blackSwatch) with 0.
    change (ColorGenerator.arcLength ColorGenerator.whiteSwatch) with 1.
    split; [|split].
    + apply (StronglySorted_between Rle 0 1); [exact Hsorted | | lra].
      eapply Forall_impl; [|exact Hrange]. cbn beta. tauto.
    + apply Forall_app. split; [repeat constructor; lra|].
      apply Forall_app. split; [exact Hrange | repeat constructor; lra].
    + intro Hin. destruct (Hstrict Hin) as [Hs Hr].
      apply (StronglySorted_between Rlt 0 1); [exact Hs | | lra].
      eapply Forall_impl; [|exact Hr]. cbn beta. tauto.
  - rewrite Hinner. split; [exact Hsorted|]. split; [exact Hrange|].
    intro Hin. apply (Hstrict Hin).
Qed.

(** ** Counts below one *)

Lemma splitPoints_nonpositive (smartSpacing useContrastMode : bool)
    (count : Z) (arc : R) :
  (count <= 0)%Z -> 0 <= arc <= 1 ->
  (fst (ColorGenerator.splitPoints smartSpacing useContrastMode count arc)
   <= 0)%Z
  /\ (snd (ColorGenerator.splitPoints smartSpacing useContrastMode count arc)
      <= 0)%Z.
Proof.
  intros Hc Harc. unfold ColorGenerator.splitPoints.
  destruct (smartSpacing && negb useContrastMode).
  - assert (Hr : (count - 1
                  <= JS.Math_round (arc * IZR (count - 1)) <= 0)%Z).
    { apply Math_round_bounds.
      assert (IZR (count - 1) <= -1) by (apply IZR_le; lia).
      split; nra. }
    set (pb := JS.Math_round (arc * IZR (count - 1))) in *.
    destruct (Z.eqb_spec pb 0); destruct (Z.ltb_spec 1 (count - 1 - pb));
      destruct (Z.eqb_spec (count - 1 - pb) 0); destruct (Z.ltb_spec 1 pb);
      cbn [andb fst snd]; lia.
  - unfold JS.Math_floor, JS.Math_ceil. rewrite Zfloor_half, Zceil_half.
    replace (count - 1 + 1)%Z with count by lia.
    pose proof (Z.div_mod count 2 ltac:(lia)) as Hdm.
    pose proof (Z.mod_pos_bound count 2 ltac:(lia)) as Hb.
    pose proof (Z.div_mod (count - 1) 2 ltac:(lia)) as Hdm1.
    pose proof (Z.mod_pos_bound (count - 1) 2 ltac:(lia)) as Hb1.
    destruct (Z.rem count 2 =? 0)%Z; [destruct (arc >=? 1 - arc)|];
      cbn [fst snd]; lia.
Qed.

(** generatePalette never throws, and the number of swatches it returns is
    max(count, 1), plus 2 when the black and white endpoints are
    requested.  A count of zero or below, which the caller is meant to
    prevent, yields the anchor swatch alone. *)
Theorem generatePalette_length (hsvToHex : R -> R -> R -> string)
    (params : ColorGenerator.Params) :
  exists palette,
    ColorGenerator.generatePalette hsvToHex params = Some palette
    /\ length (ColorGenerator.colors palette)
       = (Z.to_nat (Z.max (ColorGenerator.colorCount params) 1)
          + (if ColorGenerator.includeBlackWhite params then 2 else 0))%nat.
Proof.
  destruct (generatePalette_shape hsvToHex params)
    as (arc & palette & before & selected & after
        & Harc & Hunit & Hgen & Hcolors & Hsel & Hflag & Hb & Ha).
  cbv zeta in Hb, Ha. exists palette. split; [exact Hgen|].
  set (ucm := ColorGenerator.useContrastMode (ColorGenerator.contrast params))
    in *.
  pose proof (map_length_eq _ _ _ _ Hb) as Hlb. rewrite upTo_length in Hlb.
  pose proof (map_length_eq _ _ _ _ Ha) as Hla. rewrite upTo_length in Hla.
  assert (Hinner : length (before ++ [selected] ++ after)
                   = Z.to_nat (Z.max (ColorGenerator.colorCount params) 1)).
  { rewrite !length_app. cbn [length]. rewrite Hlb, Hla.
    destruct (Z_le_gt_dec (ColorGenerator.colorCount params) 0) as [Hle | Hgt].
    - destruct (splitPoints_nonpositive (ColorGenerator.smartSpacing params)
                  ucm _ arc Hle Hunit) as [H1 H2].
      lia.
    - pose proof (splitPoints_sum (ColorGenerator.smartSpacing params) ucm
                    (ColorGenerator.colorCount params) arc ltac:(lia) Hunit)
        as H.
      cbv zeta in H. lia. }
  rewrite Hcolors.
  destruct (ColorGenerator.includeBlackWhite params).
  - rewrite (length_app [ColorGenerator.blackSwatch]),
      (length_app (before ++ [selected] ++ after)), Hinner.
    cbn [length]. lia.
  - rewrite Hinner. lia.
Qed.

(** ** The anchor swatch *)

Lemma forEach_Forall {A B : Type} (f : A -> option B) (P : B -> Prop)
    (l : list A) (bs : list B) :
  (forall a b, f a = Some b -> P b) ->
  ColorGenerator.forEach f l = Some bs -> Forall P bs.
Proof.
  intro Hf. revert bs. induction l as [|a rest IH]; intros bs Hbs;
    cbn [ColorGenerator.forEach] in Hbs.
  - injection Hbs as <-. constructor.
  - destruct (f a) as [b|] eqn:Hb; [|discriminate].
    destruct (ColorGenerator.forEach f rest) as [bs'|]; [|discriminate].
    injection Hbs as <-. constructor; [eapply Hf; eauto | now apply IH].
Qed.

Lemma swatchAt_plain (hsvToHex : R -> R -> R -> string) (hue arc : R)
    (curve desaturated : list SuperellipseMath.CurvePoint)
    (c : ColorGenerator.Color) :
  ColorGenerator.swatchAt hsvToHex hue curve desaturated arc = Some c ->
  ColorGenerator.isSelected c = false
  /\ ColorGenerator.isBlack c = false /\ ColorGenerator.isWhite c = false.
Proof.
  unfold ColorGenerator.swatchAt.
  destruct (SuperellipseMath.findPointAtArcLength arc curve); [|discriminate].
  destruct (SuperellipseMath.findPointAtArcLength arc desaturated);
    [|discriminate].
  intro H. injection H as <-. auto.
Qed.

(** What a successful run of generatePalette is made of. *)
Lemma generatePalette_parts (hsvToHex : R -> R -> R -> string)
    (params : ColorGenerator.Params) (palette : ColorGenerator.Palette) :
  ColorGenerator.generatePalette hsvToHex params = Some palette ->
  exists before selected after,
    ColorGenerator.colors palette
    = (if ColorGenerator.includeBlackWhite params
       then [ColorGenerator.blackSwatch]
            ++ (before ++ [selected] ++ after)
            ++ [ColorGenerator.whiteSwatch]
       else before ++ [selected] ++ after)
    /\ Forall
         (fun c =>
            ColorGenerator.isSelected c = false
            /\ ColorGenerator.isBlack c = false
            /\ ColorGenerator.isWhite c = false)
         (before ++ after)
    /\ ColorGenerator.isSelected selected = true
    /\ ColorGenerator.isBlack selected = false
    /\ ColorGenerator.isWhite selected = false
    /\ ColorGenerator.mainS selected = ColorGenerator.saturation params
    /\ ColorGenerator.mainV selected = ColorGenerator.value params
    /\ ColorGenerator.mainHex selected
       = hsvToHex (ColorGenerator.hue params)
           (ColorGenerator.saturation params) (ColorGenerator.value params)
    /\ ColorGenerator.hex selected
       = hsvToHex (ColorGenerator.hue params) (ColorGenerator.s selected)
           (ColorGenerator.v selected).
Proof.
  unfold ColorGenerator.generatePalette.
  destruct (SuperellipseMath.findClosestPoint _ _ _) as [sp|];
    [|discriminate].
  destruct (ColorGenerator.splitPoints _ _ _ _) as [pb pa].
  destruct (ColorGenerator.forEach _ (ColorGenerator.upTo pb))
    as [before|] eqn:Hbefore; [|discriminate].
  destruct (SuperellipseMath.findPointAtArcLength _ _) as [sdp|];
    [|discriminate].
  destruct (ColorGenerator.forEach _ (ColorGenerator.upTo pa))
    as [after|] eqn:Hafter; [|discriminate].
  intro H. injection H as <-. cbn [ColorGenerator.colors].
  eexists before, _, after. split; [reflexivity|].
  split.
  - apply Forall_app. split.
    + eapply forEach_Forall; [|exact Hbefore].
      intros i c Hc. eapply swatchAt_plain; exact Hc.
    + eapply forEach_Forall; [|exact Hafter].
      intros i c Hc. eapply swatchAt_plain; exact Hc.
  - cbn. repeat split; reflexivity.
Qed.

(** Exactly one swatch of a palette is flagged as selected.  It is the
    anchor: its main colour is the requested saturation and value,
    unchanged by the curve fit, and its main hex is the hex of the
    requested colour.  No swatch but the two fixed endpoints is flagged
    black or white. *)
Theorem palette_anchor_swatch (hsvToHex : R -> R -> R -> string)
    (params : ColorGenerator.Params) :
  exists palette before anchor after,
    ColorGenerator.generatePalette hsvToHex params = Some palette
    /\ ColorGenerator.colors palette = before ++ anchor :: after
    /\ Forall (fun c => ColorGenerator.isSelected c = false) (before ++ after)
    /\ ColorGenerator.isSelected anchor = true
    /\ ColorGenerator.mainS anchor = ColorGenerator.saturation params
    /\ ColorGenerator.mainV anchor = ColorGenerator.value params
    /\ ColorGenerator.mainHex anchor
       = hsvToHex (ColorGenerator.hue params)
           (ColorGenerator.saturation params) (ColorGenerator.value params)
    /\ filter (fun c => ColorGenerator.isBlack c || ColorGenerator.isWhite c)
         (ColorGenerator.colors palette)
       = (if ColorGenerator.includeBlackWhite params
          then [ColorGenerator.blackSwatch; ColorGenerator.whiteSwatch]
          else []).
Proof.
  destruct (generatePalette_shape hsvToHex params)
    as (arc & palette & _ & _ & _ & _ & _ & Hgen & _).
  destruct (generatePalette_parts hsvToHex params palette Hgen)
    as (before & selected & after & Hcolors & Hplain & Hsel & Hnb & Hnw
        & HmS & HmV & HmH & _).
  assert (Hfilter :
            filter (fun c => ColorGenerator.isBlack c
                             || ColorGenerator.isWhite c)
              (before ++ [selected] ++ after) = []).
  { rewrite !filter_app. cbn [filter]. rewrite Hnb, Hnw. cbn [orb app].
    apply Forall_app in Hplain. destruct Hplain as [Hpb Hpa].
    assert (Hnone : forall l,
              Forall (fun c => ColorGenerator.isSelected c = false
                               /\ ColorGenerator.isBlack c = false
                               /\ ColorGenerator.isWhite c = false) l ->
              filter (fun c => ColorGenerator.isBlack c
                               || ColorGenerator.isWhite c) l = []).
    { induction 1 as [|c l [_ [Hb Hw]] _ IH]; [reflexivity|].
      cbn [filter]. now rewrite Hb, Hw. }
    now rewrite (Hnone _ Hpb), (Hnone _ Hpa). }
  assert (Hplain' : Forall (fun c => ColorGenerator.isSelected c = false)
                      (before ++ after)).
  { eapply Forall_impl; [|exact Hplain]. cbn beta. tauto. }
  destruct (ColorGenerator.includeBlackWhite params).
  - exists palette, (ColorGenerator.blackSwatch :: before), selected,
      (after ++ [ColorGenerator.whiteSwatch]).
    split; [exact Hgen|]. split.
    { rewrite Hcolors. cbn [app]. rewrite <- !app_assoc. reflexivity. }
    split.
    { cbn [app]. constructor; [reflexivity|].
      rewrite app_assoc. apply Forall_app. split; [exact Hplain'|].
      constructor; [reflexivity | constructor]. }
    repeat (split; [assumption|]).
    rewrite Hcolors.
    rewrite (filter_app _ [ColorGenerator.blackSwatch]),
      (filter_app _ (before ++ [selected] ++ after)), Hfilter.
    reflexivity.
  - exists palette, before, selected, after.
    split; [exact Hgen|]. split; [exact Hcolors|].
    split; [exact Hplain'|].
    repeat (split; [assumption|]).
    rewrite Hcolors. exact Hfilter.
Qed.

(** ** Display names *)

Lemma nameColors_colors (baseName : string) (total counter : Z)
    (colors : list ColorGenerator.Color) :
  map ColorGenerator.color
    (ColorGenerator.nameColors baseName total counter colors)
  = colors.
Proof.
  revert counter. induction colors as [|c rest IH]; intro counter;
    cbn [ColorGenerator.nameColors]; [reflexivity|].
  destruct (ColorGenerator.isBlack c); [cbn; now rewrite IH|].
  destruct (ColorGenerator.isWhite c); cbn; now rewrite IH.
Qed.

Lemma nameColors_app (baseName : string) (total counter : Z)
    (l1 l2 : list ColorGenerator.Color) :
  ColorGenerator.nameColors baseName total counter (l1 ++ l2)
  = ColorGenerator.nameColors baseName total counter l1
    ++ ColorGenerator.nameColors baseName total
         (counter
          + Z.of_nat
              (length
                 (filter
                    (fun c =>
                       negb (ColorGenerator.isBlack c)
                       && negb (ColorGenerator.isWhite c)) l1)))
         l2.
Proof.
  revert counter. induction l1 as [|c rest IH]; intro counter;
    cbn [app ColorGenerator.nameColors filter length].
  - now rewrite Z.add_0_r.
  - destruct (ColorGenerator.isBlack c); cbn [negb andb app];
      [now rewrite IH|].
    destruct (ColorGenerator.isWhite c); cbn [negb andb app length];
      [now rewrite IH|].
    rewrite IH. do 3 f_equal. lia.
Qed.

Lemma nameColors_main (baseName : string) (total counter : Z)
    (colors : list ColorGenerator.Color) :
  Forall
    (fun c =>
       ColorGenerator.isBlack c = false /\ ColorGenerator.isWhite c = false)
    colors ->
  map ColorGenerator.displayName
    (ColorGenerator.nameColors baseName total counter colors)
  = map (fun k =>
           (baseName ++ " "
            ++ JSString.ofInteger ((total - (counter + k)) * 10))%string)
      (ColorGenerator.upTo (Z.of_nat (length colors))).
Proof.
  intro Hall. revert counter.
  induction Hall as [|c rest [Hb Hw] _ IH]; intro counter;
    [reflexivity|].
  cbn [ColorGenerator.nameColors]. rewrite Hb, Hw. cbn [map].
  rewrite IH. unfold ColorGenerator.upTo. rewrite !Nat2Z.id.
  cbn [length seq map]. rewrite Z.add_0_r. f_equal.
  rewrite <- seq_shift, !map_map. apply map_ext. intro k.
  unfold ColorGenerator.nameMultiplier. do 3 f_equal. lia.
Qed.

Lemma filter_main_all (colors : list ColorGenerator.Color) :
  Forall
    (fun c =>
       ColorGenerator.isBlack c = false /\ ColorGenerator.isWhite c = false)
    colors ->
  filter
    (fun c =>
       negb (ColorGenerator.isBlack c) && negb (ColorGenerator.isWhite c))
    colors
  = colors.
Proof.
  induction 1 as [|c rest [Hb Hw] _ IH]; [reflexivity|].
  cbn [filter]. now rewrite Hb, Hw, IH.
Qed.

(** generateColorNames keeps the colours and their order, and numbers the
    main colours (those not flagged black or white) downwards in steps of
    ten: with [total] main colours, the k-th of them (from 0) is named
    "<baseName> <(total - k) * 10>", so the first gets total * 10 and the
    last gets 10; a list of main colours only is named exactly so. *)
Theorem generateColorNames_steps (mains : list ColorGenerator.Color)
    (baseName : string) :
  Forall
    (fun c =>
       ColorGenerator.isBlack c = false /\ ColorGenerator.isWhite c = false)
    mains ->
  map ColorGenerator.color (ColorGenerator.generateColorNames mains baseName)
  = mains
  /\ map ColorGenerator.displayName
       (ColorGenerator.generateColorNames mains baseName)
     = map (fun k =>
              (baseName ++ " "
               ++ JSString.ofInteger
                    ((Z.of_nat (length mains) - k) * 10))%string)
         (ColorGenerator.upTo (Z.of_nat (length mains))).
Proof.
  intro Hall. unfold ColorGenerator.generateColorNames. cbv zeta.
  split; [apply nameColors_colors|].
  rewrite (filter_main_all mains Hall), (nameColors_main _ _ _ _ Hall).
  apply map_ext. intro k. do 3 f_equal.
Qed.

(** From a request to the labels: for every request the display names of
    the generated palette are, in output order, "Black" (when the
    endpoints are requested), then "<baseName> <n * 10>" down to
    "<baseName> 10" for the n = max(count, 1) main swatches, then
    "White".  The darkest main swatch carries the highest step number. *)
Theorem palette_display_names (hsvToHex : R -> R -> R -> string)
    (params : ColorGenerator.Params) (baseName : string) :
  exists palette,
    ColorGenerator.generatePalette hsvToHex params = Some palette
    /\ map ColorGenerator.displayName
         (ColorGenerator.generateColorNames (ColorGenerator.colors palette)
            baseName)
       = (if ColorGenerator.includeBlackWhite params
          then ["Black"%string] else [])
         ++ map (fun k =>
                   (baseName ++ " "
                    ++ JSString.ofInteger
                         ((Z.max (ColorGenerator.colorCount params) 1 - k)
                          * 10))%string)
              (ColorGenerator.upTo
                 (Z.max (ColorGenerator.colorCount params) 1))
         ++ (if ColorGenerator.includeBlackWhite params
             then ["White"%string] else []).
Proof.
  destruct (generatePalette_shape hsvToHex params)
    as (arc & palette & before & selected & after
        & Harc & Hunit & Hgen & Hcolors & Hsel & Hflag & Hb & Ha).
  cbv zeta in Hb, Ha. exists palette. split; [exact Hgen|].
  destruct (generatePalette_parts hsvToHex params palette Hgen)
    as (before' & selected' & after' & Hcolors' & Hplain & _ & Hnb & Hnw & _).
  assert (Hmain : Forall
            (fun c => ColorGenerator.isBlack c = false
                      /\ ColorGenerator.isWhite c = false)
            (before' ++ [selected'] ++ after')).
  { apply Forall_app in Hplain. destruct Hplain as [Hpb Hpa].
    apply Forall_app. split.
    - eapply Forall_impl; [|exact Hpb]. cbn beta. tauto.
    - cbn [app]. constructor; [auto|].
      eapply Forall_impl; [|exact Hpa]. cbn beta. tauto. }
  set (ucm := ColorGenerator.useContrastMode (ColorGenerator.contrast params))
    in *.
  assert (Hlen : Z.of_nat (length (before' ++ [selected'] ++ after'))
                 = Z.max (ColorGenerator.colorCount params) 1).
  { destruct (generatePalette_shape hsvToHex params)
      as (arc2 & palette2 & _ & _ & _ & _ & _ & Hgen2 & _).
    pose proof (map_length_eq _ _ _ _ Hb) as Hlb. rewrite upTo_length in Hlb.
    pose proof (map_length_eq _ _ _ _ Ha) as Hla. rewrite upTo_length in Hla.
    assert (Hsame : length (before' ++ [selected'] ++ after')
                    = length (before ++ [selected] ++ after)).
    { pose proof (f_equal (@length _) Hcolors) as H1.
      pose proof (f_equal (@length _) Hcolors') as H2.
      destruct (ColorGenerator.includeBlackWhite params).
      - rewrite H1 in H2.
        rewrite (length_app [ColorGenerator.blackSwatch]),
          (length_app (before ++ [selected] ++ after)),
          (length_app [ColorGenerator.blackSwatch]),
          (length_app (before' ++ [selected'] ++ after')) in H2.
        cbn [length] in H2. lia.
      - congruence. }
    rewrite Hsame, !length_app. cbn [length]. rewrite Hlb, Hla.
    destruct (Z_le_gt_dec (ColorGenerator.colorCount params) 0) as [Hle | Hgt].
    - destruct (splitPoints_nonpositive (ColorGenerator.smartSpacing params)
                  ucm _ arc Hle Hunit) as [H1 H2].
      lia.
    - pose proof (splitPoints_sum (ColorGenerator.smartSpacing params) ucm
                    (ColorGenerator.colorCount params) arc ltac:(lia) Hunit)
        as H.
      cbv zeta in H. lia. }
  unfold ColorGenerator.generateColorNames. cbv zeta. rewrite Hcolors'.
  pose proof (filter_main_all _ Hmain) as Hfm.
  set (inner := before' ++ [selected'] ++ after') in *.
  destruct (ColorGenerator.includeBlackWhite params).
  - rewrite (filter_app _ [ColorGenerator.blackSwatch]),
      (filter_app _ inner), Hfm.
    change (filter _ [ColorGenerator.blackSwatch])
      with (@nil ColorGenerator.Color).
    change (filter _ [ColorGenerator.whiteSwatch])
      with (@nil ColorGenerator.Color).
    rewrite app_nil_r. cbn [app]. rewrite Hlen.
    change (ColorGenerator.blackSwatch
              :: inner ++ [ColorGenerator.whiteSwatch])
      with ([ColorGenerator.blackSwatch]
              ++ inner ++ [ColorGenerator.whiteSwatch]).
    rewrite !nameColors_app, !map_app, (nameColors_main _ _ _ _ Hmain), Hlen.
    change (filter _ [ColorGenerator.blackSwatch])
      with (@nil ColorGenerator.Color).
    cbn [ColorGenerator.nameColors ColorGenerator.isBlack
         ColorGenerator.isWhite ColorGenerator.blackSwatch
         ColorGenerator.whiteSwatch map length app].
    reflexivity.
  - rewrite Hfm, Hlen, (nameColors_main _ _ _ _ Hmain), Hlen.
    cbn [app]. rewrite app_nil_r. apply map_ext. intro k. do 3 f_equal.
Qed.

(* ================================================================== *)
(** * Further properties of the colour conversions *)

(** ** hsvToHex *)

Lemma Math_round_eq (a : R) (k : Z) :
  IZR k - / 2 <= a < IZR k + / 2 -> JS.Math_round a = k.
Proof. intro H. unfold JS.Math_round. apply Zfloor_eq. lra. Qed.

Lemma channel_round (m val : R) (k : Z) :
  IZR k - / 2 <= (val + m) * 255 < IZR k + / 2 ->
  ColorMath.channel m val
  = JSString.padStart 2 "0" (JSString.toString16 k).
Proof.
  intro H. unfold ColorMath.channel. now rewrite (Math_round_eq _ k H).
Qed.

Lemma sector_cases (h c x : R) :
  ColorMath.sector h c x = (c, x, 0) \/ ColorMath.sector h c x = (x, c, 0)
  \/ ColorMath.sector h c x = (0, c, x) \/ ColorMath.sector h c x = (0, x, c)
  \/ ColorMath.sector h c x = (x, 0, c) \/ ColorMath.sector h c x = (c, 0, x).
Proof.
  unfold ColorMath.sector.
  destruct (h <? 60); [tauto|]. destruct (h <? 120); [tauto|].
  destruct (h <? 180); [tauto|]. destruct (h <? 240); [tauto|].
  destruct (h <? 300); tauto.
Qed.

(** hsvToHex when the three channel values round to known integers. *)
Lemma hsvToHex_channels (h s v : R) (k : Z) :
  (forall val,
      val = v / 100 * (s / 100)
      \/ val = v / 100 * (s / 100)
               * (1 - JS.Math_abs (ColorMath.rem (h / 60) 2 - 1))
      \/ val = 0 ->
      IZR k - / 2
      <= (val + (v / 100 - v / 100 * (s / 100))) * 255
      < IZR k + / 2) ->
  ColorMath.hsvToHex h s v
  = ("#" ++ JSString.toUpperCase
              (String.concat EmptyString
                 [JSString.padStart 2 "0" (JSString.toString16 k);
                  JSString.padStart 2 "0" (JSString.toString16 k);
                  JSString.padStart 2 "0" (JSString.toString16 k)]))%string.
Proof.
  intro Hval. unfold ColorMath.hsvToHex. cbv zeta.
  destruct (sector_cases h (v / 100 * (s / 100))
              (v / 100 * (s / 100)
               * (1 - JS.Math_abs (ColorMath.rem (h / 60) 2 - 1))))
    as [-> | [-> | [-> | [-> | [-> | ->]]]]];
    cbn [map]; rewrite !(channel_round _ _ k) by (apply Hval; auto);
    reflexivity.
Qed.

(** Zero brightness is black for every hue and saturation, and zero
    saturation at full brightness is white for every hue.  The hex strings
    hard-coded in the two fixed endpoint swatches are therefore the ones
    hsvToHex computes for the s and v those swatches carry. *)
Theorem hsvToHex_black_and_white (h s : R) :
  ColorMath.hsvToHex h s 0 = "#000000"%string
  /\ ColorMath.hsvToHex h 0 100 = "#FFFFFF"%string
  /\ ColorGenerator.hex ColorGenerator.blackSwatch
     = ColorMath.hsvToHex h (ColorGenerator.s ColorGenerator.blackSwatch)
         (ColorGenerator.v ColorGenerator.blackSwatch)
  /\ ColorGenerator.hex ColorGenerator.whiteSwatch
     = ColorMath.hsvToHex h (ColorGenerator.s ColorGenerator.whiteSwatch)
         (ColorGenerator.v ColorGenerator.whiteSwatch).
Proof.
  assert (Hblack : forall s', ColorMath.hsvToHex h s' 0 = "#000000"%string).
  { intro s'. rewrite (hsvToHex_channels h s' 0 0); [reflexivity|].
    intros val [-> | [-> | ->]]; lra. }
  assert (Hwhite : ColorMath.hsvToHex h 0 100 = "#FFFFFF"%string).
  { rewrite (hsvToHex_channels h 0 100 255); [reflexivity|].
    intros val [-> | [-> | ->]]; lra. }
  split; [apply Hblack|]. split; [exact Hwhite|].
  split; cbn [ColorGenerator.hex ColorGenerator.s ColorGenerator.v
              ColorGenerator.blackSwatch ColorGenerator.whiteSwatch];
    [now rewrite Hblack | now rewrite Hwhite].
Qed.

(** At zero saturation the colour is a grey whatever the hue: the three
    channels are the same two hex digits, those of
    round(v / 100 * 255). *)
Theorem hsvToHex_grey (h v : R) :
  ColorMath.hsvToHex h 0 v
  = ("#" ++ JSString.toUpperCase
              (String.concat EmptyString
                 [ColorMath.channel (v / 100) 0;
                  ColorMath.channel (v / 100) 0;
                  ColorMath.channel (v / 100) 0]))%string.
Proof.
  rewrite (hsvToHex_channels h 0 v (JS.Math_round ((0 + v / 100) * 255))).
  - reflexivity.
  - intros val Hval.
    assert (Hsame : (val + (v / 100 - v / 100 * (0 / 100))) * 255
                    = (0 + v / 100) * 255).
    { destruct Hval as [-> | [-> | ->]]; lra. }
    rewrite Hsame. unfold JS.Math_round.
    pose proof (Zfloor_bound ((0 + v / 100) * 255 + / 2)). lra.
Qed.

Lemma byte_two_digits (k : Z) :
  (0 <= k <= 255)%Z ->
  exists c1 c2,
    JSString.padStart 2 "0" (JSString.toString16 k)
    = String c1 (String c2 EmptyString).
Proof.
  intro Hk.
  assert (Hall :
    forallb
      (fun j =>
         match JSString.padStart 2 "0" (JSString.toString16 j) with
         | String _ (String _ EmptyString) => true
         | _ => false
         end)
      (map Z.of_nat (seq 0 256)) = true) by (vm_compute; reflexivity).
  rewrite forallb_forall in Hall.
  assert (Hin : In k (map Z.of_nat (seq 0 256))).
  { rewrite <- (Z2Nat.id k) by lia. apply in_map. apply in_seq. lia. }
  specialize (Hall k Hin).
  destruct (JSString.padStart 2 "0" (JSString.toString16 k))
    as [|c1 [|c2 [|c3 rest]]]; try discriminate.
  now exists c1, c2.
Qed.

Lemma rem_two_range (a : R) : 0 <= a -> 0 <= ColorMath.rem a 2 < 2.
Proof.
  intro Ha. unfold ColorMath.rem, ColorMath.Math_trunc.
  destruct (Rle_dec 0 (a / 2)) as [_ | Hneg]; [|lra].
  pose proof (Zfloor_bound (a / 2)). lra.
Qed.

Lemma Math_round_range (a : R) (lo hi : Z) :
  IZR lo <= a <= IZR hi -> (lo <= JS.Math_round a <= hi)%Z.
Proof.
  intro Ha. unfold JS.Math_round.
  pose proof (Zfloor_bound (a + / 2)) as Hfl.
  split.
  - apply Zfloor_lub. lra.
  - apply Z.lt_succ_r. apply lt_IZR. rewrite succ_IZR. lra.
Qed.

(** For a hue that is not negative and a saturation and a brightness in
    [0, 100], hsvToHex returns [#] followed by the two hex digits of each of
    three integers in [0, 255]: seven characters in all. *)
Theorem hsvToHex_well_formed (h s v : R) :
  0 <= h -> 0 <= s <= 100 -> 0 <= v <= 100 ->
  exists r g b : Z,
    (0 <= r <= 255)%Z /\ (0 <= g <= 255)%Z /\ (0 <= b <= 255)%Z
    /\ ColorMath.hsvToHex h s v
       = ("#" ++ JSString.toUpperCase
                   (String.concat EmptyString
                      (map (fun k =>
                              JSString.padStart 2 "0" (JSString.toString16 k))
                         [r; g; b])))%string
    /\ String.length (ColorMath.hsvToHex h s v) = 7%nat.
Proof.
  intros Hh Hs Hv.
  set (c := v / 100 * (s / 100)).
  set (x := c * (1 - JS.Math_abs (ColorMath.rem (h / 60) 2 - 1))).
  set (m := v / 100 - c).
  assert (Hc : 0 <= c <= v / 100) by (unfold c; nra).
  assert (Hx : 0 <= x <= c).
  { unfold x, JS.Math_abs.
    pose proof (rem_two_range (h / 60) ltac:(lra)) as Hrem.
    assert (Habs : 0 <= Rabs (ColorMath.rem (h / 60) 2 - 1) <= 1).
    { split; [apply Rabs_pos|]. apply Rabs_le. lra. }
    nra. }
  assert (Hbyte : forall val,
             0 <= val <= c -> (0 <= JS.Math_round ((val + m) * 255) <= 255)%Z).
  { intros val Hval. apply Math_round_range. unfold m. lra. }
  assert (Hshape : forall r g b,
             0 <= r <= c -> 0 <= g <= c -> 0 <= b <= c ->
             ColorMath.sector h c x = (r, g, b) ->
             exists r' g' b' : Z,
               (0 <= r' <= 255)%Z /\ (0 <= g' <= 255)%Z /\ (0 <= b' <= 255)%Z
               /\ ColorMath.hsvToHex h s v
                  = ("#" ++ JSString.toUpperCase
                       (String.concat EmptyString
                          (map (fun k =>
                                  JSString.padStart 2 "0"
                                    (JSString.toString16 k))
                             [r'; g'; b'])))%string
               /\ String.length (ColorMath.hsvToHex h s v) = 7%nat).
  { intros r g b Hr Hg Hb Hsec.
    exists (JS.Math_round ((r + m) * 255)), (JS.Math_round ((g + m) * 255)),
      (JS.Math_round ((b + m) * 255)).
    split; [now apply Hbyte|]. split; [now apply Hbyte|].
    split; [now apply Hbyte|].
    assert (Heq : ColorMath.hsvToHex h s v
                  = ("#" ++ JSString.toUpperCase
                       (String.concat EmptyString
                          (map (fun k =>
                                  JSString.padStart 2 "0"
                                    (JSString.toString16 k))
                             [JS.Math_round ((r + m) * 255);
                              JS.Math_round ((g + m) * 255);
                              JS.Math_round ((b + m) * 255)])))%string).
    { unfold ColorMath.hsvToHex. cbv zeta. fold c. fold x. fold m.
      rewrite Hsec. reflexivity. }
    split; [exact Heq|]. rewrite Heq. cbn [map].
    destruct (byte_two_digits _ (Hbyte r Hr)) as (r1 & r2 & ->).
    destruct (byte_two_digits _ (Hbyte g Hg)) as (g1 & g2 & ->).
    destruct (byte_two_digits _ (Hbyte b Hb)) as (b1 & b2 & ->).
    reflexivity. }
  assert (H0 : 0 <= 0 <= c) by lra.
  assert (Hcc : 0 <= c <= c) by lra.
  destruct (sector_cases h c x) as [H | [H | [H | [H | [H | H]]]]];
    eapply Hshape; try exact H; assumption.
Qed.

(** ** getDesaturatedColor *)

(** The hex of the anchor swatch, from the two lookups that produce it. *)
Lemma generatePalette_anchor_hex (hsvToHex : R -> R -> R -> string)
    (params : ColorGenerator.Params) (palette : ColorGenerator.Palette) :
  ColorGenerator.generatePalette hsvToHex params = Some palette ->
  let x := ColorGenerator.saturation params / 100 in
  let y := ColorGenerator.value params / 100 in
  let n := SuperellipseMath.findExponent x y in
  let saturationPercent :=
    match ColorGenerator.saturationControl params with
    | Some sc => sc
    | None => CONFIG.SATURATION_DEFAULT
    end in
  exists selectedPoint desaturatedPoint anchor,
    SuperellipseMath.findClosestPoint x y
      (SuperellipseMath.generateCurvePoints n) = Some selectedPoint
    /\ SuperellipseMath.findPointAtArcLength
         (SuperellipseMath.loc_normalizedArcLength selectedPoint)
         (SuperellipseMath.generateDesaturatedCurve n saturationPercent)
       = Some desaturatedPoint
    /\ In anchor (ColorGenerator.colors palette)
    /\ ColorGenerator.isSelected anchor = true
    /\ ColorGenerator.hex anchor
       = hsvToHex (ColorGenerator.hue params)
           (SuperellipseMath.loc_x desaturatedPoint * 100)
           (SuperellipseMath.loc_y desaturatedPoint * 100)
    /\ ColorGenerator.mainHex anchor
       = hsvToHex (ColorGenerator.hue params)
           (ColorGenerator.saturation params) (ColorGenerator.value params).
Proof.
  unfold ColorGenerator.generatePalette. cbv zeta.
  destruct (SuperellipseMath.findClosestPoint _ _ _) as [sp|] eqn:Hsp;
    [|discriminate].
  destruct (ColorGenerator.splitPoints _ _ _ _) as [pb pa].
  destruct (ColorGenerator.forEach _ (ColorGenerator.upTo pb))
    as [before|]; [|discriminate].
  destruct (SuperellipseMath.findPointAtArcLength _ _) as [sdp|] eqn:Hsdp;
    [|discriminate].
  destruct (ColorGenerator.forEach _ (ColorGenerator.upTo pa))
    as [after|]; [|discriminate].
  intro H. injection H as <-. cbn [ColorGenerator.colors].
  match goal with
  | |- context [before ++ ?selected :: after] => exists sp, sdp, selected
  end.
  split; [reflexivity|]. split; [exact Hsdp|].
  split.
  - destruct (ColorGenerator.includeBlackWhite params);
      cbn [app In]; rewrite ?in_app_iff; cbn [In]; tauto.
  - cbn. repeat split; reflexivity.
Qed.

(** getDesaturatedColor never throws, and it agrees with the palette
    generator run on the same colour and saturation control: below the
    maximal saturation it returns the hex of the palette's anchor swatch, at
    or above it the anchor's main hex, which is the hex of the requested
    colour itself. *)
Theorem getDesaturatedColor_is_anchor_hex (params : ColorGenerator.Params) :
  let saturationPercent :=
    match ColorGenerator.saturationControl params with
    | Some sc => sc
    | None => CONFIG.SATURATION_DEFAULT
    end in
  exists palette anchor,
    ColorGenerator.generatePalette ColorMath.hsvToHex params = Some palette
    /\ In anchor (ColorGenerator.colors palette)
    /\ ColorGenerator.isSelected anchor = true
    /\ ColorMath.getDesaturatedColor (ColorGenerator.hue params)
         (ColorGenerator.saturation params) (ColorGenerator.value params)
         saturationPercent
       = Some (if JS.geb saturationPercent CONFIG.SATURATION_MAX
               then ColorGenerator.mainHex anchor
               else ColorGenerator.hex anchor).
Proof.
  intro saturationPercent.
  destruct (generatePalette_shape ColorMath.hsvToHex params)
    as (arc & palette & _ & _ & _ & _ & _ & Hgen & _).
  destruct (generatePalette_anchor_hex ColorMath.hsvToHex params palette Hgen)
    as (sp & sdp & anchor & Hsp & Hsdp & Hin & Hsel & Hhex & Hmain).
  exists palette, anchor. split; [exact Hgen|]. split; [exact Hin|].
  split; [exact Hsel|].
  unfold ColorMath.getDesaturatedColor. fold saturationPercent in Hsdp.
  destruct (JS.geb saturationPercent CONFIG.SATURATION_MAX).
  - now rewrite Hmain.
  - cbv zeta. rewrite Hsp. cbv beta iota. rewrite Hsdp.
    cbv beta iota. now rewrite Hhex.
Qed.

(** ** rgbToHsv *)

Lemma rem_six_small (q : R) : -1 <= q <= 1 -> ColorMath.rem q 6 = q.
Proof.
  intro Hq. unfold ColorMath.rem, ColorMath.Math_trunc.
  destruct (Rle_dec 0 (q / 6)) as [Hpos | Hneg].
  - rewrite (Zfloor_eq 0 (q / 6)) by lra. lra.
  - rewrite (Zceil_eq 0 (q / 6)) by lra. lra.
Qed.

Lemma quotient_unit (a d : R) : 0 < d -> - d <= a <= d -> -1 <= a / d <= 1.
Proof.
  intros Hd Ha.
  assert (Hq : a = a / d * d) by (field; lra).
  split.
  - apply Rnot_lt_le. intro Hlt. nra.
  - apply Rnot_lt_le. intro Hlt. nra.
Qed.

(** For channels in [0, 255], rgbToHsv returns a hue in [0, 360), the
    value 360 excluded, and a saturation and a brightness in [0, 100]. *)
Theorem rgbToHsv_range (r g b : R) :
  0 <= r <= 255 -> 0 <= g <= 255 -> 0 <= b <= 255 ->
  (0 <= ColorMath.h (ColorMath.rgbToHsv r g b) < 360)%Z
  /\ (0 <= ColorMath.s (ColorMath.rgbToHsv r g b) <= 100)%Z
  /\ (0 <= ColorMath.v (ColorMath.rgbToHsv r g b) <= 100)%Z.
Proof.
  intros Hr Hg Hb. unfold ColorMath.rgbToHsv. cbv zeta.
  cbn [ColorMath.h ColorMath.s ColorMath.v].
  set (r' := r / 255). set (g' := g / 255). set (b' := b / 255).
  assert (Hr' : 0 <= r' <= 1) by (unfold r'; lra).
  assert (Hg' : 0 <= g' <= 1) by (unfold g'; lra).
  assert (Hb' : 0 <= b' <= 1) by (unfold b'; lra).
  set (max := JS.Math_max (JS.Math_max r' g') b').
  set (min := JS.Math_min (JS.Math_min r' g') b').
  assert (Hmax : r' <= max /\ g' <= max /\ b' <= max /\ max <= 1).
  { unfold max, JS.Math_max, Rmax.
    repeat destruct (Rle_dec _ _); lra. }
  assert (Hmin : min <= r' /\ min <= g' /\ min <= b' /\ 0 <= min).
  { unfold min, JS.Math_min, Rmin.
    repeat destruct (Rle_dec _ _); lra. }
  set (diff := max - min).
  set (hq := if JS.neqb diff 0
             then if JS.eqb max r' then ColorMath.rem ((g' - b') / diff) 6
                  else if JS.eqb max g' then (b' - r') / diff + 2
                  else (r' - g') / diff + 4
             else 0).
  assert (Hhq : -1 <= hq <= 5).
  { unfold hq, JS.neqb.
    destruct (JS.eqb diff 0) eqn:Hdiff; cbn [negb]; [lra|].
    apply eqb_false_iff in Hdiff.
    assert (Hpos : 0 < diff) by (unfold diff in *; lra).
    pose proof (quotient_unit (g' - b') diff Hpos
                  ltac:(unfold diff; lra)) as Hgb.
    pose proof (quotient_unit (b' - r') diff Hpos
                  ltac:(unfold diff; lra)) as Hbr.
    pose proof (quotient_unit (r' - g') diff Hpos
                  ltac:(unfold diff; lra)) as Hrg.
    destruct (JS.eqb max r'); [rewrite rem_six_small by exact Hgb; lra|].
    destruct (JS.eqb max g'); lra. }
  pose proof (Math_round_range (hq * 60) (-60) 300 ltac:(lra)) as Hround.
  split; [|split].
  - destruct (Z.ltb_spec (JS.Math_round (hq * 60)) 0); lia.
  - destruct (JS.eqb max 0) eqn:Hzero.
    + apply (Math_round_range 0 0 100). lra.
    + apply eqb_false_iff in Hzero.
      assert (Hpos : 0 < max) by lra.
      pose proof (quotient_unit diff max Hpos ltac:(unfold diff; lra)) as Hq.
      assert (Hnn : 0 <= diff / max).
      { apply Rmult_le_pos; [unfold diff; lra|].
        apply Rlt_le, Rinv_0_lt_compat, Hpos. }
      apply (Math_round_range _ 0 100). lra.
  - apply (Math_round_range _ 0 100). lra.
Qed.

(** A grey, three equal channels whatever their value, has hue 0 and
    saturation 0. *)
Theorem rgbToHsv_grey (c : R) :
  ColorMath.h (ColorMath.rgbToHsv c c c) = 0%Z
  /\ ColorMath.s (ColorMath.rgbToHsv c c c) = 0%Z.
Proof.
  unfold ColorMath.rgbToHsv. cbv zeta. cbn [ColorMath.h ColorMath.s].
  set (c' := c / 255).
  assert (Hmax : JS.Math_max (JS.Math_max c' c') c' = c').
  { unfold JS.Math_max, Rmax. repeat destruct (Rle_dec _ _); lra. }
  assert (Hmin : JS.Math_min (JS.Math_min c' c') c' = c').
  { unfold JS.Math_min, Rmin. repeat destruct (Rle_dec _ _); lra. }
  rewrite Hmax, Hmin.
  assert (Hdiff : JS.neqb (c' - c') 0 = false).
  { unfold JS.neqb. rewrite (proj2 (eqb_true_iff (c' - c') 0)) by lra.
    reflexivity. }
  rewrite Hdiff.
  assert (Hzero : JS.Math_round (0 * 60) = 0%Z)
    by (apply Math_round_eq; lra).
  rewrite Hzero. split; [reflexivity|].
  destruct (JS.eqb c' 0); apply Math_round_eq.
  - lra.
  - replace ((c' - c') / c' * 100) with 0; [lra|].
    unfold Rdiv. replace (c' - c') with 0 by lra. ring.
Qed.

(* ================================================================== *)
(** * Further properties of the controller *)

Lemma regenerateColors_last (w : UIController.World)
    (d : ColorGenerator.Params) :
  last (UIController.requests (UIController._regenerateColors w)) d
  = UIController.requestOf
      (UIController.state (UIController._regenerateColors w)).
Proof.
  unfold UIController._regenerateColors.
  cbn [UIController.requests UIController.state]. apply last_last.
Qed.

Lemma handle_last_request (e : UIController.Event) (w : UIController.World)
    (d : ColorGenerator.Params) :
  last (UIController.requests w) d
  = UIController.requestOf (UIController.state w) ->
  last (UIController.requests (UIController.handle e w)) d
  = UIController.requestOf (UIController.state (UIController.handle e w)).
Proof.
  intro Hw. destruct e; cbn [UIController.handle].
  - apply regenerateColors_last.
  - apply regenerateColors_last.
  - destruct (AppState.smartSpacing _); exact Hw.
  - destruct (UIController.dragActive w); [|exact Hw].
    apply regenerateColors_last.
  - exact Hw.
  - unfold UIController.applyPreset, UIController._notify. cbv zeta.
    cbn [UIController._handleStateChange]. apply regenerateColors_last.
Qed.

(** The palette on display is the one of the current state: after every
    sequence of toggle clicks, contrast inputs, contrast drags and preset
    clicks, the last request passed to generatePalette is built from the
    state as it is then. *)
Theorem last_request_matches_state (events : list UIController.Event) :
  let w := UIController.run events UIController.initial in
  last (UIController.requests w) (UIController.requestOf AppState.initial)
  = UIController.requestOf (UIController.state w).
Proof.
  cbv zeta. unfold UIController.run.
  assert (Hrun : forall evs w,
             last (UIController.requests w)
               (UIController.requestOf AppState.initial)
             = UIController.requestOf (UIController.state w) ->
             last (UIController.requests
                     (fold_left (fun w e => UIController.handle e w) evs w))
               (UIController.requestOf AppState.initial)
             = UIController.requestOf
                 (UIController.state
                    (fold_left (fun w e => UIController.handle e w) evs w))).
  { induction evs as [|e evs IH]; intros w Hw; [exact Hw|].
    cbn [fold_left]. apply IH. now apply handle_last_request. }
  apply Hrun. reflexivity.
Qed.

(* ================================================================== *)
(** * The further properties at concrete inputs *)

Lemma curves_start_at_zero_brightness_witness :
  hd_error (SuperellipseMath.generateCurvePoints 2)
  = Some (SuperellipseMath.mkCurvePoint 0 1 0 (1 * 180) ((1 - 0) * 180) 0 0)
  /\ hd_error (SuperellipseMath.generateDesaturatedCurve 2 50)
     = Some (SuperellipseMath.mkCurvePoint 0
               (Rmax (5 / 1000) (50 / 100)) 0
               (Rmax (5 / 1000) (50 / 100) * 180)
               ((1 - 0) * 180) 0 0).
Proof.
  apply (curves_start_at_zero_brightness 2 2 50); lra.
Defined.

Lemma desaturated_curve_is_capped_witness :
  Forall
    (fun p => SuperellipseMath.x p <= Rmax (5 / 1000) (50 / 100))
    (SuperellipseMath.generateDesaturatedCurve 2 50).
Proof.
  apply (desaturated_curve_is_capped 2 50); lra.
Defined.

Lemma findPointAtArcLength_interior_witness :
  (exists fx fy,
     SuperellipseMath.findPointAtArcLength (1 / 2)
       (SuperellipseMath.generateCurvePoints 2)
     = Some (SuperellipseMath.Fresh fx fy (1 / 2)))
  /\ (exists fx fy,
        SuperellipseMath.findPointAtArcLength (1 / 2)
          (SuperellipseMath.generateDesaturatedCurve 2 50)
        = Some (SuperellipseMath.Fresh fx fy (1 / 2))).
Proof.
  apply (findPointAtArcLength_interior (1 / 2) 2 2 50); lra.
Defined.

Lemma findPointAtArcLength_at_sample_witness :
  exists found,
    SuperellipseMath.findPointAtArcLength
      (SuperellipseMath.normalizedArcLength
         (SuperellipseMath.mkCurvePoint (1 / 2) (1 / 2) (1 / 2) 90 90 1
            (1 / 2)))
      ([] ++ SuperellipseMath.mkCurvePoint 0 1 0 180 180 0 0
          :: SuperellipseMath.mkCurvePoint (1 / 2) (1 / 2) (1 / 2) 90 90 1
               (1 / 2)
          :: [SuperellipseMath.mkCurvePoint 1 0 1 0 0 2 1])
    = Some found
    /\ SuperellipseMath.loc_x found
       = SuperellipseMath.x
           (SuperellipseMath.mkCurvePoint (1 / 2) (1 / 2) (1 / 2) 90 90 1
              (1 / 2))
    /\ SuperellipseMath.loc_y found
       = SuperellipseMath.y
           (SuperellipseMath.mkCurvePoint (1 / 2) (1 / 2) (1 / 2) 90 90 1
              (1 / 2))
    /\ SuperellipseMath.loc_normalizedArcLength found
       = SuperellipseMath.normalizedArcLength
           (SuperellipseMath.mkCurvePoint (1 / 2) (1 / 2) (1 / 2) 90 90 1
              (1 / 2)).
Proof.
  apply (findPointAtArcLength_at_sample []
           (SuperellipseMath.mkCurvePoint 0 1 0 180 180 0 0)
           (SuperellipseMath.mkCurvePoint (1 / 2) (1 / 2) (1 / 2) 90 90 1
              (1 / 2))
           [SuperellipseMath.mkCurvePoint 1 0 1 0 0 2 1]).
  - cbn [app map SuperellipseMath.normalizedArcLength].
    repeat constructor; lra.
  - cbn [SuperellipseMath.normalizedArcLength]. lra.
Defined.

Lemma findClosestPoint_on_sample_witness :
  exists found,
    SuperellipseMath.findClosestPoint 1 0
      [SuperellipseMath.mkCurvePoint 0 1 0 180 180 0 0;
       SuperellipseMath.mkCurvePoint 1 0 1 0 0 2 1]
    = Some found
    /\ SuperellipseMath.loc_x found = 1
    /\ SuperellipseMath.loc_y found = 0.
Proof.
  apply (findClosestPoint_on_sample 1 0
           [SuperellipseMath.mkCurvePoint 0 1 0 180 180 0 0;
            SuperellipseMath.mkCurvePoint 1 0 1 0 0 2 1]
           (SuperellipseMath.mkCurvePoint 0 1 0 180 180 0 0)).
  - left. reflexivity.
  - reflexivity.
  - reflexivity.
Defined.

Lemma calculateArcLength_ordered_witness :
  ColorGenerator._calculateArcLength 0 3 (1 / 2) 2 true true
  < ColorGenerator._calculateArcLength 1 3 (1 / 2) 2 true true.
Proof.
  apply (proj1 (proj2 (proj2
           (calculateArcLength_ordered 0 1 3 (1 / 2) 2 true
              ltac:(lra) ltac:(lia) ltac:(lia) ltac:(lia))))).
  - lra.
  - lia.
Defined.

Lemma generateColorNames_steps_witness :
  map ColorGenerator.color
    (ColorGenerator.generateColorNames
       [ColorGenerator.mkColor "#336699" 50 60 (1 / 2) true false false 50 60
          "#336699"]
       "Blue")
  = [ColorGenerator.mkColor "#336699" 50 60 (1 / 2) true false false 50 60
       "#336699"].
Proof.
  apply (proj1 (generateColorNames_steps
                  [ColorGenerator.mkColor "#336699" 50 60 (1 / 2) true false
                     false 50 60 "#336699"]
                  "Blue"
                  ltac:(repeat constructor))).
Defined.

Lemma hsvToHex_well_formed_witness :
  exists r g b : Z,
    (0 <= r <= 255)%Z /\ (0 <= g <= 255)%Z /\ (0 <= b <= 255)%Z
    /\ ColorMath.hsvToHex 220 81 78
       = ("#" ++ JSString.toUpperCase
                   (String.concat EmptyString
                      (map (fun k =>
                              JSString.padStart 2 "0" (JSString.toString16 k))
                         [r; g; b])))%string
    /\ String.length (ColorMath.hsvToHex 220 81 78) = 7%nat.
Proof.
  apply (hsvToHex_well_formed 220 81 78); lra.
Defined.

Lemma rgbToHsv_range_witness :
  (0 <= ColorMath.h (ColorMath.rgbToHsv 255 128 0) < 360)%Z
  /\ (0 <= ColorMath.s (ColorMath.rgbToHsv 255 128 0) <= 100)%Z
  /\ (0 <= ColorMath.v (ColorMath.rgbToHsv 255 128 0) <= 100)%Z.
Proof.
  apply (rgbToHsv_range 255 128 0); lra.
Defined.
